(** * Financial calculators: loan amortization and compound growth

    A shallow embedding of the calculation functions of the calculator
    pages ([pages/2_Loan_Calculator.py], [pages/1_Interest_Calculator.py]
    and the older [Old/.../1_Interest_Calculator.py]) and the properties
    their specification states about them.

    Numeric model.  Python floats are modelled by real numbers: the four
    arithmetic operations, comparisons, [**], [math.exp] and [math.log] are
    the exact real operations, so rounding is not part of the model.  The
    loan engine works on plain reals.  The growth engine has overflow
    handling in its code, so there a float is an extended real and every
    operation whose exact result leaves the binary64 range yields an
    infinity (arithmetic) or [OverflowError] ([**], [math.exp]), as in
    CPython.  The concrete runs that refute a statement use arguments on
    which binary64 arithmetic is exact (dyadic amounts, powers of two), so
    they are runs of the Python code as well.

    Layout: the embedding of the two engines and of the display logic of
    the pages that call them, the vocabulary of the properties, then the
    properties with their proofs. *)

From Stdlib Require Import String Reals.Reals Lra Lia ZArith List.
Import ListNotations.

Open Scope R_scope.

(** ** Exceptions and results *)

Inductive exn : Type :=
| ValueError (msg : string)
| TypeError (msg : string)
| KeyError (msg : string)
| OverflowError
| ZeroDivisionError
| Exception (msg : string).

Inductive result (A : Type) : Type :=
| Return (a : A)
| Raise (e : exn).

Arguments Return {A} a.
Arguments Raise {A} e.

Definition bind {A B : Type} (m : result A) (k : A -> result B) : result B :=
  match m with
  | Return a => k a
  | Raise e => Raise e
  end.

Notation "x <- m ;; k" := (bind m (fun x => k))
  (at level 61, m at next level, right associativity).

Definition is_value_error {A : Type} (m : result A) : Prop :=
  match m with
  | Raise (ValueError _) => True
  | _ => False
  end.

Definition is_type_error {A : Type} (m : result A) : Prop :=
  match m with
  | Raise (TypeError _) => True
  | _ => False
  end.

(** ** Loan engine *)

Module Loan.

(** [numpy_financial.pmt(rate, nper, pv)] with its defaults [fv = 0] and
    [when = 'end'] (encoded as 0), a function of the external library:
<<
    temp = (1 + rate)**nper
    mask = (rate == 0)
    masked_rate = np.where(mask, 1, rate)
    fact = np.where(mask != 0, nper,
                    (1 + masked_rate*when)*(temp - 1)/masked_rate)
    return -(fv + pv*temp)/fact
>> *)
Definition npf_pmt (rate nper pv : R) : R :=
  let fv := 0 in
  let when := 0 in
  let temp := Rpower (1 + rate) nper in
  let masked_rate := if Req_dec_T rate 0 then 1 else rate in
  let fact :=
    if Req_dec_T rate 0 then nper
    else (1 + masked_rate * when) * (temp - 1) / masked_rate in
  - (fv + pv * temp) / fact.

Definition calculate_loan_payment
    (principal annual_rate years payments_per_year : R) : result R :=
  if Rle_dec principal 0 then Return 0
  else if Rlt_dec annual_rate 0 then
    Raise (ValueError "Annual rate cannot be negative.")
  else if Rle_dec years 0 then
    Raise (ValueError "Loan term must be positive.")
  else if Rle_dec payments_per_year 0 then
    Raise (ValueError "Payments per year must be positive.")
  else if Req_dec_T annual_rate 0 then
    Return (principal / (years * payments_per_year))
  else
    let periodic_rate := annual_rate / payments_per_year in
    let num_payments := years * payments_per_year in
    let payment := - npf_pmt periodic_rate num_payments principal in
    Return payment.

(** One row of the schedule: the dictionary appended per payment, with
    its keys "Payment #", "Starting Balance", "Payment", "Principal Paid",
    "Interest Paid" and "Ending Balance". *)
Record row : Type := mkRow {
  payment_no : nat;
  starting_balance : R;
  payment : R;
  principal_paid : R;
  interest_paid : R;
  ending_balance : R
}.

(** The components of the returned tuple. *)
Inductive pyobj : Type :=
| DataFrame (rows : list row)
| Num (x : R).

(** The local variables of the [while] loop. *)
Record loop_state : Type := mkState {
  schedule : list row;
  current_balance : R;
  total_interest_paid : R;
  payment_num : nat;
  total_payment : R
}.

Section AmortizationLoop.

Variables (regular_payment extra_payment periodic_rate cap : R).

(** The loop test [current_balance > 0.01 and payment_num < cap]. *)
Definition loop_test (st : loop_state) : bool :=
  if Rlt_dec 0.01 (current_balance st) then
    if Rlt_dec (INR (payment_num st)) cap then true else false
  else false.

(** One pass through the loop body, up to and including the append;
    the second component tells whether the [break] is taken. *)
Definition loop_body (st : loop_state) : loop_state * bool :=
  let payment_num := S (payment_num st) in
  let interest_paid := current_balance st * periodic_rate in
  let principal_paid := total_payment st - interest_paid in
  let '(principal_paid, total_payment) :=
    if Rlt_dec (current_balance st) principal_paid
    then (current_balance st, current_balance st + interest_paid)
    else (principal_paid, total_payment st) in
  let current_balance := current_balance st - principal_paid in
  let total_interest_paid := total_interest_paid st + interest_paid in
  let '(principal_paid, current_balance) :=
    if Rlt_dec current_balance 0
    then (principal_paid + current_balance, 0)
    else (principal_paid, current_balance) in
  let r := mkRow payment_num (current_balance + principal_paid) total_payment
             principal_paid interest_paid current_balance in
  let schedule := schedule st ++ [r] in
  if Rle_dec current_balance 0.01 then
    (mkState schedule current_balance total_interest_paid payment_num
       total_payment, true)
  else
    (mkState schedule current_balance total_interest_paid payment_num
       (regular_payment + extra_payment), false).

(** The [while] loop; [None] when the fuel does not suffice. *)
Fixpoint while_loop (fuel : nat) (st : loop_state) : option loop_state :=
  if loop_test st then
    match fuel with
    | O => None
    | S fuel' =>
        let '(st', stop) := loop_body st in
        if stop then Some st' else while_loop fuel' st'
    end
  else Some st.

End AmortizationLoop.

(** [DataFrame(schedule)["Payment"].sum()]: a frame built from an empty
    list has no columns, so the lookup raises [KeyError]. *)
Definition payment_column_sum (rows : list row) : result R :=
  match rows with
  | [] => Raise (KeyError "Payment")
  | _ => Return (fold_left Rplus (map payment rows) 0)
  end.

(** Number of passes that fit under the safety cap. *)
Definition loop_fuel (cap : R) : nat := Z.to_nat (up cap).

Definition calculate_amortization_fuel (fuel : nat)
    (principal annual_rate years payments_per_year extra_payment : R)
    : option (result (list pyobj)) :=
  if Rle_dec principal 0 then
    Some (Return [DataFrame []; Num 0; Num 0; Num 0; Num 0; Num 0])
  else
    match calculate_loan_payment principal annual_rate years
            payments_per_year with
    | Raise e => Some (Raise e)
    | Return regular_payment =>
        let regular_payment :=
          if Req_dec_T regular_payment 0 then
            if Rlt_dec 0 principal
            then principal / (years * payments_per_year)
            else regular_payment
          else regular_payment in
        let periodic_rate := annual_rate / payments_per_year in
        let total_payment := regular_payment + extra_payment in
        match while_loop regular_payment extra_payment periodic_rate
                (years * payments_per_year * 2) fuel
                (mkState [] principal 0 0 total_payment) with
        | None => None
        | Some st =>
            Some (total_paid <- payment_column_sum (schedule st) ;;
                  Return [DataFrame (schedule st); Num regular_payment;
                          Num total_paid; Num (total_interest_paid st);
                          Num (INR (payment_num st))])
        end
    end.

Definition calculate_amortization
    (principal annual_rate years payments_per_year extra_payment : R)
    : option (result (list pyobj)) :=
  calculate_amortization_fuel (loop_fuel (years * payments_per_year * 2))
    principal annual_rate years payments_per_year extra_payment.

End Loan.

(** ** Growth engines *)

Module Growth.

Local Open Scope bool_scope.
Local Open Scope R_scope.

(** *** Floats and numbers *)

(** A float: a real number, an infinity or not-a-number.  Signed zeros,
    rounding and underflow are not modelled. *)
Inductive xfloat : Type :=
| Fin (x : R)
| PInf
| NInf
| NaN.

(** Exact results of this magnitude or more round to an infinity in
    binary64: [2^1024 - 2^970], half an ulp above the largest float. *)
Definition FLOAT_LIMIT : R := IZR (2 ^ 1024 - 2 ^ 970).

Definition fround (x : R) : xfloat :=
  if Rle_dec FLOAT_LIMIT x then PInf
  else if Rle_dec x (- FLOAT_LIMIT) then NInf
  else Fin x.

(** A Python number: an unbounded [int] or a [float]. *)
Inductive num : Type :=
| PyInt (z : Z)
| PyFloat (x : xfloat).

(** The argument values the functions inspect with [isinstance] and
    [==]. *)
Inductive pyval : Type :=
| VInt (z : Z)
| VFloat (x : xfloat)
| VBool (b : bool)
| VStr (s : string)
| VNone.

(** [isinstance(v, int)]; [bool] is a subclass of [int]. *)
Definition as_int (v : pyval) : option Z :=
  match v with
  | VInt z => Some z
  | VBool b => Some (Z.b2z b)
  | _ => None
  end.

(** [isinstance(v, (int, float))]. *)
Definition as_number (v : pyval) : option num :=
  match v with
  | VInt z => Some (PyInt z)
  | VBool b => Some (PyInt (Z.b2z b))
  | VFloat x => Some (PyFloat x)
  | _ => None
  end.

(** The value of a number on the extended real line. *)
Definition xv (a : num) : xfloat :=
  match a with
  | PyInt z => Fin (IZR z)
  | PyFloat x => x
  end.

Definition xlt (a b : xfloat) : bool :=
  match a, b with
  | NaN, _ | _, NaN => false
  | Fin x, Fin y => if Rlt_dec x y then true else false
  | Fin _, PInf => true
  | Fin _, NInf => false
  | PInf, _ => false
  | NInf, NInf => false
  | NInf, _ => true
  end.

Definition xeq (a b : xfloat) : bool :=
  match a, b with
  | Fin x, Fin y => if Req_dec_T x y then true else false
  | PInf, PInf => true
  | NInf, NInf => true
  | _, _ => false
  end.

(** Comparisons between numbers are exact, also between [int] and
    [float]. *)
Definition py_lt (a b : num) : bool := xlt (xv a) (xv b).
Definition py_gt (a b : num) : bool := xlt (xv b) (xv a).
Definition py_eq (a b : num) : bool := xeq (xv a) (xv b).
Definition py_le (a b : num) : bool := py_lt a b || py_eq a b.

(** Conversion of an [int] operand to [float]. *)
Definition to_float (a : num) : result xfloat :=
  match a with
  | PyInt z =>
      if Rle_dec FLOAT_LIMIT (Rabs (IZR z)) then Raise OverflowError
      else Return (Fin (IZR z))
  | PyFloat x => Return x
  end.

Definition xneg (a : xfloat) : xfloat :=
  match a with
  | Fin x => Fin (- x)
  | PInf => NInf
  | NInf => PInf
  | NaN => NaN
  end.

Definition xadd (a b : xfloat) : xfloat :=
  match a, b with
  | NaN, _ | _, NaN => NaN
  | Fin x, Fin y => fround (x + y)
  | PInf, NInf | NInf, PInf => NaN
  | PInf, _ | _, PInf => PInf
  | NInf, _ | _, NInf => NInf
  end.

Definition xsub (a b : xfloat) : xfloat := xadd a (xneg b).

(** An infinity times a finite factor. *)
Definition inf_times (positive : bool) (y : R) : xfloat :=
  if Req_dec_T y 0 then NaN
  else if Rlt_dec 0 y then (if positive then PInf else NInf)
  else (if positive then NInf else PInf).

Definition xmul (a b : xfloat) : xfloat :=
  match a, b with
  | NaN, _ | _, NaN => NaN
  | Fin x, Fin y => fround (x * y)
  | PInf, Fin y | Fin y, PInf => inf_times true y
  | NInf, Fin y | Fin y, NInf => inf_times false y
  | PInf, PInf | NInf, NInf => PInf
  | PInf, NInf | NInf, PInf => NInf
  end.

(** Float division; a zero divisor raises. *)
Definition xdiv (a b : xfloat) : result xfloat :=
  match a, b with
  | _, Fin y =>
      if Req_dec_T y 0 then Raise ZeroDivisionError
      else Return (match a with
                   | Fin x => fround (x / y)
                   | PInf => inf_times true y
                   | NInf => inf_times false y
                   | NaN => NaN
                   end)
  | NaN, _ | _, NaN => Return NaN
  | Fin _, _ => Return (Fin 0)
  | _, _ => Return NaN
  end.

Definition arith (iop : Z -> Z -> Z) (fop : xfloat -> xfloat -> xfloat)
    (a b : num) : result num :=
  match a, b with
  | PyInt x, PyInt y => Return (PyInt (iop x y))
  | _, _ =>
      x <- to_float a ;;
      y <- to_float b ;;
      Return (PyFloat (fop x y))
  end.

Definition py_add : num -> num -> result num := arith Z.add xadd.
Definition py_sub : num -> num -> result num := arith Z.sub xsub.
Definition py_mul : num -> num -> result num := arith Z.mul xmul.

(** True division [a / b]; the quotient of two ints is rounded from the
    exact quotient. *)
Definition py_div (a b : num) : result xfloat :=
  match a, b with
  | PyInt x, PyInt y =>
      if Z.eqb y 0 then Raise ZeroDivisionError
      else if Rle_dec FLOAT_LIMIT (Rabs (IZR x / IZR y))
           then Raise OverflowError
           else Return (Fin (IZR x / IZR y))
  | _, _ =>
      x <- to_float a ;;
      y <- to_float b ;;
      xdiv x y
  end.

(** [Some k] when [y] is the integer [k]. *)
Definition integer_of (y : R) : option Z :=
  let k := (up y - 1)%Z in
  if Req_dec_T y (IZR k) then Some k else None.

(** [pow] of libm on a positive base: an exact result outside the float
    range is an [OverflowError]. *)
Definition pow_positive (x y : R) : result R :=
  if Rle_dec FLOAT_LIMIT (Rpower x y) then Raise OverflowError
  else Return (Rpower x y).

(** [base ** exponent] for a float base, after CPython's [float_pow].
    In the functions below the base is [1 + rate/n] with [rate >= 0]
    validated, so it is at least 1, an infinity or NaN.  For a negative
    base and a fractional exponent CPython yields a complex number, on
    which the later [max(0, ...)] raises [TypeError]; that case is
    rendered by raising the [TypeError] here. *)
Definition float_pow (b e : xfloat) : result xfloat :=
  match b, e with
  | _, Fin y =>
      if Req_dec_T y 0 then Return (Fin 1)
      else match b with
           | NaN => Return NaN
           | PInf => Return (if Rlt_dec 0 y then PInf else Fin 0)
           | NInf =>
               Return (if Rlt_dec 0 y
                       then match integer_of y with
                            | Some k => if Z.odd k then NInf else PInf
                            | None => PInf
                            end
                       else Fin 0)
           | Fin x =>
               if Rlt_dec 0 x then
                 v <- pow_positive x y ;; Return (Fin v)
               else if Req_dec_T x 0 then
                 if Rlt_dec y 0 then Raise ZeroDivisionError
                 else Return (Fin 0)
               else match integer_of y with
                    | Some k =>
                        v <- pow_positive (- x) y ;;
                        Return (Fin (if Z.odd k then - v else v))
                    | None => Raise (TypeError "complex")
                    end
           end
  | NaN, _ => Return NaN
  | Fin x, NaN => Return (if Req_dec_T x 1 then Fin 1 else NaN)
  | _, NaN => Return NaN
  | Fin x, PInf =>
      Return (if Req_dec_T (Rabs x) 1 then Fin 1
              else if Rlt_dec 1 (Rabs x) then PInf else Fin 0)
  | Fin x, NInf =>
      Return (if Req_dec_T (Rabs x) 1 then Fin 1
              else if Rlt_dec 1 (Rabs x) then Fin 0 else PInf)
  | _, PInf => Return PInf
  | _, NInf => Return (Fin 0)
  end.

Definition py_pow (b : xfloat) (e : num) : result xfloat :=
  y <- to_float e ;; float_pow b y.

(** [math.exp]. *)
Definition math_exp (a : num) : result xfloat :=
  x <- to_float a ;;
  match x with
  | Fin v =>
      if Rle_dec FLOAT_LIMIT (exp v) then Raise OverflowError
      else Return (Fin (exp v))
  | PInf => Return PInf
  | NInf => Return (Fin 0)
  | NaN => Return NaN
  end.

(** [math.log]; an [int] argument is not converted to [float] first. *)
Definition math_log (a : num) : result xfloat :=
  match xv a with
  | Fin v =>
      if Rlt_dec 0 v then Return (Fin (ln v))
      else Raise (ValueError "math domain error")
  | PInf => Return PInf
  | NInf => Raise (ValueError "math domain error")
  | NaN => Return NaN
  end.

(** [max(0, x)]: [x] when [x > 0], else the int 0. *)
Definition max0 (x : num) : num := if py_gt x (PyInt 0) then x else PyInt 0.

(** *** Control flow of a function body *)

Inductive flow (V A : Type) : Type :=
| Next (a : A)          (* go on with the next statement *)
| Ret (v : V)           (* [return v] *)
| Exc (e : exn).        (* an exception propagates *)

Arguments Next {V A} a.
Arguments Ret {V A} v.
Arguments Exc {V A} e.

Definition fbind {V A B : Type} (m : flow V A) (k : A -> flow V B)
    : flow V B :=
  match m with
  | Next a => k a
  | Ret v => Ret v
  | Exc e => Exc e
  end.

Definition lift {V A : Type} (m : result A) : flow V A :=
  match m with
  | Return a => Next a
  | Raise e => Exc e
  end.

Notation "x <~ m ;; k" := (fbind m (fun x => k))
  (at level 61, m at next level, right associativity).
Notation "x <! m ;; k" := (fbind (lift m) (fun x => k))
  (at level 61, m at next level, right associativity).

(** *** [future_value_with_contributions] (pages/1_Interest_Calculator.py) *)

Definition triple : Type := (num * num * num)%type.

(** [float('inf'), float('inf'), float('inf')]. *)
Definition overflow3 : triple := (PyFloat PInf, PyFloat PInf, PyFloat PInf).

(** How [compound_type] is read: continuous or not, and [n_compound]. *)
Definition compound_mode (compound_type : pyval) : result (bool * Z) :=
  match compound_type with
  | VStr s =>
      if String.eqb s "continuously" then Return (true, 1%Z)
      else Return (false, 1%Z)
  | _ =>
      match as_int compound_type with
      | Some n =>
          if (n <=? 0)%Z
          then Raise (ValueError "Compounding times per year must be positive.")
          else Return (false, n)
      | None => Return (false, 1%Z)
      end
  end.

(** [math.log(principal if principal > 0 else 1)
     + exponent * math.log(base if base > 1 else 1)]. *)
Definition log_estimate (principal : num) (base : xfloat) (exponent : num)
    : result num :=
  lp <- math_log (if py_gt principal (PyInt 0) then principal else PyInt 1) ;;
  lb <- math_log (if py_gt (PyFloat base) (PyInt 1)
                  then PyFloat base else PyInt 1) ;;
  m <- py_mul exponent (PyFloat lb) ;;
  py_add (PyFloat lp) m.

(** The heuristic overflow check of the discrete case, with its inner
    [try ... except ValueError: pass]. *)
Definition heuristic_check (principal : num) (base : xfloat) (exponent : num)
    : flow triple unit :=
  if py_gt exponent (PyInt 10000)
     && py_gt (PyFloat base) (PyFloat (Fin 1.00001)) then
    match log_estimate principal base exponent with
    | Return est => if py_gt est (PyInt 700) then Ret overflow3 else Next tt
    | Raise (ValueError _) => Next tt
    | Raise e => Exc e
    end
  else Next tt.

(** Step 1: future value of the initial principal. *)
Definition principal_future_value (principal rate time : num)
    (is_continuous : bool) (n_compound : Z) : flow triple num :=
  if py_gt principal (PyInt 0) then
    if is_continuous then
      if py_eq rate (PyInt 0) then Next principal
      else
        rt <! py_mul rate time ;;
        if py_gt rt (PyInt 700) then Ret overflow3
        else
          ex <! math_exp rt ;;
          v <! py_mul principal (PyFloat ex) ;;
          Next v
    else
      if (n_compound <=? 0)%Z then
        Exc (ValueError "Compounding frequency (n) must be positive.")
      else if py_eq rate (PyInt 0) then Next principal
      else
        q <! py_div rate (PyInt n_compound) ;;
        let base := xadd (Fin 1) q in
        exponent <! py_mul (PyInt n_compound) time ;;
        _ <~ heuristic_check principal base exponent ;;
        pw <! py_pow base exponent ;;
        v <! py_mul principal (PyFloat pw) ;;
        Next v
  else Next (PyInt 0).

(** Step 2: future value of the contributions, with the total
    contributed. *)
Definition annuity_future_value (rate time contribution_amount : num)
    (contribution_frequency : Z) (is_continuous : bool) (n_compound : Z)
    : flow triple (num * num) :=
  if py_gt contribution_amount (PyInt 0) && (0 <? contribution_frequency)%Z
     && py_gt time (PyInt 0) then
    cf <! py_mul contribution_amount (PyInt contribution_frequency) ;;
    total_contributions <! py_mul cf time ;;
    if is_continuous then
      annual_contribution <!
        py_mul contribution_amount (PyInt contribution_frequency) ;;
      if py_eq rate (PyInt 0) then
        annuity_fv <! py_mul annual_contribution time ;;
        Next (annuity_fv, total_contributions)
      else
        rt <! py_mul rate time ;;
        if py_gt rt (PyInt 700) then Ret overflow3
        else
          ex <! math_exp rt ;;
          d <! py_sub (PyFloat ex) (PyInt 1) ;;
          m <! py_mul annual_contribution d ;;
          annuity_fv <! py_div m rate ;;
          Next (PyFloat annuity_fv, total_contributions)
    else
      num_total_periods <! py_mul (PyInt n_compound) time ;;
      periodic_rate <! py_div rate (PyInt n_compound) ;;
      if py_eq (PyFloat periodic_rate) (PyInt 0) then
        annuity_fv <! py_mul contribution_amount num_total_periods ;;
        Next (annuity_fv, total_contributions)
      else
        pw <! py_pow (xadd (Fin 1) periodic_rate) num_total_periods ;;
        fv_factor <! xdiv (xsub pw (Fin 1)) periodic_rate ;;
        annuity_fv <! py_mul contribution_amount (PyFloat fv_factor) ;;
        if py_eq annuity_fv (PyFloat PInf)
           || py_eq (PyFloat fv_factor) (PyFloat PInf)
        then Ret overflow3
        else Next (annuity_fv, total_contributions)
  else Next (PyInt 0, PyInt 0).

(** The body of the [try] block. *)
Definition future_value_body (principal rate time contribution_amount : num)
    (contribution_frequency : Z) (is_continuous : bool) (n_compound : Z)
    : flow triple triple :=
  principal_fv <~
    principal_future_value principal rate time is_continuous n_compound ;;
  af <~ annuity_future_value rate time contribution_amount
          contribution_frequency is_continuous n_compound ;;
  let '(annuity_fv, total_contributions) := af in
  final_amount <! py_add principal_fv annuity_fv ;;
  d <! py_sub final_amount principal ;;
  d' <! py_sub d total_contributions ;;
  let total_interest := max0 d' in
  if py_eq final_amount (PyFloat PInf) then Ret overflow3
  else Ret (final_amount, total_interest, total_contributions).

(** The [except] clauses of the [try] block. *)
Definition future_value_handlers (m : flow triple triple) : result triple :=
  match m with
  | Next v | Ret v => Return v
  | Exc OverflowError => Return overflow3
  | Exc (ValueError msg) => Raise (ValueError msg)
  | Exc (TypeError msg) => Raise (TypeError msg)
  | Exc _ =>
      Raise (Exception "An unexpected error occurred during calculation")
  end.

Definition future_value_with_contributions
    (principal rate time compound_type contribution_amount
     contribution_frequency : pyval) : result triple :=
  match as_number principal, as_number rate, as_number time,
        as_number contribution_amount with
  | Some principal, Some rate, Some time, Some contribution_amount =>
      match as_int contribution_frequency with
      | None => Raise (TypeError "Contribution frequency must be an integer.")
      | Some contribution_frequency =>
          if py_lt principal (PyInt 0) then
            Raise (ValueError "Principal cannot be negative.")
          else if py_lt rate (PyInt 0) then
            Raise (ValueError "Interest rate cannot be negative.")
          else if py_lt time (PyInt 0) then
            Raise (ValueError "Time cannot be negative.")
          else if py_lt contribution_amount (PyInt 0) then
            Raise (ValueError "Contribution amount cannot be negative.")
          else if (contribution_frequency <? 0)%Z then
            Raise (ValueError "Contribution frequency cannot be negative.")
          else
            mode <- compound_mode compound_type ;;
            let '(is_continuous, n_compound) := mode in
            future_value_handlers
              (future_value_body principal rate time contribution_amount
                 contribution_frequency is_continuous n_compound)
      end
  | _, _, _, _ =>
      Raise
        (TypeError
           "Principal, rate, time, and contribution amount must be numbers.")
  end.

(** *** [compound_interest] (Old/Advanced Interest Calc) *)

Definition pair : Type := (num * num)%type.

Definition overflow2 : pair := (PyFloat PInf, PyFloat PInf).

(** [None] stands for continuous compounding, [Some n] for [n] times a
    year. *)
Definition compound_times (compound_type num_times : pyval)
    : result (option Z) :=
  let from_num_times :=
    match as_int num_times with
    | Some m =>
        if (m <=? 0)%Z
        then Raise (ValueError
                      "Number of times compounded must be a positive integer.")
        else Return (Some m)
    | None =>
        Raise (ValueError
                 "Number of times compounded must be a positive integer.")
    end in
  match compound_type with
  | VStr s =>
      if String.eqb s "continuously" then Return None
      else if String.eqb s "annually" then Return (Some 1%Z)
      else from_num_times
  | _ =>
      match as_int compound_type with
      | Some n =>
          if (n <=? 0)%Z
          then Raise (ValueError "Number of times compounded must be positive.")
          else Return (Some n)
      | None => from_num_times
      end
  end.

Definition compound_interest_body (principal rate time : num)
    (times : option Z) : flow pair pair :=
  final_amount <~
    match times with
    | None =>
        if py_eq rate (PyInt 0) then Next principal
        else
          rt <! py_mul rate time ;;
          if py_gt rt (PyInt 700) then Ret overflow2
          else
            ex <! math_exp rt ;;
            v <! py_mul principal (PyFloat ex) ;;
            Next v
    | Some actual_num_times =>
        q <! py_div rate (PyInt actual_num_times) ;;
        let base := xadd (Fin 1) q in
        exponent <! py_mul (PyInt actual_num_times) time ;;
        lb <! math_log (if py_gt (PyFloat base) (PyInt 0)
                        then PyFloat base else PyInt 1) ;;
        est <! py_mul exponent (PyFloat lb) ;;
        if py_gt est (PyInt 700) then Ret overflow2
        else
          pw <! py_pow base exponent ;;
          v <! py_mul principal (PyFloat pw) ;;
          Next v
    end ;;
  d <! py_sub final_amount principal ;;
  Ret (final_amount, max0 d).

Definition compound_interest_handlers (m : flow pair pair) : result pair :=
  match m with
  | Next v | Ret v => Return v
  | Exc OverflowError => Return overflow2
  | Exc (ValueError msg) =>
      Raise (ValueError (String.append "Calculation error: " msg))
  | Exc _ =>
      Raise (Exception "An unexpected error occurred during calculation")
  end.

Definition compound_interest
    (principal rate time compound_type num_times : pyval) : result pair :=
  match as_number principal, as_number rate, as_number time with
  | Some principal, Some rate, Some time =>
      if py_lt principal (PyInt 0) then
        Raise (ValueError "Principal cannot be negative.")
      else if py_lt rate (PyInt 0) then
        Raise (ValueError "Interest rate cannot be negative.")
      else if py_lt time (PyInt 0) then
        Raise (ValueError "Time cannot be negative.")
      else
        times <- compound_times compound_type num_times ;;
        compound_interest_handlers
          (compound_interest_body principal rate time times)
  | _, _, _ => Raise (TypeError "Principal, rate, and time must be numbers.")
  end.

End Growth.

(** ** The pages

    The display logic of the three page scripts: the block each runs
    when its form is submitted.  A page is modelled by the list of the
    elements it puts on the screen, in order.  The numbers of an element
    are kept as they are before its format string rounds them for display;
    layout calls ([st.columns]) and the drawing of a chart are not
    modelled. *)

Module Page.

Import Growth.

Section Script.

Context {element : Type}.

(** A script: what it has shown so far and how it goes on.  [None]
    only arises from the loop of [calculate_amortization] when its fuel
    runs out. *)
Definition script (A : Type) : Type := option (list element * result A).

Definition done {A : Type} (a : A) : script A := Some ([], Return a).

Definition show (e : element) : script unit := Some ([e], Return tt).

Definition run {A : Type} (m : result A) : script A := Some ([], m).

Definition call {A : Type} (m : option (result A)) : script A :=
  match m with
  | Some r => Some ([], r)
  | None => None
  end.

Definition sbind {A B : Type} (m : script A) (k : A -> script B) : script B :=
  match m with
  | None => None
  | Some (out, Raise e) => Some (out, Raise e)
  | Some (out, Return a) =>
      match k a with
      | None => None
      | Some (out', r) => Some (out ++ out', r)
      end
  end.

(** [try: m except ...: handler]: what was shown stays on the screen,
    the handler shows its elements and the script goes on. *)
Definition catch (m : script unit) (handler : exn -> list element)
    : script unit :=
  match m with
  | Some (out, Raise e) => Some (out ++ handler e, Return tt)
  | _ => m
  end.

End Script.

Arguments script element A : clear implicits.

Notation "x <@ m ;; k" := (sbind m (fun x => k))
  (at level 61, m at next level, right associativity).
Notation "m ;;; k" := (sbind m (fun _ => k))
  (at level 61, right associativity).

(** [d[key]] on a dictionary. *)
Fixpoint lookup {V : Type} (key : string) (d : list (string * V))
    : result V :=
  match d with
  | [] => Raise (KeyError key)
  | (k, v) :: d' => if String.eqb k key then Return v else lookup key d'
  end.

(** An operand of [*], [/] or [>] beside a number: anything else is a
    [TypeError]. *)
Definition number (v : pyval) : result num :=
  match as_number v with
  | Some a => Return a
  | None => Raise (TypeError "unsupported operand type(s)")
  end.

(** A number passed on as an argument. *)
Definition of_num (a : num) : pyval :=
  match a with
  | PyInt z => VInt z
  | PyFloat x => VFloat x
  end.

End Page.

(** *** The loan page (pages/2_Loan_Calculator.py) *)

Module LoanPage.

Import Loan Page.

Inductive element : Type :=
| Subheader (text : string)
| Subheader_extra (extra_payment : R)
    (* "Loan Summary (With $... Extra Payment)" *)
| Metric (label : string) (value : R)
| Metric_delta (label : string) (value delta : R)
| Metric_payoff (label : string) (payments years : R)
    (* "{payments} payments (~{years} yrs)" *)
| Caption_paid_off (payments years : R)
    (* "Loan paid off in {payments} payments over approx. {years} years." *)
| Caption_sooner (payments_saved years_saved : R)
    (* "({payments_saved} payments / ~{years_saved} years sooner)" *)
| Rule                                            (* st.write("---") *)
| Warning (text : string)
| Notice (text : string)                         (* st.info *)
| Expander (title : string) (rows : list row)     (* the schedule table *)
| Error (text : string) (e : exn).                (* st.error(f"...{e}") *)

(** [payment_freq_options]. *)
Definition payment_freq_options : list (string * R) :=
  [("Monthly", 12); ("Bi-Weekly", 26); ("Weekly", 52);
   ("Quarterly", 4); ("Semi-Annually", 2); ("Annually", 1)]%string.

(** Unpacking the returned tuple into five names.  The tuples of five
    that [calculate_amortization] builds hold a frame and four numbers;
    another tuple of five stands for the fault of its first use. *)
Definition unpack5 (t : list pyobj) : result (list row * R * R * R * R) :=
  match t with
  | [DataFrame rows; Num a; Num b; Num c; Num d] => Return (rows, a, b, c, d)
  | [_; _; _; _; _] => Raise (Exception "object has no such attribute")
  | _ =>
      if (5 <? length t)%nat
      then Raise (ValueError "too many values to unpack (expected 5)")
      else Raise (ValueError "not enough values to unpack (expected 5)")
  end.

(** [x / y] on floats. *)
Definition divide (x y : R) : result R :=
  if Req_dec_T y 0 then Raise ZeroDivisionError else Return (x / y).

(** [df.empty]. *)
Definition empty (rows : list row) : bool :=
  match rows with
  | [] => true
  | _ => false
  end.

(** The [except] clauses of the page. *)
Definition handler (e : exn) : list element :=
  match e with
  | ValueError _ | TypeError _ =>
      [Error "Input Error or Calculation Problem: " e]
  | _ => [Error "An unexpected error occurred: " e]
  end.

(** The block under [if loan_submitted:], with [payments_per_year] as
    looked up in [payment_freq_options].  The test
    [base_payment is not None] holds of every number and is left out. *)
Definition loan_page
    (loan_principal loan_rate_percent loan_years : R)
    (selected_freq_text : string) (payments_per_year extra_payment : R)
    : script element unit :=
  let loan_rate_decimal := loan_rate_percent / 100 in
  catch
    (base <@ call (calculate_amortization loan_principal loan_rate_decimal
                     loan_years payments_per_year 0) ;;
     b <@ run (unpack5 base) ;;
     let '(base_schedule_df, base_payment, base_total_paid,
           base_total_interest, base_num_payments) := b in
     show (Subheader "Loan Summary (Standard Payments)") ;;;
     (if negb (empty base_schedule_df) then
        show (Metric (selected_freq_text ++ " Payment") base_payment) ;;;
        show (Metric "Total Interest Paid" base_total_interest) ;;;
        show (Metric "Total Paid" base_total_paid) ;;;
        years <@ run (divide base_num_payments payments_per_year) ;;
        show (Caption_paid_off base_num_payments years)
      else
        show (Warning
                "Could not calculate standard payment details. Check inputs."))
     ;;;
     chosen <@
       (if Rlt_dec 0 extra_payment then
          show Rule ;;;
          show (Subheader_extra extra_payment) ;;;
          extra <@ call (calculate_amortization loan_principal
                           loan_rate_decimal loan_years payments_per_year
                           extra_payment) ;;
          x <@ run (unpack5 extra) ;;
          let '(extra_schedule_df, _, extra_total_paid,
                extra_total_interest, extra_num_payments) := x in
          if negb (empty extra_schedule_df) then
            let payments_saved := base_num_payments - extra_num_payments in
            years_saved <@ run (divide payments_saved payments_per_year) ;;
            let interest_saved :=
              base_total_interest - extra_total_interest in
            years <@ run (divide extra_num_payments payments_per_year) ;;
            show (Metric_payoff "New Payoff Time" extra_num_payments years) ;;;
            show (Caption_sooner payments_saved years_saved) ;;;
            show (Metric "Total Interest Paid" extra_total_interest) ;;;
            show (Metric_delta "Interest Saved" interest_saved
                    interest_saved) ;;;
            done (extra_schedule_df,
                  "Amortization Schedule (With Extra Payments)"%string)
          else
            show (Warning
                    "Could not calculate details with extra payments.") ;;;
            done (base_schedule_df,
                  "Amortization Schedule (Standard Payments)"%string)
        else
          done (base_schedule_df,
                "Amortization Schedule (Standard Payments)"%string)) ;;
     let '(schedule_to_display, schedule_title) := chosen in
     show Rule ;;;
     if negb (empty schedule_to_display) then
       show (Expander ("View " ++ schedule_title) schedule_to_display)
     else
       show (Notice "Amortization schedule could not be generated."))
    handler.

End LoanPage.

(** *** The interest page (pages/1_Interest_Calculator.py) *)

Module InterestPage.

Import Growth Page.

Local Open Scope bool_scope.

Inductive element : Type :=
| Notice_monthly_assumed
    (* "Contributions assumed to be spread evenly based on a Monthly
        frequency for continuous compounding calculation." *)
| Notice_frequency_differs
    (annual_contribution_total contribution_per_compound_period : num)
| Error_message (text : string)
| Subheader (text : string)
| Warning (text : string)
| Metric (label : string) (value : num)
| Rule                                            (* st.write("---") *)
| Pie_chart (labels : list string) (values : list num) (total : num)
| Error (text : string) (e : exn)                 (* st.error(f"...{e}") *)
| Traceback (e : exn).                            (* st.exception(e) *)

Definition compound_options : list (string * pyval) :=
  [("Annually (1/year)", VInt 1); ("Semi-Annually (2/year)", VInt 2);
   ("Quarterly (4/year)", VInt 4); ("Monthly (12/year)", VInt 12);
   ("Bi-Weekly (26/year)", VInt 26); ("Weekly (52/year)", VInt 52);
   ("Daily (365/year)", VInt 365);
   ("Continuously", VStr "continuously")]%string.

Definition contrib_freq_options : list (string * pyval) :=
  [("Matches Compounding", VStr "match");
   ("Monthly", VInt 12); ("Quarterly", VInt 4); ("Semi-Annually", VInt 2);
   ("Annually", VInt 1); ("Bi-Weekly", VInt 26); ("Weekly", VInt 52)]%string.

(** [v == "continuously"]. *)
Definition is_continuously (v : pyval) : bool :=
  match v with
  | VStr s => String.eqb s "continuously"
  | _ => false
  end.

(** The [except] clauses of the page. *)
Definition handler (e : exn) : list element :=
  match e with
  | ValueError _ | TypeError _ => [Error "Input Error: " e]
  | _ => [Error "An unexpected error occurred: " e; Traceback e]
  end.

(** The pie chart of the breakdown. *)
Definition breakdown (principal total_contributions total_interest
                      final_amount : num) : script element unit :=
  if py_gt final_amount (PyInt 0)
     && negb (py_eq final_amount (PyFloat PInf)) then
    let labels :=
      ["Initial Principal"; "Total Contributions"; "Interest Earned"]%string in
    let values := [principal; total_contributions; total_interest] in
    let non_zero_labels :=
      map fst (filter (fun lv => py_gt (snd lv) (PyFloat (Fin 0.005)))
                 (combine labels values)) in
    let non_zero_values :=
      filter (fun v => py_gt v (PyFloat (Fin 0.005))) values in
    match non_zero_values with
    | [] => done tt
    | _ => show (Pie_chart non_zero_labels non_zero_values final_amount)
    end
  else done tt.

(** The block under [if submitted:]; the four amounts are the floats of
    the number inputs.  The text of the overflow warning is given
    without its leading pictograph. *)
Definition interest_page
    (principal rate_percent time contribution_amount : R)
    (selected_compound_option selected_contrib_freq_text : string)
    : script element unit :=
  let principal := PyFloat (Fin principal) in
  let time := PyFloat (Fin time) in
  let contribution_amount := PyFloat (Fin contribution_amount) in
  compound_input <@ run (lookup selected_compound_option compound_options) ;;
  rate_decimal <@
    run (py_div (PyFloat (Fin rate_percent)) (PyFloat (Fin 100))) ;;
  contribution_frequency <@
    (if String.eqb selected_contrib_freq_text "Matches Compounding" then
       if is_continuously compound_input then
         show Notice_monthly_assumed ;;; done (VInt 12)
       else done compound_input
     else run (lookup selected_contrib_freq_text contrib_freq_options)) ;;
  contribution_per_compound_period <@
    (if negb (is_continuously compound_input)
        && py_gt contribution_amount (PyInt 0) then
       f <@ run (number contribution_frequency) ;;
       annual_contribution_total <@ run (py_mul contribution_amount f) ;;
       n_compound <@ run (number compound_input) ;;
       if py_gt n_compound (PyInt 0) then
         per <@ run (py_div annual_contribution_total n_compound) ;;
         (if negb (String.eqb selected_contrib_freq_text
                     "Matches Compounding")
          then show (Notice_frequency_differs annual_contribution_total
                       (PyFloat per))
          else done tt) ;;;
         done (PyFloat per)
       else
         show (Error_message
                 "Compounding frequency must be positive for discrete calculation.")
         ;;; done (PyInt 0)
     else if is_continuously compound_input then done contribution_amount
     else done (PyInt 0)) ;;
  catch
    (results <@
       (if negb (is_continuously compound_input) then
          r <@ run (future_value_with_contributions (of_num principal)
                      (VFloat rate_decimal) (of_num time) compound_input
                      (of_num contribution_per_compound_period)
                      compound_input) ;;
          let '(final_amount, total_interest, total_contributions) := r in
          f <@ run (number contribution_frequency) ;;
          cf <@ run (py_mul contribution_amount f) ;;
          actual_total_contributions <@ run (py_mul cf time) ;;
          d <@ run (py_sub final_amount principal) ;;
          d' <@ run (py_sub d actual_total_contributions) ;;
          let total_interest := max0 d' in
          done (final_amount, total_interest, total_contributions)
        else
          run (future_value_with_contributions (of_num principal)
                 (VFloat rate_decimal) (of_num time) (VStr "continuously")
                 (of_num contribution_amount) contribution_frequency)) ;;
     let '(final_amount, total_interest, total_contributions) := results in
     show (Subheader "Results") ;;;
     if py_eq final_amount (PyFloat PInf) then
       show (Warning
               "The resulting amount is extremely large (overflow). Check inputs, especially time and rate.")
     else
       total_principal_and_contributions <@
         run (py_add principal total_contributions) ;;
       show (Metric "Future Value" final_amount) ;;;
       show (Metric "Total Principal & Contributions"
               total_principal_and_contributions) ;;;
       show (Metric "Total Interest Earned" total_interest) ;;;
       show Rule ;;;
       breakdown principal total_contributions total_interest final_amount)
    handler.

End InterestPage.

(** *** The earlier interest page (Old/Advanced Interest Calc) *)

Module OldInterestPage.

Import Growth Page.

Local Open Scope bool_scope.

Inductive element : Type :=
| Subheader (text : string)
| Warning (text : string)
| Metric (label : string) (value : num)
| Rule                                            (* st.write("---") *)
| Pie_chart (labels : list string) (values : list num) (total : num)
| Error (text : string) (e : exn).                (* st.error(f"...{e}") *)

Definition compound_options : list (string * pyval) :=
  [("Annually (1/year)", VInt 1); ("Semi-Annually (2/year)", VInt 2);
   ("Quarterly (4/year)", VInt 4); ("Monthly (12/year)", VInt 12);
   ("Bi-Weekly (26/year)", VInt 26); ("Weekly (52/year)", VInt 52);
   ("Daily (365/year)", VInt 365);
   ("Continuously", VStr "continuously")]%string.

(** The [except] clauses of the page. *)
Definition handler (e : exn) : list element :=
  match e with
  | ValueError _ | TypeError _ => [Error "Input Error: " e]
  | _ => [Error "An unexpected error occurred: " e]
  end.

(** The block under [if submitted:].  The continuous call leaves
    [num_times] at its default 1. *)
Definition interest_page (principal rate_percent time : R)
    (selected_compound_option : string) : script element unit :=
  let principal := PyFloat (Fin principal) in
  let time := PyFloat (Fin time) in
  compound_input <@ run (lookup selected_compound_option compound_options) ;;
  rate_decimal <@
    run (py_div (PyFloat (Fin rate_percent)) (PyFloat (Fin 100))) ;;
  catch
    (results <@
       (match as_int compound_input with
        | Some _ =>
            let num_times := compound_input in
            run (compound_interest (of_num principal) (VFloat rate_decimal)
                   (of_num time) num_times num_times)
        | None =>
            run (compound_interest (of_num principal) (VFloat rate_decimal)
                   (of_num time) (VStr "continuously") (VInt 1))
        end) ;;
     let '(final_amount, total_interest) := results in
     show (Subheader "Results") ;;;
     if py_eq final_amount (PyFloat PInf) then
       show (Warning
               "The resulting amount is too large to calculate accurately (overflow).")
     else
       show (Metric "Final Amount" final_amount) ;;;
       show (Metric "Total Interest Earned" total_interest) ;;;
       show Rule ;;;
       (if py_gt principal (PyInt 0) || py_gt total_interest (PyInt 0) then
          show (Pie_chart ["Principal"; "Interest Earned"]%string
                  [principal; total_interest] final_amount)
        else done tt) ;;;
       show Rule)
    handler.

End OldInterestPage.

(** * Vocabulary of the properties *)

Import Loan.

(** The payment the specification prescribes for the loan payment
    engine, following its wording. *)
Definition computeLoanPayment_spec
    (principal annualRate years paymentsPerYear : R) : R :=
  if Rle_dec principal 0 then 0
  else if Req_dec_T annualRate 0 then principal / (years * paymentsPerYear)
  else
    let periodicRate := annualRate / paymentsPerYear in
    let numPayments := years * paymentsPerYear in
    principal * periodicRate / (1 - Rpower (1 + periodicRate) (- numPayments)).

(** The ledger chains from balance [b]: the first row starts at [b] and
    every later row starts where the previous one ended. *)
Fixpoint chained (b : R) (rows : list row) : Prop :=
  match rows with
  | [] => True
  | r :: rs => starting_balance r = b /\ chained (ending_balance r) rs
  end.

(** Ending balance of the last row ([b] for an empty ledger). *)
Definition final_balance (b : R) (rows : list row) : R :=
  fold_left (fun _ r => ending_balance r) rows b.

Definition sum_principal (rows : list row) : R :=
  fold_left Rplus (map principal_paid rows) 0.

(** The ending balance strictly decreases from each row to the next. *)
Fixpoint ending_decreasing (rows : list row) : Prop :=
  match rows with
  | r1 :: (r2 :: _) as rs =>
      ending_balance r2 < ending_balance r1 /\ ending_decreasing rs
  | _ => True
  end.

Definition row_nonneg (r : row) : Prop :=
  0 <= starting_balance r /\ 0 <= payment r /\ 0 <= principal_paid r /\
  0 <= interest_paid r /\ 0 <= ending_balance r.

Definition row_balanced (r : row) : Prop :=
  payment r = principal_paid r + interest_paid r.

(** Valid loan inputs with a positive principal. *)
Definition valid_loan
    (principal annual_rate years payments_per_year extra_payment : R) : Prop :=
  0 < principal /\ 0 <= annual_rate /\ 0 < years /\
  0 < payments_per_year /\ 0 <= extra_payment.

(** Value of [k] payments of 1, each compounding by the factor [x] per
    period: [x^(k-1) + ... + x + 1]. *)
Fixpoint annuity_sum (x : R) (k : nat) : R :=
  match k with
  | O => 0
  | S k' => x * annuity_sum x k' + 1
  end.

(** What holds of the loop state at the head of the loop, for every
    input: the ledger written so far, from the initial balance [P0]. *)
Record ledger (P0 cap : R) (st : loop_state) : Prop := mkLedger {
  led_chain : chained P0 (schedule st);
  led_final : final_balance P0 (schedule st) = current_balance st;
  led_balanced : Forall row_balanced (schedule st);
  led_length : length (schedule st) = payment_num st;
  led_open : Forall (fun r => 0.01 < ending_balance r) (schedule st);
  led_count : payment_num st = 0%nat \/ INR (payment_num st) < cap + 1;
  led_sum : sum_principal (schedule st) = P0 - current_balance st;
  led_rows : Forall (fun r => ending_balance r
                              = starting_balance r - principal_paid r)
               (schedule st)
}.

(** What holds of the state the loop ends in. *)
Record ledger_closed (P0 cap : R) (st : loop_state) : Prop := mkLedgerClosed {
  ledc_chain : chained P0 (schedule st);
  ledc_final : final_balance P0 (schedule st) = current_balance st;
  ledc_balanced : Forall row_balanced (schedule st);
  ledc_length : length (schedule st) = payment_num st;
  ledc_open : Forall (fun r => 0.01 < ending_balance r)
                (removelast (schedule st));
  ledc_count : payment_num st = 0%nat \/ INR (payment_num st) < cap + 1;
  ledc_sum : sum_principal (schedule st) = P0 - current_balance st;
  ledc_rows : Forall (fun r => ending_balance r
                               = starting_balance r - principal_paid r)
                (schedule st);
  ledc_exit : current_balance st <= 0.01 \/ cap <= INR (payment_num st)
}.

(** What holds in addition at the head of the loop when the payment
    covers more than the interest on the initial balance [P]. *)
Record sound (P rp extra r : R) (st : loop_state) : Prop := mkSound {
  snd_range : 0 <= current_balance st <= P;
  snd_bound : current_balance st
              <= P * (1 + r) ^ payment_num st
                 - rp * annuity_sum (1 + r) (payment_num st);
  snd_payment : total_payment st = rp + extra;
  snd_rows : Forall (fun row => row_nonneg row /\ 0 < principal_paid row)
               (schedule st)
}.

Record sound_closed (P : R) (st : loop_state) : Prop := mkSoundClosed {
  sndc_range : 0 <= current_balance st <= 0.01;
  sndc_rows : Forall (fun row => row_nonneg row /\ 0 < principal_paid row)
                (schedule st)
}.

Import Growth.

(** A finite float argument. *)
Definition float (x : R) : pyval := VFloat (Fin x).

(** [computeGrowth(principal, rate, time, compounding)]: the growth
    function called without contributions, the two contribution
    parameters at their defaults [0]. *)
Definition computeGrowth (principal rate time compounding : pyval)
    : result triple :=
  future_value_with_contributions principal rate time compounding
    (VInt 0) (VInt 0).

(** The natural log of the discrete result, as the specification
    estimates it: [log(principal) + exponent * log(base)]. *)
Definition estimated_log (principal rate time : R) (n : Z) : R :=
  ln principal + IZR n * time * ln (1 + rate / IZR n).

(** The exact final amounts of the specification:
    [principal * (1 + rate/n)^(n*time)] and [principal * e^(rate*time)]. *)
Definition discrete_growth (principal rate time : R) (n : Z) : R :=
  principal * Rpower (1 + rate / IZR n) (IZR n * time).

Definition continuous_growth (principal rate time : R) : R :=
  principal * exp (rate * time).

(** A float computed from positive operands: the exact value, or plus
    infinity after an overflow. *)
Definition exact_or_inf (v : R) (x : xfloat) : Prop :=
  x = PInf \/ x = Fin v.

(** The function stopped on the overflow path: it returned the sentinel
    or raised the [OverflowError] that its handler turns into it. *)
Definition overflowed {V A : Type} (sentinel : V) (m : flow V A) : Prop :=
  m = Ret sentinel \/ m = Exc OverflowError.

(** A step that either raises [OverflowError] or yields a value
    satisfying [Q]. *)
Definition res_ok {A : Type} (m : result A) (Q : A -> Prop) : Prop :=
  m = Raise OverflowError \/ exists a, m = Return a /\ Q a.

(** A statement sequence that either stops on the overflow path or goes
    on with a value satisfying [Q]. *)
Definition step_ok {V A : Type} (s : V) (m : flow V A) (Q : A -> Prop)
    : Prop :=
  overflowed s m \/ exists a, m = Next a /\ Q a.

(** The int 0 or a float: the numbers the growth functions compute
    with on float arguments. *)
Definition plain (v : num) : Prop := v = PyInt 0 \/ exists x, v = PyFloat x.

(** What step 1 and step 2 establish on valid arguments: the principal
    term has the exact value [w]; the total contributed has the exact
    value [T], and the annuity term [wa] covers it under the condition
    [extra]. *)
Definition principal_post (w : R) (v : num) : Prop :=
  plain v /\ exact_or_inf w (xv v).

Definition annuity_post (T : R) (extra : Prop) (af : num * num) : Prop :=
  plain (fst af) /\ plain (snd af) /\ exact_or_inf T (xv (snd af)) /\
  exists wa, exact_or_inf wa (xv (fst af)) /\ 0 <= wa /\ (extra -> T <= wa).

(** A result whose final amount is finite is at least the principal,
    and under [extra] at least the principal plus the finite total
    contributed. *)
Definition growth_post (P : R) (extra : Prop) (res : triple) : Prop :=
  let '(final_amount, _, total_contributions) := res in
  forall a, xv final_amount = Fin a ->
    P <= a /\
    (extra -> forall c, xv total_contributions = Fin c -> P + c <= a).

(** Tactics that run the functions on concrete inputs: every comparison
    of reals is decided by [lra]. *)
Ltac decide_R :=
  match goal with
  | |- context [Rle_dec ?a ?b] =>
      (destruct (Rle_dec a b) as [?|?]; [|exfalso; lra])
      || (destruct (Rle_dec a b) as [?|?]; [exfalso; lra|])
  | |- context [Rlt_dec ?a ?b] =>
      (destruct (Rlt_dec a b) as [?|?]; [|exfalso; lra])
      || (destruct (Rlt_dec a b) as [?|?]; [exfalso; lra|])
  | |- context [Req_dec_T ?a ?b] =>
      (destruct (Req_dec_T a b) as [?|?]; [|exfalso; lra])
      || (destruct (Req_dec_T a b) as [?|?]; [exfalso; lra|])
  end.

Ltac close_eq :=
  match goal with
  | |- @eq R _ _ => lra
  | |- @eq nat _ _ => reflexivity
  | |- @eq Z _ _ => reflexivity
  | |- _ => progress f_equal; close_eq
  end.

Ltac decide_abs :=
  match goal with
  | |- context [Rabs ?a] =>
      first [ rewrite (Rabs_pos_eq a) by lra | rewrite (Rabs_left1 a) by lra ]
  end.

Ltac gunfold :=
  unfold computeGrowth, float, future_value_with_contributions,
    future_value_body, principal_future_value, annuity_future_value,
    heuristic_check, log_estimate, compound_interest, compound_interest_body,
    compound_times, compound_mode, py_lt, py_gt, py_eq, py_le, py_add, py_sub,
    py_mul, py_div, py_pow, arith, to_float, math_exp, math_log, max0, xv,
    xlt, xeq, xsub, fround, pow_positive, inf_times.

Ltac gcbn :=
  cbn [as_number as_int bind lift fbind xdiv xadd xmul xneg float_pow andb orb
       Z.ltb Z.leb Z.eqb Z.compare Z.mul Z.add Z.sub Z.b2z Z.opp
       Pos.mul Pos.add Pos.compare Pos.compare_cont Pos.succ
       future_value_handlers compound_interest_handlers fst snd].

(** Runs a growth function on concrete arguments; [tac] rewrites the
    powers and logarithms met on the way. *)
Ltac geval_with tac :=
  repeat (first [ tac | progress gcbn | decide_abs | decide_R
                | progress gunfold ]).

(** ** Vocabulary of the further properties *)

(** *** The schedule *)

Definition sum_interest (rows : list row) : R :=
  fold_left Rplus (map interest_paid rows) 0.

Definition sum_payment (rows : list row) : R :=
  fold_left Rplus (map payment rows) 0.

(** The interest part does not grow from each row to the next. *)
Fixpoint interest_decreasing (rows : list row) : Prop :=
  match rows with
  | r1 :: (r2 :: _) as rs =>
      interest_paid r2 <= interest_paid r1 /\ interest_decreasing rs
  | _ => True
  end.

(** The principal part does not shrink from each row to the next. *)
Fixpoint principal_increasing (rows : list row) : Prop :=
  match rows with
  | r1 :: (r2 :: _) as rs =>
      principal_paid r1 <= principal_paid r2 /\ principal_increasing rs
  | _ => True
  end.

(** What the loop keeps of its books at the head of the loop, for every
    input: the interest total, the numbering of the rows, the interest of
    each row and the payment of each row. *)
Record books (rp extra r : R) (st : loop_state) : Prop := mkBooks {
  bk_interest : total_interest_paid st = sum_interest (schedule st);
  bk_numbers : map payment_no (schedule st) = seq 1 (payment_num st);
  bk_rate : Forall (fun row => interest_paid row = starting_balance row * r)
              (schedule st);
  bk_payment : total_payment st = rp + extra;
  bk_full : Forall (fun row => payment row = rp + extra) (schedule st)
}.

Record books_closed (rp extra r : R) (st : loop_state) : Prop :=
  mkBooksClosed {
  bkc_interest : total_interest_paid st = sum_interest (schedule st);
  bkc_numbers : map payment_no (schedule st) = seq 1 (payment_num st);
  bkc_rate : Forall (fun row => interest_paid row = starting_balance row * r)
               (schedule st);
  bkc_full : Forall (fun row => payment row = rp + extra)
               (removelast (schedule st));
  bkc_last : Forall (fun row => payment row <= rp + extra) (schedule st)
}.

(** No payment made yet, or fewer than [n + 1] of them. *)
Definition within_term (n : R) (st : loop_state) : Prop :=
  payment_num st = 0%nat \/ INR (payment_num st) < n + 1.

(** The balance after [k] regular payments:
    [P x^k - rp (x^(k-1) + ... + 1)] with [x = 1 + r]. *)
Definition scheduled_balance (P rp r : R) (k : nat) : R :=
  P * (1 + r) ^ k - rp * annuity_sum (1 + r) k.

(** At the head of the loop of a standard schedule of [n] payments:
    fewer than [n] payments made, the balance as scheduled. *)
Definition on_schedule (P rp r : R) (n : nat) (st : loop_state) : Prop :=
  (payment_num st < n)%nat /\
  current_balance st = scheduled_balance P rp r (payment_num st) /\
  total_payment st = rp + 0.

(** The loan is cleared with the [n]-th payment. *)
Definition cleared (n : nat) (st : loop_state) : Prop :=
  payment_num st = n /\ current_balance st = 0.

(** *** The growth functions *)

(** The exact future value of the contributions as the discrete branch
    computes it: one payment [c] per compounding period, over [n * t]
    periods at the periodic rate [r / n]. *)
Definition discrete_annuity (c r t : R) (n : Z) : R :=
  if Req_dec_T (r / IZR n) 0 then c * (IZR n * t)
  else c * ((Rpower (1 + r / IZR n) (IZR n * t) - 1) / (r / IZR n)).

(** The same for the continuous branch: [c * f] a year, growing
    continuously. *)
Definition continuous_annuity (c r t : R) (f : Z) : R :=
  if Req_dec_T r 0 then c * IZR f * t
  else c * IZR f * (exp (r * t) - 1) / r.

(** What step 2 establishes when its values are tracked exactly: the
    total contributed has the exact value [T] and the annuity term the
    exact value [wa]. *)
Definition annuity_exact (T wa : R) (af : num * num) : Prop :=
  plain (fst af) /\ plain (snd af) /\
  exact_or_inf T (xv (snd af)) /\ exact_or_inf wa (xv (fst af)).

(** The result is the sentinel, or its final amount is the exact value
    [w], a finite float; the total contributed is then the exact [T]
    unless it overflowed, and the interest is what exceeds principal and
    contributions. *)
Definition growth_exact (P w T : R) (res : triple) : Prop :=
  res = overflow3 \/
  let '(final_amount, total_interest, total_contributions) := res in
  xv final_amount = Fin w /\ w < FLOAT_LIMIT /\
  plain total_contributions /\
  exact_or_inf T (xv total_contributions) /\
  (xv total_contributions = Fin T ->
   xv total_interest = Fin (Rmax 0 (w - P - T))).

(** A statement sequence whose only [return] is that of the sentinel. *)
Definition only_sentinel {A : Type} (m : flow triple A) : Prop :=
  forall v, m = Ret v -> v = overflow3.

(** A body that ends in the sentinel or in a triple whose final amount
    is not plus infinity. *)
Definition whole_or_finite (m : flow triple triple) : Prop :=
  match m with
  | Next v | Ret v => v = overflow3 \/ xv (fst (fst v)) <> PInf
  | Exc _ => True
  end.

(** The result of [compound_interest] is the pair of infinities, or the
    exact final amount [w] with the interest [w - P]. *)
Definition pair_exact (P w : R) (res : pair) : Prop :=
  res = overflow2 \/
  (xv (fst res) = Fin w /\ xv (snd res) = Fin (w - P)).

(** The final amount before the interest is taken: plus infinity, or the
    exact value [w], which exceeds the principal by less than the float
    range. *)
Definition amount_exact (P w : R) (v : num) : Prop :=
  exists x, v = PyFloat x /\
    (x = PInf \/ (x = Fin w /\ P <= w /\ w - P < FLOAT_LIMIT)).

(** The exact final amount for a compounding option of the pages. *)
Definition growth_value (P r t : R) (compound_input : pyval) : R :=
  match compound_input with
  | VInt n => discrete_growth P r t n
  | _ => continuous_growth P r t
  end.

(** *** The pages *)

(** A script that ends: every element it shows satisfies [G], the
    value it yields satisfies [Q] and an exception it raises [E]. *)
Definition shows {element A : Type} (G : element -> Prop) (E : exn -> Prop)
    (Q : A -> Prop) (m : Page.script element A) : Prop :=
  exists out r, m = Some (out, r) /\ Forall G out /\
    match r with
    | Return a => Q a
    | Raise e => E e
    end.

(** An element of the loan page other than its fallback messages. *)
Definition regular (e : LoanPage.element) : Prop :=
  match e with
  | LoanPage.Warning _ | LoanPage.Notice _ => False
  | _ => True
  end.

(** An element of a loan page without faults, whose savings are not
    negative. *)
Definition sound_element (e : LoanPage.element) : Prop :=
  match e with
  | LoanPage.Warning _ | LoanPage.Notice _ | LoanPage.Error _ _ => False
  | LoanPage.Caption_sooner payments_saved years_saved =>
      0 <= payments_saved /\ 0 <= years_saved
  | LoanPage.Metric_delta _ value delta => 0 <= value /\ delta = value
  | _ => True
  end.

(** An element of an interest page without faults whose three figures
    are: the final amount [a], the principal plus the contributions [T],
    and the interest, which is what [a] exceeds them by. *)
Definition sound_view (P T a : R) (e : InterestPage.element) : Prop :=
  match e with
  | InterestPage.Error _ _ | InterestPage.Traceback _
  | InterestPage.Error_message _ => False
  | InterestPage.Metric label v =>
      (label = "Future Value"%string -> xv v = Fin a) /\
      (label = "Total Principal & Contributions"%string ->
       exact_or_inf (P + T) (xv v)) /\
      (label = "Total Interest Earned"%string ->
       xv v = Fin (Rmax 0 (a - P - T)))
  | _ => True
  end.

(** An element of the interest page other than its error messages. *)
Definition no_error (e : InterestPage.element) : Prop :=
  match e with
  | InterestPage.Error _ _ | InterestPage.Traceback _
  | InterestPage.Error_message _ => False
  | _ => True
  end.

(** An element of the earlier page without faults whose two figures
    are the final amount [a] and the interest [a - P]. *)
Definition old_view (P a : R) (e : OldInterestPage.element) : Prop :=
  match e with
  | OldInterestPage.Error _ _ => False
  | OldInterestPage.Metric label v =>
      (label = "Final Amount"%string -> xv v = Fin a) /\
      (label = "Total Interest Earned"%string -> xv v = Fin (a - P))
  | _ => True
  end.

(** * Properties *)

Lemma Rpower_gt_1 (x y : R) : 1 < x -> 0 < y -> 1 < Rpower x y.
Proof.
  intros Hx Hy. unfold Rpower.
  rewrite <- exp_0. apply exp_increasing.
  apply Rmult_lt_0_compat; [exact Hy|].
  rewrite <- ln_1. apply ln_increasing; lra.
Qed.

Lemma npf_pmt_closed_form (rate nper pv : R) :
  0 < rate -> 0 < nper ->
  - npf_pmt rate nper pv = pv * rate / (1 - Rpower (1 + rate) (- nper)).
Proof.
  intros Hr Hn. unfold npf_pmt.
  destruct (Req_dec_T rate 0) as [E|_]; [lra|].
  rewrite Rpower_Ropp.
  pose proof (Rpower_gt_1 (1 + rate) nper ltac:(lra) Hn) as HX.
  set (X := Rpower (1 + rate) nper) in *.
  field. repeat split; lra.
Qed.



(** C5: with a positive principal the payment function raises
    [ValueError] when annualRate < 0, years <= 0 or paymentsPerYear <= 0;
    with principal <= 0 it never fails and returns 0, whatever the other
    arguments are. *)
Theorem C5_loan_payment_errors
    (principal annualRate years paymentsPerYear : R) :
  (principal <= 0 ->
   calculate_loan_payment principal annualRate years paymentsPerYear = Return 0)
  /\
  (0 < principal ->
   annualRate < 0 \/ years <= 0 \/ paymentsPerYear <= 0 ->
   is_value_error
     (calculate_loan_payment principal annualRate years paymentsPerYear)).
Proof.
  unfold calculate_loan_payment. split.
  - intros HP. destruct (Rle_dec principal 0); [reflexivity|lra].
  - intros HP H. destruct (Rle_dec principal 0); [lra|].
    destruct (Rlt_dec annualRate 0); [exact I|].
    destruct (Rle_dec years 0); [exact I|].
    destruct (Rle_dec paymentsPerYear 0); [exact I|].
    lra.
Qed.

Lemma C5_loan_payment_errors_witness :
  calculate_loan_payment (-5) (-1) 0 0 = Return 0 /\
  is_value_error (calculate_loan_payment 100 (-0.01) 5 12) /\
  is_value_error (calculate_loan_payment 100 0.05 0 12) /\
  is_value_error (calculate_loan_payment 100 0.05 5 0).
Proof.
  split; [apply (proj1 (C5_loan_payment_errors (-5) (-1) 0 0)); lra|].
  split; [apply (proj2 (C5_loan_payment_errors 100 (-0.01) 5 12)); lra|].
  split; [apply (proj2 (C5_loan_payment_errors 100 0.05 0 12)); lra|].
  apply (proj2 (C5_loan_payment_errors 100 0.05 5 0)); lra.
Defined.

(** ** The amortization loop *)

Section LoopFacts.

Variables (rp extra r cap : R).

(** The body in closed form: the principal part is the smaller of the
    balance and what the payment leaves after interest, and the balance
    never becomes negative, so the repair branch is never taken. *)
Lemma loop_body_eq (st : loop_state) :
  loop_body rp extra r st =
  let B := current_balance st in
  let i := B * r in
  let pp := Rmin B (total_payment st - i) in
  let sched :=
    schedule st ++ [mkRow (S (payment_num st)) B (pp + i) pp i (B - pp)] in
  if Rle_dec (B - pp) 0.01
  then (mkState sched (B - pp) (total_interest_paid st + i)
          (S (payment_num st)) (pp + i), true)
  else (mkState sched (B - pp) (total_interest_paid st + i)
          (S (payment_num st)) (rp + extra), false).
Proof.
  destruct st as [sched B ti pn tp]. unfold loop_body, Rmin. cbn.
  destruct (Rlt_dec B (tp - B * r)) as [Hc|Hc];
    destruct (Rle_dec B (tp - B * r)) as [Hm|Hm]; try lra.
  - destruct (Rlt_dec (B - B) 0); [lra|].
    destruct (Rle_dec (B - B) 0.01); [|lra].
    replace (B - B + B) with B by lra. reflexivity.
  - assert (E : tp - B * r = B) by lra.
    destruct (Rlt_dec (B - (tp - B * r)) 0); [lra|].
    rewrite E.
    replace (B - B + B) with B by lra.
    replace tp with (B + B * r) by lra.
    destruct (Rle_dec (B - B) 0.01); reflexivity.
  - destruct (Rlt_dec (B - (tp - B * r)) 0); [lra|].
    replace (B - (tp - B * r) + (tp - B * r)) with B by lra.
    replace (tp - B * r + B * r) with tp by lra.
    destruct (Rle_dec (B - (tp - B * r)) 0.01); reflexivity.
Qed.

Lemma while_loop_inv (Inv Post : loop_state -> Prop) :
  (forall st, Inv st -> loop_test cap st = false -> Post st) ->
  (forall st, Inv st -> loop_test cap st = true ->
     let '(st', stop) := loop_body rp extra r st in
     if stop then Post st' else Inv st') ->
  forall fuel st st',
    Inv st -> while_loop rp extra r cap fuel st = Some st' -> Post st'.
Proof.
  intros Hexit Hstep fuel.
  induction fuel as [|fuel IH]; intros st st' HI Hrun; simpl in Hrun.
  - destruct (loop_test cap st) eqn:Ht; [discriminate|].
    injection Hrun as <-. auto.
  - destruct (loop_test cap st) eqn:Ht.
    + specialize (Hstep st HI Ht).
      destruct (loop_body rp extra r st) as [st1 stop].
      destruct stop.
      * injection Hrun as <-. exact Hstep.
      * exact (IH _ _ Hstep Hrun).
    + injection Hrun as <-. auto.
Qed.

Lemma loop_body_payment_num (st : loop_state) :
  payment_num (fst (loop_body rp extra r st)) = S (payment_num st).
Proof.
  rewrite loop_body_eq. cbv zeta.
  destruct (Rle_dec _ 0.01); reflexivity.
Qed.

Lemma loop_test_fuel (st : loop_state) (fuel : nat) :
  (loop_fuel cap <= payment_num st + fuel)%nat ->
  loop_test cap st = true -> exists fuel', fuel = S fuel'.
Proof.
  unfold loop_test, loop_fuel. intros Hf Ht.
  destruct (Rlt_dec 0.01 (current_balance st)); [|discriminate].
  destruct (Rlt_dec (INR (payment_num st)) cap) as [Hlt|]; [|discriminate].
  destruct (archimed cap) as [Hup _].
  assert (Hz : (Z.of_nat (payment_num st) < up cap)%Z).
  { apply lt_IZR. rewrite <- INR_IZR_INZ. lra. }
  destruct fuel as [|fuel']; [lia|]. eauto.
Qed.

(** The loop ends: the fuel derived from the cap is never used up. *)
Lemma while_loop_terminates (fuel : nat) :
  forall st, (loop_fuel cap <= payment_num st + fuel)%nat ->
  exists st', while_loop rp extra r cap fuel st = Some st'.
Proof.
  induction fuel as [|fuel IH]; intros st Hf.
  - simpl. destruct (loop_test cap st) eqn:Ht; [|eauto].
    destruct (loop_test_fuel st 0 Hf Ht) as [f' Hf']. discriminate.
  - simpl. destruct (loop_test cap st) eqn:Ht; [|eauto].
    pose proof (loop_body_payment_num st) as Hpn.
    destruct (loop_body rp extra r st) as [st1 stop]. simpl in Hpn.
    destruct stop; [eauto|]. apply IH. lia.
Qed.

(** More fuel does not change a result. *)
Lemma while_loop_fuel_mono (fuel : nat) :
  forall fuel' st st', (fuel <= fuel')%nat ->
  while_loop rp extra r cap fuel st = Some st' ->
  while_loop rp extra r cap fuel' st = Some st'.
Proof.
  induction fuel as [|fuel IH]; intros fuel' st st' Hle Hrun; simpl in Hrun.
  - destruct (loop_test cap st) eqn:Ht; [discriminate|].
    destruct fuel'; simpl; rewrite Ht; exact Hrun.
  - destruct fuel' as [|fuel']; [lia|]. simpl.
    destruct (loop_test cap st); [|exact Hrun].
    destruct (loop_body rp extra r st) as [st1 stop].
    destruct stop; [exact Hrun|]. apply IH; [lia|exact Hrun].
Qed.

End LoopFacts.

(** ** The ledger *)

Lemma chained_snoc (b : R) (rows : list row) (r : row) :
  chained b (rows ++ [r]) <->
  chained b rows /\ starting_balance r = final_balance b rows.
Proof.
  revert b. induction rows as [|r0 rows IH]; intros b; simpl.
  - unfold final_balance. simpl. tauto.
  - rewrite IH. unfold final_balance. simpl. tauto.
Qed.

Lemma final_balance_snoc (b : R) (rows : list row) (r : row) :
  final_balance b (rows ++ [r]) = ending_balance r.
Proof. unfold final_balance. rewrite fold_left_app. reflexivity. Qed.

Lemma sum_principal_snoc (rows : list row) (r : row) :
  sum_principal (rows ++ [r]) = sum_principal rows + principal_paid r.
Proof.
  unfold sum_principal. rewrite map_app, fold_left_app. reflexivity.
Qed.

Lemma Forall_snoc {A : Type} (Q : A -> Prop) (l : list A) (a : A) :
  Forall Q l -> Q a -> Forall Q (l ++ [a]).
Proof.
  intros Hl Ha. apply Forall_app. split; [exact Hl|]. constructor; auto.
Qed.

Lemma Forall_removelast {A : Type} (Q : A -> Prop) (l : list A) :
  Forall Q l -> Forall Q (removelast l).
Proof.
  induction 1 as [|a l Ha Hl IH]; simpl; [constructor|].
  destruct l; [constructor|]. constructor; assumption.
Qed.

Lemma loop_test_true (cap : R) (st : loop_state) :
  loop_test cap st = true ->
  0.01 < current_balance st /\ INR (payment_num st) < cap.
Proof.
  unfold loop_test.
  destruct (Rlt_dec 0.01 (current_balance st)); [|discriminate].
  destruct (Rlt_dec (INR (payment_num st)) cap); [|discriminate]. auto.
Qed.

Lemma loop_test_false (cap : R) (st : loop_state) :
  loop_test cap st = false ->
  current_balance st <= 0.01 \/ cap <= INR (payment_num st).
Proof.
  unfold loop_test.
  destruct (Rlt_dec 0.01 (current_balance st)); [|lra].
  destruct (Rlt_dec (INR (payment_num st)) cap); [discriminate|lra].
Qed.

Section LedgerFacts.

Variables (rp extra r cap P0 : R).

Lemma ledger_init (tp : R) : ledger P0 cap (mkState [] P0 0 0 tp).
Proof.
  constructor; simpl; auto.
  unfold sum_principal. simpl. lra.
Qed.

Lemma ledger_exit (st : loop_state) :
  ledger P0 cap st -> loop_test cap st = false -> ledger_closed P0 cap st.
Proof.
  intros [] Ht. constructor; auto.
  - apply Forall_removelast; assumption.
  - apply loop_test_false; assumption.
Qed.

Lemma ledger_step (st : loop_state) :
  ledger P0 cap st -> loop_test cap st = true ->
  let '(st', stop) := loop_body rp extra r st in
  if stop then ledger_closed P0 cap st' else ledger P0 cap st'.
Proof.
  intros [Hch Hfin Hbal Hlen Hopen Hcnt Hsum Hrows] Ht.
  apply loop_test_true in Ht. destruct Ht as [HB Hpn].
  rewrite loop_body_eq. cbv zeta.
  set (B := current_balance st) in *.
  set (pp := Rmin B (total_payment st - B * r)).
  destruct (Rle_dec (B - pp) 0.01) as [Hstop|Hgo]; constructor;
    cbn [schedule current_balance payment_num total_payment
         total_interest_paid].
  - apply chained_snoc. simpl. auto.
  - apply final_balance_snoc.
  - apply Forall_snoc; [assumption|reflexivity].
  - rewrite length_app, Hlen. simpl. lia.
  - rewrite removelast_last. assumption.
  - right. rewrite S_INR. lra.
  - rewrite sum_principal_snoc, Hsum. simpl. lra.
  - apply Forall_snoc; [assumption|reflexivity].
  - left. assumption.
  - apply chained_snoc. simpl. auto.
  - apply final_balance_snoc.
  - apply Forall_snoc; [assumption|reflexivity].
  - rewrite length_app, Hlen. simpl. lia.
  - apply Forall_snoc; [assumption|]. simpl. lra.
  - right. rewrite S_INR. lra.
  - rewrite sum_principal_snoc, Hsum. simpl. lra.
  - apply Forall_snoc; [assumption|reflexivity].
Qed.

Lemma while_loop_ledger (fuel : nat) (tp : R) (st : loop_state) :
  while_loop rp extra r cap fuel (mkState [] P0 0 0 tp) = Some st ->
  ledger_closed P0 cap st.
Proof.
  apply (while_loop_inv rp extra r cap (ledger P0 cap) (ledger_closed P0 cap)).
  - apply ledger_exit.
  - apply ledger_step.
  - apply ledger_init.
Qed.

End LedgerFacts.

(** ** The schedule function *)

Lemma calculate_amortization_total (P a y p e : R) :
  exists res, calculate_amortization P a y p e = Some res.
Proof.
  unfold calculate_amortization, calculate_amortization_fuel.
  destruct (Rle_dec P 0); [eauto|].
  destruct (calculate_loan_payment P a y p) as [rp0|err]; [|eauto].
  cbv zeta.
  match goal with
  | |- context [while_loop ?rp ?ex ?r ?cap ?f ?st] =>
      destruct (while_loop_terminates rp ex r cap f st) as [st' ->];
        [simpl; lia | eauto]
  end.
Qed.

(** Any fuel that suffices gives the result of the function. *)
Lemma calculate_amortization_fuel_stable (fuel : nat) (P a y p e : R)
    (res : result (list pyobj)) :
  calculate_amortization_fuel fuel P a y p e = Some res ->
  calculate_amortization P a y p e = Some res.
Proof.
  unfold calculate_amortization, calculate_amortization_fuel.
  destruct (Rle_dec P 0); [auto|].
  destruct (calculate_loan_payment P a y p) as [rp0|err]; [|auto].
  cbv zeta.
  match goal with
  | |- context [while_loop ?rp ?ex ?r ?cap fuel ?st] =>
      destruct (while_loop rp ex r cap fuel st) as [st1|] eqn:H1;
        [|discriminate];
      destruct (while_loop_terminates rp ex r cap (loop_fuel cap) st)
        as [st2 H2]; [simpl; lia|];
      pose proof (while_loop_fuel_mono rp ex r cap _
                    (Nat.max fuel (loop_fuel cap)) _ _
                    (Nat.le_max_l _ _) H1) as H1';
      pose proof (while_loop_fuel_mono rp ex r cap _
                    (Nat.max fuel (loop_fuel cap)) _ _
                    (Nat.le_max_r _ _) H2) as H2';
      rewrite H2
  end.
  assert (st1 = st2) by congruence. subst st2. auto.
Qed.

(** What a returned schedule of a positive principal comes from. *)
Lemma calculate_amortization_inv (P a y p e : R) (rows : list row)
    (rest : list pyobj) :
  0 < P ->
  calculate_amortization P a y p e = Some (Return (DataFrame rows :: rest)) ->
  exists rp0 rp st,
    calculate_loan_payment P a y p = Return rp0 /\
    rp = (if Req_dec_T rp0 0
          then if Rlt_dec 0 P then P / (y * p) else rp0
          else rp0) /\
    while_loop rp e (a / p) (y * p * 2) (loop_fuel (y * p * 2))
      (mkState [] P 0 0 (rp + e)) = Some st /\
    rows = schedule st /\ rows <> [] /\
    rest = [Num rp; Num (fold_left Rplus (map payment rows) 0);
            Num (total_interest_paid st); Num (INR (payment_num st))].
Proof.
  intros HP. unfold calculate_amortization, calculate_amortization_fuel.
  destruct (Rle_dec P 0); [lra|].
  destruct (calculate_loan_payment P a y p) as [rp0|err]; [|discriminate].
  cbv zeta.
  set (rp := if Req_dec_T rp0 0 then _ else _).
  destruct (while_loop _ _ _ _ _ _) as [st|] eqn:Hrun; [|discriminate].
  intros H. exists rp0, rp, st.
  unfold payment_column_sum in H.
  destruct (schedule st) as [|r0 rs] eqn:Hs; simpl in H; [discriminate|].
  injection H as <- <-.
  repeat split; auto. discriminate.
Qed.

Lemma calculate_amortization_nonpositive (P a y p e : R) :
  P <= 0 ->
  calculate_amortization P a y p e
  = Some (Return [DataFrame []; Num 0; Num 0; Num 0; Num 0; Num 0]).
Proof.
  intros HP. unfold calculate_amortization, calculate_amortization_fuel.
  destruct (Rle_dec P 0); [reflexivity|lra].
Qed.

(** The ledger facts for every returned schedule. *)
Lemma calculate_amortization_ledger (P a y p e : R) (rows : list row)
    (rest : list pyobj) :
  0 < P ->
  calculate_amortization P a y p e = Some (Return (DataFrame rows :: rest)) ->
  exists rp st,
    ledger_closed P (y * p * 2) st /\ rows = schedule st /\ rows <> [] /\
    rest = [Num rp; Num (fold_left Rplus (map payment rows) 0);
            Num (total_interest_paid st); Num (INR (payment_num st))].
Proof.
  intros HP H.
  destruct (calculate_amortization_inv P a y p e rows rest HP H)
    as (rp0 & rp & st & _ & _ & Hrun & Hrows & Hne & Hrest).
  exists rp, st.
  split; [eapply while_loop_ledger; exact Hrun | auto].
Qed.

(** ** Convergence for valid loans *)

Section Convergence.

Variables (P rp extra r cap n : R).

Hypothesis HP : 0 < P.
Hypothesis Hr : 0 <= r.
Hypothesis Hextra : 0 <= extra.
Hypothesis Hcovers : P * r < rp.
Hypothesis Hpayoff :
  forall k : nat, n <= INR k -> P * (1 + r) ^ k <= rp * annuity_sum (1 + r) k.
Hypothesis Hcap : n <= cap.

Lemma sound_init : sound P rp extra r (mkState [] P 0 0 (rp + extra)).
Proof.
  constructor; simpl; try lra; auto.
Qed.

Lemma sound_exit (st : loop_state) :
  sound P rp extra r st -> loop_test cap st = false -> sound_closed P st.
Proof.
  intros [Hrange Hbound Hpay Hrows] Ht. constructor; [|assumption].
  apply loop_test_false in Ht. destruct Ht as [Ht|Ht]; [lra|].
  assert (Hk : n <= INR (payment_num st)) by lra.
  specialize (Hpayoff _ Hk). lra.
Qed.

Lemma sound_step (st : loop_state) :
  sound P rp extra r st -> loop_test cap st = true ->
  let '(st', stop) := loop_body rp extra r st in
  if stop then sound_closed P st' else sound P rp extra r st'.
Proof.
  intros [Hrange Hbound Hpay Hrows] Ht.
  apply loop_test_true in Ht. destruct Ht as [HB Hpn].
  rewrite loop_body_eq. cbv zeta.
  set (B := current_balance st) in *.
  set (k := payment_num st) in *.
  assert (Hi : 0 <= B * r) by (apply Rmult_le_pos; lra).
  assert (Hir : B * r <= P * r) by (apply Rmult_le_compat_r; lra).
  assert (Hpp : 0 < Rmin B (total_payment st - B * r) <= B).
  { split; [apply Rmin_glb_lt; lra | apply Rmin_l]. }
  set (pp := Rmin B (total_payment st - B * r)) in *.
  assert (Hrow : row_nonneg (mkRow (S k) B (pp + B * r) pp (B * r) (B - pp))
                 /\ 0 < pp).
  { unfold row_nonneg. simpl. repeat split; lra. }
  destruct (Rle_dec (B - pp) 0.01) as [Hstop|Hgo]; constructor;
    cbn [schedule current_balance payment_num total_payment
         total_interest_paid].
  - lra.
  - apply Forall_snoc; assumption.
  - lra.
  - assert (Epp : pp = total_payment st - B * r).
    { unfold pp, Rmin in *.
      destruct (Rle_dec B (total_payment st - B * r)); lra. }
    assert (Hx : B * (1 + r)
                 <= (P * (1 + r) ^ k - rp * annuity_sum (1 + r) k) * (1 + r))
      by (apply Rmult_le_compat_r; lra).
    simpl. lra.
  - reflexivity.
  - apply Forall_snoc; assumption.
Qed.

Lemma while_loop_sound (fuel : nat) (st : loop_state) :
  while_loop rp extra r cap fuel (mkState [] P 0 0 (rp + extra)) = Some st ->
  sound_closed P st.
Proof.
  apply (while_loop_inv rp extra r cap (sound P rp extra r) (sound_closed P)).
  - apply sound_exit.
  - apply sound_step.
  - apply sound_init.
Qed.

End Convergence.

(** ** The regular payment of a valid loan *)

Lemma annuity_sum_one (k : nat) : annuity_sum 1 k = INR k.
Proof.
  induction k as [|k IH]; [reflexivity|].
  rewrite S_INR. simpl. rewrite IH. lra.
Qed.

Lemma annuity_sum_closed (x : R) (k : nat) :
  x <> 1 -> annuity_sum x k = (x ^ k - 1) / (x - 1).
Proof.
  intros Hx. induction k as [|k IH]; simpl.
  - unfold Rdiv. lra.
  - rewrite IH. field. lra.
Qed.

Lemma npf_pmt_value (rate nper pv : R) :
  0 < rate -> 0 < nper ->
  - npf_pmt rate nper pv
  = pv * rate * Rpower (1 + rate) nper / (Rpower (1 + rate) nper - 1).
Proof.
  intros Hr Hn. unfold npf_pmt.
  destruct (Req_dec_T rate 0) as [E|_]; [lra|].
  pose proof (Rpower_gt_1 (1 + rate) nper ltac:(lra) Hn) as HX.
  set (X := Rpower (1 + rate) nper) in *.
  field. split; lra.
Qed.

Lemma Rpower_le_pow (x nper : R) (k : nat) :
  1 < x -> nper <= INR k -> Rpower x nper <= x ^ k.
Proof.
  intros Hx Hk. rewrite <- Rpower_pow by lra.
  apply Rle_Rpower; lra.
Qed.

Lemma regular_payment_valid (P a y p e : R) :
  valid_loan P a y p e ->
  exists rp,
    calculate_loan_payment P a y p = Return rp /\ 0 < rp /\
    P * (a / p) < rp /\
    forall k : nat, y * p <= INR k ->
      P * (1 + a / p) ^ k <= rp * annuity_sum (1 + a / p) k.
Proof.
  intros (HP & Ha & Hy & Hp & He).
  assert (Hn : 0 < y * p) by (apply Rmult_lt_0_compat; lra).
  unfold calculate_loan_payment.
  destruct (Rle_dec P 0); [lra|].
  destruct (Rlt_dec a 0); [lra|].
  destruct (Rle_dec y 0); [lra|].
  destruct (Rle_dec p 0); [lra|].
  destruct (Req_dec_T a 0) as [E|E].
  - subst a. exists (P / (y * p)).
    assert (Hq : 0 < P / (y * p)) by (apply Rdiv_lt_0_compat; lra).
    replace (0 / p) with 0 by (unfold Rdiv; lra).
    repeat split; [assumption | lra |].
    intros k Hk. replace (1 + 0) with 1 by lra.
    rewrite pow1, annuity_sum_one.
    assert (Hk' : 1 <= INR k / (y * p)).
    { apply (Rmult_le_reg_r (y * p)); [assumption|].
      unfold Rdiv. rewrite Rmult_assoc, Rinv_l by lra. lra. }
    replace (P / (y * p) * INR k) with (P * (INR k / (y * p)))
      by (field; lra).
    nra.
  - cbv zeta.
    assert (Hr : 0 < a / p) by (apply Rdiv_lt_0_compat; lra).
    set (r := a / p) in *. set (nper := y * p) in *.
    exists (- npf_pmt r nper P).
    rewrite npf_pmt_value by assumption.
    pose proof (Rpower_gt_1 (1 + r) nper ltac:(lra) Hn) as HX.
    set (X := Rpower (1 + r) nper) in *.
    assert (HXq : 1 < X / (X - 1)).
    { apply (Rmult_lt_reg_r (X - 1)); [lra|].
      unfold Rdiv. rewrite Rmult_assoc, Rinv_l by lra. lra. }
    assert (HPr : 0 < P * r) by (apply Rmult_lt_0_compat; lra).
    assert (Erp : P * r * X / (X - 1) = P * r * (X / (X - 1)))
      by (field; lra).
    repeat split.
    + rewrite Erp. apply Rmult_lt_0_compat; lra.
    + rewrite Erp. nra.
    + intros k Hk.
      pose proof (Rpower_le_pow (1 + r) nper k ltac:(lra) Hk) as HY.
      fold X in HY. set (Y := (1 + r) ^ k) in *.
      rewrite annuity_sum_closed by lra. fold Y.
      replace (P * r * X / (X - 1) * ((Y - 1) / (1 + r - 1)))
        with (P * Y + P * ((Y - X) / (X - 1))) by (field; lra).
      assert (0 <= (Y - X) / (X - 1)).
      { apply Rmult_le_pos; [lra|]. left. apply Rinv_0_lt_compat. lra. }
      nra.
Qed.

Lemma while_loop_count (rp extra r cap : R) (fuel : nat) :
  forall st st',
    while_loop rp extra r cap fuel st = Some st' ->
    (payment_num st <= payment_num st')%nat /\
    (loop_test cap st = true -> (payment_num st < payment_num st')%nat).
Proof.
  induction fuel as [|fuel IH]; intros st st' Hrun; simpl in Hrun.
  - destruct (loop_test cap st); [discriminate|].
    injection Hrun as <-. split; [lia|discriminate].
  - destruct (loop_test cap st).
    + pose proof (loop_body_payment_num rp extra r st) as Hpn.
      destruct (loop_body rp extra r st) as [st1 stop]. simpl in Hpn.
      destruct stop.
      * injection Hrun as <-. split; intros; lia.
      * apply IH in Hrun. destruct Hrun as [Hle _]. split; intros; lia.
    + injection Hrun as <-. split; [lia|discriminate].
Qed.

(** A valid loan of more than one cent yields a schedule. *)
Lemma valid_loan_returns (P a y p e : R) :
  valid_loan P a y p e -> 0.01 < P ->
  exists rows rest,
    calculate_amortization P a y p e = Some (Return (DataFrame rows :: rest)).
Proof.
  intros Hv HP1.
  destruct (regular_payment_valid P a y p e Hv) as (rp & Hrp & Hpos & _).
  destruct Hv as (HP & Ha & Hy & Hp & He).
  unfold calculate_amortization, calculate_amortization_fuel.
  destruct (Rle_dec P 0); [lra|].
  rewrite Hrp. destruct (Req_dec_T rp 0); [lra|].
  set (cap := y * p * 2).
  set (st0 := mkState [] P 0 0 (rp + e)).
  destruct (while_loop_terminates rp e (a / p) cap (loop_fuel cap) st0)
    as [st Hrun]; [simpl; lia|].
  rewrite Hrun.
  pose proof (while_loop_ledger rp e (a / p) cap P _ _ _ Hrun) as L.
  assert (Ht : loop_test cap st0 = true).
  { unfold loop_test, st0, cap. simpl.
    assert (0 < y * p) by (apply Rmult_lt_0_compat; lra).
    destruct (Rlt_dec 0.01 P); [|lra].
    destruct (Rlt_dec 0 (y * p * 2)); [reflexivity|lra]. }
  destruct (while_loop_count _ _ _ _ _ _ _ Hrun) as [_ Hlt].
  specialize (Hlt Ht). simpl in Hlt.
  pose proof (ledc_length _ _ _ L) as Hlen.
  destruct (schedule st) as [|r0 rs] eqn:Hs; [simpl in Hlen; lia|].
  simpl. eauto.
Qed.

(** The final state behind the schedule of a valid loan. *)
Lemma valid_loan_run (P a y p e : R) (rows : list row) (rest : list pyobj) :
  valid_loan P a y p e ->
  calculate_amortization P a y p e = Some (Return (DataFrame rows :: rest)) ->
  exists rp st,
    ledger_closed P (y * p * 2) st /\ sound_closed P st /\
    rows = schedule st /\ rows <> [] /\
    rest = [Num rp; Num (fold_left Rplus (map payment rows) 0);
            Num (total_interest_paid st); Num (INR (payment_num st))].
Proof.
  intros Hv H.
  destruct (regular_payment_valid P a y p e Hv)
    as (rp & Hrp & Hpos & Hcov & Hpay).
  destruct Hv as (HP & Ha & Hy & Hp & He).
  destruct (calculate_amortization_inv P a y p e rows rest HP H)
    as (rp0 & rp' & st & Hrp0 & Erp & Hrun & Hrows & Hne & Hrest).
  rewrite Hrp in Hrp0. injection Hrp0 as <-.
  destruct (Req_dec_T rp 0); [lra|]. subst rp'.
  exists rp, st.
  split; [eapply while_loop_ledger; exact Hrun|].
  split; [|auto].
  assert (Hn : 0 < y * p) by (apply Rmult_lt_0_compat; lra).
  apply (while_loop_sound P rp e (a / p) (y * p * 2) (y * p) HP) with
    (fuel := loop_fuel (y * p * 2)); auto.
  - apply Rmult_le_pos; [lra|]. left. apply Rinv_0_lt_compat. lra.
  - lra.
Qed.

(** ** Concrete runs *)

Ltac loop_step :=
  cbn [while_loop]; unfold loop_test at 1;
  cbn [current_balance payment_num total_payment schedule
       total_interest_paid INR];
  repeat decide_R;
  try (rewrite loop_body_eq; cbv zeta;
       cbn [current_balance payment_num total_payment schedule
            total_interest_paid];
       unfold Rmin; repeat decide_R).

Ltac amort_eval :=
  unfold calculate_amortization_fuel, calculate_loan_payment;
  repeat decide_R; cbv zeta; repeat decide_R;
  repeat loop_step;
  cbn [schedule current_balance payment_num total_payment total_interest_paid
       app bind payment_column_sum map fold_left payment INR];
  close_eq.

(** 100 at 0% over a quarter of a year, one payment per year. *)
Lemma run_quarter_year :
  calculate_amortization 100 0 (1/4) 1 0
  = Some (Return [DataFrame [mkRow 1 100 100 100 0 0];
                  Num 400; Num 100; Num 0; Num 1]).
Proof.
  apply (calculate_amortization_fuel_stable 1). amort_eval.
Qed.

(** 100 at 0% over one year in two payments, with 49.9921875 extra. *)
Lemma run_extra_leaves_residue :
  calculate_amortization 100 0 1 2 (6399/128)
  = Some (Return [DataFrame [mkRow 1 100 (12799/128) (12799/128) 0 (1/128)];
                  Num 50; Num (12799/128); Num 0; Num 1]).
Proof.
  apply (calculate_amortization_fuel_stable 1). amort_eval.
Qed.

(** 1000 at 0% over one year in four payments, with 249.99609375 extra. *)
Lemma run_two_rows_residue :
  calculate_amortization 1000 0 1 4 (63999/256)
  = Some (Return [DataFrame
                    [mkRow 1 1000 (127999/256) (127999/256) 0 (128001/256);
                     mkRow 2 (128001/256) (127999/256) (127999/256) 0 (1/128)];
                  Num 250; Num (127999/128); Num 0; Num 2]).
Proof.
  apply (calculate_amortization_fuel_stable 2). amort_eval.
Qed.

(** 300 at 0% over one year in three payments. *)
Lemma run_three_payments :
  calculate_amortization 300 0 1 3 0
  = Some (Return [DataFrame [mkRow 1 300 100 100 0 200;
                             mkRow 2 200 100 100 0 100;
                             mkRow 3 100 100 100 0 0];
                  Num 100; Num 300; Num 0; Num 3]).
Proof.
  apply (calculate_amortization_fuel_stable 3). amort_eval.
Qed.

Lemma Rpower_two_periods : Rpower (1 + 0.1 / 1) (2 * 1) = 121 / 100.
Proof.
  replace (2 * 1) with (INR 2) by (simpl; lra).
  rewrite Rpower_pow by lra. simpl. lra.
Qed.

(** 1000 at 10% over two years, one payment per year. *)
Lemma run_two_years :
  calculate_amortization 1000 0.1 2 1 0
  = Some (Return
            [DataFrame
               [mkRow 1 1000 (12100/21) (10000/21) 100 (11000/21);
                mkRow 2 (11000/21) (12100/21) (11000/21) (1100/21) 0];
             Num (12100/21); Num (24200/21); Num (3200/21); Num 2]).
Proof.
  apply (calculate_amortization_fuel_stable 2).
  unfold calculate_amortization_fuel, calculate_loan_payment, npf_pmt.
  rewrite Rpower_two_periods.
  repeat decide_R; cbv zeta; repeat decide_R;
  repeat loop_step;
  cbn [schedule current_balance payment_num total_payment total_interest_paid
       app bind payment_column_sum map fold_left payment INR];
  close_eq.
Qed.

Lemma ending_decreasing_of_chain (rows : list row) :
  forall b,
    chained b rows ->
    Forall (fun r => ending_balance r = starting_balance r - principal_paid r)
      rows ->
    Forall (fun r => row_nonneg r /\ 0 < principal_paid r) rows ->
    ending_decreasing rows.
Proof.
  induction rows as [|r1 rows IH]; intros b Hch Hrows Hpos; [exact I|].
  destruct rows as [|r2 rows]; [exact I|].
  destruct Hch as [_ Hch]. inversion Hrows as [|? ? _ Hrows']; subst.
  inversion Hpos as [|? ? _ Hpos']; subst.
  split; [|eapply IH; eauto].
  destruct Hch as [Hs _].
  inversion Hrows' as [|? ? He _]; subst.
  inversion Hpos' as [|? ? [_ Hp] _]; subst. lra.
Qed.

Lemma Forall_proj1 {A : Type} (Q1 Q2 : A -> Prop) (l : list A) :
  Forall (fun a => Q1 a /\ Q2 a) l -> Forall Q1 l.
Proof. apply Forall_impl. tauto. Qed.

(** ** The claims about the loan engine *)




(** C7 (amended): for every input the loop ends; a returned result has
    one row per pass, fewer than 2*years*paymentsPerYear + 1 of them (at
    most 2*years*paymentsPerYear when that product is a whole number), and
    every row but the last leaves a balance above 0.01, so the loop stops
    at the first balance of at most 0.01. *)
Theorem C7_loop_bounded (P a y p e : R) :
  exists res,
    calculate_amortization P a y p e = Some res /\
    forall rows rp tp ti pc,
      res = Return [DataFrame rows; Num rp; Num tp; Num ti; Num pc] ->
      pc = INR (length rows) /\
      pc < 2 * y * p + 1 /\
      (forall k : Z, 2 * y * p = IZR k -> pc <= 2 * y * p) /\
      Forall (fun r => 0.01 < ending_balance r) (removelast rows).
Proof.
  destruct (calculate_amortization_total P a y p e) as [res Hres].
  exists res. split; [exact Hres|].
  intros rows rp tp ti pc ->.
  destruct (Rle_dec P 0) as [HP|HP].
  { rewrite calculate_amortization_nonpositive in Hres by exact HP.
    discriminate. }
  destruct (calculate_amortization_ledger P a y p e _ _ ltac:(lra) Hres)
    as (rp' & st & L & -> & Hne & Hrest).
  injection Hrest as _ _ _ ->.
  destruct L as [_ _ _ Hlen Hopen Hcnt _ _ _].
  rewrite Hlen.
  assert (Hlt : INR (payment_num st) < 2 * y * p + 1).
  { destruct Hcnt as [H0|Hc]; [|lra].
    rewrite H0 in Hlen. destruct (schedule st); [contradiction|discriminate]. }
  repeat split; auto.
  intros k Hk. rewrite Hk in *. rewrite INR_IZR_INZ in *.
  apply IZR_le. rewrite <- plus_IZR in Hlt. apply lt_IZR in Hlt. lia.
Qed.

(** C7 as stated fails: with 2*years*paymentsPerYear = 0.5 the loop
    still makes one pass, so paymentCount = 1 exceeds the stated cap. *)
Lemma C7_counterexample :
  exists rows rp tp ti pc,
    calculate_amortization 100 0 (1/4) 1 0
    = Some (Return [DataFrame rows; Num rp; Num tp; Num ti; Num pc]) /\
    pc = 1 /\ ~ (pc <= 2 * (1/4) * 1).
Proof.
  eexists _, _, _, _, _. split; [exact run_quarter_year|].
  split; [reflexivity|lra].
Qed.






(** C4: at principal 0 the function returns an empty schedule and zero
    totals, but as a tuple of six components, whereas a non-empty result
    has five. *)
Theorem C4_zero_principal_result :
  calculate_amortization 0 0.065 5 12 0
  = Some (Return [DataFrame []; Num 0; Num 0; Num 0; Num 0; Num 0]) /\
  calculate_amortization 300 0 1 3 0
  = Some (Return [DataFrame [mkRow 1 300 100 100 0 200;
                             mkRow 2 200 100 100 0 100;
                             mkRow 3 100 100 100 0 0];
                  Num 100; Num 300; Num 0; Num 3]).
Proof.
  split; [apply calculate_amortization_nonpositive; lra|].
  exact run_three_payments.
Qed.

(** ** Floats *)

Lemma FLOAT_LIMIT_lower : 1e308 < FLOAT_LIMIT.
Proof.
  unfold FLOAT_LIMIT.
  replace 1e308 with (IZR (10 ^ 308)) by (simpl; lra).
  apply IZR_lt. vm_compute. reflexivity.
Qed.

Lemma FLOAT_LIMIT_pos : 0 < FLOAT_LIMIT.
Proof. pose proof FLOAT_LIMIT_lower. lra. Qed.

Lemma fround_exact (x : R) : 0 <= x -> exact_or_inf x (fround x).
Proof.
  intros Hx. pose proof FLOAT_LIMIT_pos. unfold exact_or_inf, fround.
  destruct (Rle_dec FLOAT_LIMIT x); [auto|].
  destruct (Rle_dec x (- FLOAT_LIMIT)); [lra|auto].
Qed.

Lemma fround_Fin (x v : R) : fround x = Fin v -> v = x.
Proof.
  unfold fround.
  destruct (Rle_dec FLOAT_LIMIT x); [discriminate|].
  destruct (Rle_dec x (- FLOAT_LIMIT)); [discriminate|].
  intros H. injection H as <-. reflexivity.
Qed.

Lemma exact_xadd (a b : R) (x y : xfloat) :
  exact_or_inf a x -> exact_or_inf b y -> 0 <= a + b ->
  exact_or_inf (a + b) (xadd x y).
Proof.
  intros [->| ->] [->| ->] H; simpl; try (left; reflexivity).
  apply fround_exact; exact H.
Qed.

Lemma exact_xmul (a b : R) (x y : xfloat) :
  exact_or_inf a x -> exact_or_inf b y -> 0 < a -> 0 < b ->
  exact_or_inf (a * b) (xmul x y).
Proof.
  intros [->| ->] [->| ->] Ha Hb; simpl; unfold inf_times;
    try (left; reflexivity).
  - destruct (Req_dec_T b 0); [lra|].
    destruct (Rlt_dec 0 b); [left; reflexivity|lra].
  - destruct (Req_dec_T a 0); [lra|].
    destruct (Rlt_dec 0 a); [left; reflexivity|lra].
  - apply fround_exact. apply Rmult_le_pos; lra.
Qed.

Lemma exact_xdiv (a b : R) (x : xfloat) :
  exact_or_inf a x -> 0 <= a -> 0 < b ->
  exists q, xdiv x (Fin b) = Return q /\ exact_or_inf (a / b) q.
Proof.
  intros Hx Ha Hb. unfold xdiv.
  destruct Hx as [->| ->]; destruct (Req_dec_T b 0); try lra;
    eexists; (split; [reflexivity|]).
  - unfold inf_times. destruct (Req_dec_T b 0); [lra|].
    destruct (Rlt_dec 0 b); [left; reflexivity|lra].
  - apply fround_exact. apply Rmult_le_pos; [lra|].
    left. apply Rinv_0_lt_compat. exact Hb.
Qed.

Lemma exact_gt (k v : R) (x : xfloat) :
  exact_or_inf v x -> k < v -> xlt (Fin k) x = true.
Proof.
  intros [->| ->] H; simpl; [reflexivity|].
  destruct (Rlt_dec k v); [reflexivity|lra].
Qed.

Lemma exact_not_gt (k v : R) (x : xfloat) :
  exact_or_inf v x -> xlt (Fin k) x = false -> x = Fin v /\ v <= k.
Proof.
  intros [->| ->]; simpl; [discriminate|].
  destruct (Rlt_dec k v); [discriminate|]. intros _. split; [reflexivity|lra].
Qed.

Lemma to_float_int (z : Z) :
  to_float (PyInt z) = Raise OverflowError \/
  to_float (PyInt z) = Return (Fin (IZR z)).
Proof.
  unfold to_float. destruct (Rle_dec FLOAT_LIMIT (Rabs (IZR z))); auto.
Qed.

Lemma to_float_zero : to_float (PyInt 0) = Return (Fin 0).
Proof.
  pose proof FLOAT_LIMIT_pos. unfold to_float.
  rewrite Rabs_R0. destruct (Rle_dec FLOAT_LIMIT 0); [lra|reflexivity].
Qed.

(** ** The type check on the contribution frequency *)

(** C10: whenever contributionFrequency is not of integer type, a float
    such as 12.0 included, the call fails with a type error, whatever the
    other arguments are. *)
Theorem C10_frequency_type_error
    (principal rate time compound_type contribution_amount
     contribution_frequency : pyval) :
  as_int contribution_frequency = None ->
  is_type_error
    (future_value_with_contributions principal rate time compound_type
       contribution_amount contribution_frequency).
Proof.
  intros H. unfold future_value_with_contributions. rewrite H.
  destruct (as_number principal); [|exact I].
  destruct (as_number rate); [|exact I].
  destruct (as_number time); [|exact I].
  destruct (as_number contribution_amount); exact I.
Qed.

Lemma C10_frequency_type_error_witness :
  as_int (float 12) = None /\
  is_type_error
    (future_value_with_contributions (float 1000) (float 0.05) (VInt 10)
       (VInt 12) (float 100) (float 12)).
Proof.
  split; [reflexivity|].
  apply C10_frequency_type_error. reflexivity.
Defined.

(** ** Concrete runs of the growth functions *)

Lemma Rpower_two (k : Z) :
  (0 <= k)%Z -> Rpower (1 + 1 / 1) (IZR k) = IZR (2 ^ k).
Proof.
  intros Hk. replace (1 + 1 / 1) with 2 by lra.
  rewrite <- (Z2Nat.id k) at 1 by exact Hk.
  rewrite <- INR_IZR_INZ, Rpower_pow by lra.
  rewrite pow_IZR, Z2Nat.id by exact Hk. reflexivity.
Qed.

Lemma exp_mult_nat (x : R) (k : nat) : exp (INR k * x) = exp x ^ k.
Proof.
  induction k as [|k IH].
  - simpl. rewrite Rmult_0_l. apply exp_0.
  - rewrite S_INR, Rmult_plus_distr_r, Rmult_1_l, exp_plus, IH. simpl. ring.
Qed.

Lemma pow_ratio (a b : Z) (k : nat) :
  (IZR a / IZR b) ^ k = IZR (a ^ Z.of_nat k) / IZR (b ^ Z.of_nat k).
Proof.
  unfold Rdiv. rewrite Rpow_mult_distr, pow_inv, !pow_IZR. reflexivity.
Qed.

Lemma ln_2_lower : 0.6848 < ln 2.
Proof.
  assert (H : / 2 < exp (Ropp 0.6848)).
  { replace (Ropp 0.6848) with (INR 64 * (- 0.0107)) by (simpl; lra).
    rewrite exp_mult_nat.
    apply Rlt_le_trans with ((1 + - 0.0107) ^ 64).
    - replace (1 + - 0.0107) with (IZR 9893 / IZR 10000) by lra.
      rewrite pow_ratio.
      set (a := (9893 ^ Z.of_nat 64)%Z). set (b := (10000 ^ Z.of_nat 64)%Z).
      assert (Hb : 0 < IZR b) by (apply IZR_lt; reflexivity).
      assert (Hab : IZR b < 2 * IZR a).
      { rewrite <- mult_IZR. apply IZR_lt. vm_compute. reflexivity. }
      apply (Rmult_lt_reg_r (IZR b)); [exact Hb|].
      unfold Rdiv. rewrite Rmult_assoc, Rinv_l by lra. lra.
    - apply pow_incr. split; [lra|]. apply exp_ineq1_le. }
  apply exp_lt_inv. rewrite exp_ln by lra.
  rewrite exp_Ropp in H.
  assert (0 < exp 0.6848) by apply exp_pos.
  destruct (Rlt_dec (exp 0.6848) 2) as [Hlt|Hge]; [exact Hlt|].
  assert (/ exp 0.6848 <= / 2) by (apply Rinv_le_contravar; lra). lra.
Qed.

(** 1.0 at 100% for 1023 years compounds to 2^1023, a finite float. *)
Lemma run_growth_1023_years :
  computeGrowth (float 1) (float 1) (VInt 1023) (VInt 1)
  = Return (PyFloat (Fin (IZR (2 ^ 1023))),
            PyFloat (Fin (IZR (2 ^ 1023) - 1)), PyInt 0).
Proof.
  pose proof FLOAT_LIMIT_lower as HL.
  pose proof (Rpower_two 1023 ltac:(lia)) as E.
  assert (Hv : IZR (2 ^ 1023) + 1 < FLOAT_LIMIT).
  { unfold FLOAT_LIMIT. rewrite <- plus_IZR. apply IZR_lt.
    vm_compute. reflexivity. }
  assert (Hv' : 1 < IZR (2 ^ 1023)) by (apply IZR_lt; reflexivity).
  set (v := IZR (2 ^ 1023)) in *.
  geval_with ltac:(rewrite E).
  close_eq.
Qed.

(** The overflow scenario of the specification, on both functions. *)
Lemma run_growth_overflow_scenario :
  computeGrowth (float 1e300) (float 1) (VInt 1000) (VInt 1)
  = Return overflow3.
Proof.
  pose proof FLOAT_LIMIT_lower as HL.
  pose proof (Rpower_two 1000 ltac:(lia)) as E.
  assert (Hv : IZR (2 ^ 1000) < FLOAT_LIMIT).
  { unfold FLOAT_LIMIT. apply IZR_lt. vm_compute. reflexivity. }
  assert (Hv' : FLOAT_LIMIT <= 1e300 * IZR (2 ^ 1000)).
  { unfold FLOAT_LIMIT.
    replace 1e300 with (IZR (10 ^ 300)) by (simpl; lra).
    rewrite <- mult_IZR. apply IZR_le. vm_compute. discriminate. }
  set (v := IZR (2 ^ 1000)) in *.
  geval_with ltac:(rewrite E).
  reflexivity.
Qed.

Lemma run_old_overflow_scenario :
  compound_interest (float 1e300) (float 1) (VInt 1000) (VInt 1) (VInt 1)
  = Return overflow2.
Proof.
  pose proof FLOAT_LIMIT_lower as HL.
  pose proof (Rpower_two 1000 ltac:(lia)) as E.
  assert (Hv : IZR (2 ^ 1000) < FLOAT_LIMIT).
  { unfold FLOAT_LIMIT. apply IZR_lt. vm_compute. reflexivity. }
  assert (Hv' : FLOAT_LIMIT <= 1e300 * IZR (2 ^ 1000)).
  { unfold FLOAT_LIMIT.
    replace 1e300 with (IZR (10 ^ 300)) by (simpl; lra).
    rewrite <- mult_IZR. apply IZR_le. vm_compute. discriminate. }
  set (v := IZR (2 ^ 1000)) in *.
  assert (Hln : 0 < ln (1 + 1 / 1) < 1).
  { replace (1 + 1 / 1) with 2 by lra. pose proof ln_lt_2.
    pose proof (exp_ineq1 (ln 2) ltac:(lra)) as Hx.
    rewrite exp_ln in Hx by lra. lra. }
  geval_with ltac:(rewrite E).
  destruct (Rlt_dec 700 (1000 * ln (1 + 1 / 1)));
    geval_with ltac:(rewrite E); reflexivity.
Qed.

(** Monthly contributions of 100 under yearly compounding at 0%. *)
Lemma run_growth_mismatched_frequency :
  future_value_with_contributions (float 0) (float 0) (float 1) (VInt 1)
    (float 100) (VInt 12)
  = Return (PyFloat (Fin 100), PyInt 0, PyFloat (Fin 1200)).
Proof.
  pose proof FLOAT_LIMIT_lower as HL.
  geval_with fail.
  close_eq.
Qed.

(** ** Steps of the growth functions *)

Lemma py_div_float_int (x : xfloat) (n : Z) :
  py_div (PyFloat x) (PyInt n) = (y <- to_float (PyInt n) ;; xdiv x y).
Proof. reflexivity. Qed.

Lemma py_mul_int_float (n : Z) (x : xfloat) :
  py_mul (PyInt n) (PyFloat x)
  = (y <- to_float (PyInt n) ;; Return (PyFloat (xmul y x))).
Proof. reflexivity. Qed.

Lemma py_mul_float_int (x : xfloat) (n : Z) :
  py_mul (PyFloat x) (PyInt n)
  = (y <- to_float (PyInt n) ;; Return (PyFloat (xmul x y))).
Proof. reflexivity. Qed.

Lemma py_mul_float (x y : xfloat) :
  py_mul (PyFloat x) (PyFloat y) = Return (PyFloat (xmul x y)).
Proof. reflexivity. Qed.

Lemma to_float_one : to_float (PyInt 1) = Return (Fin 1).
Proof.
  pose proof FLOAT_LIMIT_lower. unfold to_float.
  rewrite Rabs_R1. destruct (Rle_dec FLOAT_LIMIT 1); [lra|reflexivity].
Qed.

Lemma exact_fin (v c : R) : exact_or_inf v (Fin c) -> c = v.
Proof. intros [H|H]; [discriminate|]. injection H as ->. reflexivity. Qed.

Lemma exact_refl (v : R) : exact_or_inf v (Fin v).
Proof. right. reflexivity. Qed.

Lemma Rpower_ge_1 (b y : R) : 1 <= b -> 0 <= y -> 1 <= Rpower b y.
Proof.
  intros Hb Hy. unfold Rpower. rewrite <- exp_0.
  destruct (Req_dec_T (y * ln b) 0) as [->|Hne]; [lra|].
  left. apply exp_increasing.
  assert (0 <= ln b).
  { rewrite <- ln_1. destruct (Req_dec_T b 1) as [->|]; [lra|].
    left. apply ln_increasing; lra. }
  assert (0 <= y * ln b) by (apply Rmult_le_pos; assumption). lra.
Qed.

Lemma overflowed_bind {V A B : Type} (s : V) (m : flow V A)
    (k : A -> flow V B) :
  overflowed s m -> overflowed s (fbind m k).
Proof. intros [->| ->]; [left|right]; reflexivity. Qed.

(** [base ** exponent] on the values the functions compute: the exact
    power, plus infinity, or an [OverflowError]. *)
Lemma Rpower_one (y : R) : Rpower 1 y = 1.
Proof. unfold Rpower. rewrite ln_1, Rmult_0_r. apply exp_0. Qed.

Lemma float_pow_exact (b y : R) (x e : xfloat) :
  exact_or_inf b x -> exact_or_inf y e -> 1 <= b -> 0 <= y ->
  float_pow x e = Raise OverflowError \/
  exists pw, float_pow x e = Return pw /\ exact_or_inf (Rpower b y) pw.
Proof.
  intros Hx He Hb Hy.
  destruct He as [->| ->].
  - right. destruct Hx as [->| ->]; simpl.
    { exists PInf. split; [reflexivity|left; reflexivity]. }
    rewrite Rabs_pos_eq by lra.
    destruct (Req_dec_T b 1) as [->|Hb1].
    + exists (Fin 1). split; [reflexivity|].
      rewrite Rpower_one. right. reflexivity.
    + exists PInf. split; [|left; reflexivity].
      destruct (Rlt_dec 1 b); [reflexivity|lra].
  - unfold float_pow.
    destruct (Req_dec_T y 0) as [->|Hy0].
    + right. exists (Fin 1). split; [destruct x; reflexivity|].
      rewrite Rpower_O by lra. right. reflexivity.
    + destruct Hx as [->| ->].
      * right. exists PInf. split; [|left; reflexivity].
        destruct (Rlt_dec 0 y); [reflexivity|lra].
      * destruct (Rlt_dec 0 b); [|lra]. unfold pow_positive.
        destruct (Rle_dec FLOAT_LIMIT (Rpower b y)); [left; reflexivity|].
        right. eexists. split; [reflexivity|right; reflexivity].
Qed.

Lemma heuristic_check_float (p e : xfloat) (base : xfloat) :
  heuristic_check (PyFloat p) base (PyFloat e) = Next tt \/
  heuristic_check (PyFloat p) base (PyFloat e) = Ret overflow3.
Proof.
  unfold heuristic_check.
  destruct (py_gt (PyFloat e) (PyInt 10000) && _)%bool; [|auto].
  unfold log_estimate.
  destruct (math_log (if py_gt (PyFloat p) (PyInt 0) then _ else _))
    as [lp|err] eqn:E1.
  - cbn [bind].
    destruct (math_log (if py_gt (PyFloat base) (PyInt 1) then _ else _))
      as [lb|err] eqn:E2.
    + cbn [bind]. rewrite py_mul_float. cbn [bind]. unfold py_add, arith.
      cbn [to_float bind].
      destruct (py_gt _ (PyInt 700)); auto.
    + cbn [bind]. unfold math_log in E2.
      destruct (xv _); try discriminate;
        try (destruct (Rlt_dec 0 x); try discriminate);
        injection E2 as <-; auto.
  - cbn [bind]. unfold math_log in E1.
    destruct (xv _); try discriminate;
      try (destruct (Rlt_dec 0 x); try discriminate);
      injection E1 as <-; auto.
Qed.


Lemma step_ok_next {V A : Type} (s : V) (a : A) (Q : A -> Prop) :
  Q a -> step_ok s (Next a) Q.
Proof. intros H. right. eauto. Qed.

Lemma step_ok_ret {V A : Type} (s : V) (Q : A -> Prop) :
  step_ok s (Ret s) Q.
Proof. left. left. reflexivity. Qed.

Lemma step_ok_bind {V A B : Type} (s : V) (m : flow V A)
    (k : A -> flow V B) (Q : A -> Prop) (Q' : B -> Prop) :
  step_ok s m Q -> (forall a, Q a -> step_ok s (k a) Q') ->
  step_ok s (fbind m k) Q'.
Proof.
  intros [H|(a & -> & Ha)] Hk.
  - left. apply overflowed_bind. exact H.
  - simpl. apply Hk. exact Ha.
Qed.

Lemma step_ok_lift {V A : Type} (s : V) (m : result A) (Q : A -> Prop) :
  res_ok m Q -> step_ok s (lift m) Q.
Proof.
  intros [->|(a & -> & Ha)]; simpl.
  - left. right. reflexivity.
  - right. eauto.
Qed.

Lemma res_ok_return {A : Type} (a : A) (Q : A -> Prop) :
  Q a -> res_ok (Return a) Q.
Proof. intros H. right. eauto. Qed.

Lemma res_ok_bind {A B : Type} (m : result A) (k : A -> result B)
    (Q : A -> Prop) (Q' : B -> Prop) :
  res_ok m Q -> (forall a, Q a -> res_ok (k a) Q') -> res_ok (bind m k) Q'.
Proof.
  intros [->|(a & -> & Ha)] Hk; simpl; [left; reflexivity|auto].
Qed.

Lemma res_ok_to_float_int (z : Z) :
  res_ok (to_float (PyInt z)) (fun x => x = Fin (IZR z)).
Proof.
  destruct (to_float_int z) as [->| ->]; [left; reflexivity|].
  apply res_ok_return. reflexivity.
Qed.

(** [x / n] for a float and an int. *)
Lemma res_ok_div_int (a : R) (x : xfloat) (n : Z) :
  exact_or_inf a x -> 0 <= a -> (1 <= n)%Z ->
  res_ok (py_div (PyFloat x) (PyInt n)) (exact_or_inf (a / IZR n)).
Proof.
  intros Hx Ha Hn. rewrite py_div_float_int.
  eapply res_ok_bind; [apply res_ok_to_float_int|].
  intros y ->. assert (1 <= IZR n) by (apply IZR_le; exact Hn).
  destruct (exact_xdiv a (IZR n) x Hx Ha ltac:(lra)) as (q & -> & Hq).
  apply res_ok_return. exact Hq.
Qed.

(** [n * x] for an int and a float. *)
Lemma res_ok_int_mul (n : Z) (b : R) (x : xfloat) :
  (1 <= n)%Z -> exact_or_inf b x -> 0 <= b ->
  res_ok (py_mul (PyInt n) (PyFloat x))
    (fun v => exists e, v = PyFloat e /\ exact_or_inf (IZR n * b) e).
Proof.
  intros Hn Hx Hb. rewrite py_mul_int_float.
  eapply res_ok_bind; [apply res_ok_to_float_int|].
  intros y ->. apply res_ok_return. eexists. split; [reflexivity|].
  assert (1 <= IZR n) by (apply IZR_le; exact Hn).
  destruct (Req_dec_T b 0) as [->|Hb0].
  - destruct Hx as [->| ->]; simpl.
    + (* an infinite factor with exact value 0 does not occur *)
      unfold inf_times. destruct (Req_dec_T (IZR n) 0); [lra|].
      destruct (Rlt_dec 0 (IZR n)); [left; reflexivity|lra].
    + apply fround_exact. lra.
  - apply exact_xmul; [apply exact_refl|exact Hx|lra|lra].
Qed.

Lemma res_ok_float_pow (b y : R) (x e : xfloat) :
  exact_or_inf b x -> exact_or_inf y e -> 1 <= b -> 0 <= y ->
  res_ok (float_pow x e) (exact_or_inf (Rpower b y)).
Proof.
  intros Hx He Hb Hy.
  destruct (float_pow_exact b y x e Hx He Hb Hy) as [->|(pw & -> & H)].
  - left. reflexivity.
  - apply res_ok_return. exact H.
Qed.

(** Step 1 on valid float arguments, discrete compounding. *)
Lemma principal_step_discrete (P r t : R) (n : Z) :
  0 <= P -> 0 <= r -> 0 <= t -> (1 <= n)%Z ->
  step_ok overflow3
    (principal_future_value (PyFloat (Fin P)) (PyFloat (Fin r))
       (PyFloat (Fin t)) false n)
    (principal_post (discrete_growth P r t n)).
Proof.
  intros HP Hr Ht Hn.
  unfold principal_future_value, principal_post, discrete_growth.
  unfold py_gt at 1. cbn [xv xlt].
  destruct (Rlt_dec 0 P) as [HP0|HP0].
  2:{ apply step_ok_next. split; [left; reflexivity|].
      right. cbn [xv]. f_equal. replace P with 0 by lra. ring. }
  destruct (Z.leb_spec n 0) as [Hn0|_]; [lia|].
  unfold py_eq at 1. cbn [xv xeq].
  destruct (Req_dec_T r 0) as [Hr0|Hr0].
  { apply step_ok_next. split; [right; eauto|].
    right. cbn [xv]. f_equal. rewrite Hr0.
    replace (1 + 0 / IZR n) with 1 by (unfold Rdiv; ring).
    rewrite Rpower_one. ring. }
  assert (Hn' : 1 <= IZR n) by (apply IZR_le; exact Hn).
  assert (Hq0 : 0 < r / IZR n) by (apply Rdiv_lt_0_compat; lra).
  assert (Hnt : 0 <= IZR n * t) by (apply Rmult_le_pos; lra).
  eapply step_ok_bind.
  { apply step_ok_lift.
    apply (res_ok_div_int r (Fin r) n (exact_refl r) Hr Hn). }
  intros q Hq. cbv beta zeta.
  pose proof (exact_xadd 1 (r / IZR n) (Fin 1) q (exact_refl 1) Hq
                ltac:(lra)) as Hbase.
  set (base := xadd (Fin 1) q) in *.
  eapply step_ok_bind.
  { apply step_ok_lift.
    apply (res_ok_int_mul n t (Fin t) Hn (exact_refl t) Ht). }
  intros ev (e & -> & He).
  eapply step_ok_bind with (Q := fun _ => True).
  { destruct (heuristic_check_float (Fin P) e base) as [->| ->];
      [apply step_ok_next; exact I|apply step_ok_ret]. }
  intros _ _.
  eapply step_ok_bind.
  { apply step_ok_lift. unfold py_pow. cbn [to_float bind].
    apply (res_ok_float_pow _ _ _ _ Hbase He ltac:(lra) Hnt). }
  intros pw Hpw. rewrite py_mul_float. cbn [lift fbind].
  pose proof (Rpower_ge_1 (1 + r / IZR n) (IZR n * t) ltac:(lra) Hnt) as Hge.
  apply step_ok_next. split; [right; eauto|].
  cbn [xv]. apply exact_xmul; [apply exact_refl|exact Hpw|lra|lra].
Qed.

Lemma py_add_float (x y : xfloat) :
  py_add (PyFloat x) (PyFloat y) = Return (PyFloat (xadd x y)).
Proof. reflexivity. Qed.

Lemma plain_float (x : xfloat) : plain (PyFloat x).
Proof. right. eauto. Qed.

Lemma plain_zero : plain (PyInt 0).
Proof. left. reflexivity. Qed.

Lemma py_add_plain (a b : R) (x y : num) :
  plain x -> plain y -> exact_or_inf a (xv x) -> exact_or_inf b (xv y) ->
  0 <= a + b ->
  exists s, py_add x y = Return s /\ plain s /\ exact_or_inf (a + b) (xv s).
Proof.
  intros Hx Hy Ha Hb Hab.
  destruct Hx as [->|[x' ->]]; destruct Hy as [->|[y' ->]];
    unfold py_add, arith; rewrite ?to_float_zero; cbn [to_float bind].
  - exists (PyInt 0). split; [reflexivity|]. split; [apply plain_zero|].
    apply exact_fin in Ha. apply exact_fin in Hb. simpl.
    right. f_equal. lra.
  - eexists. split; [reflexivity|]. split; [apply plain_float|].
    apply exact_xadd; assumption.
  - eexists. split; [reflexivity|]. split; [apply plain_float|].
    apply exact_xadd; assumption.
  - eexists. split; [reflexivity|]. split; [apply plain_float|].
    apply exact_xadd; assumption.
Qed.

Lemma py_sub_plain (x y : num) :
  plain x -> plain y -> exists s, py_sub x y = Return s /\ plain s.
Proof.
  intros [->|[x' ->]] [->|[y' ->]];
    unfold py_sub, arith; rewrite ?to_float_zero; cbn [to_float bind];
    eexists; (split; [reflexivity|]);
    first [apply plain_zero | apply plain_float].
Qed.

Lemma growth_post_overflow (P : R) (extra : Prop) :
  growth_post P extra overflow3.
Proof. intros a H. discriminate. Qed.

Lemma future_value_body_post (P w T : R) (extra : Prop)
    (rate time amount : num) (f : Z) (ic : bool) (n : Z) (res : triple) :
  0 <= P -> P <= w ->
  step_ok overflow3
    (principal_future_value (PyFloat (Fin P)) rate time ic n)
    (principal_post w) ->
  step_ok overflow3 (annuity_future_value rate time amount f ic n)
    (annuity_post T extra) ->
  future_value_handlers
    (future_value_body (PyFloat (Fin P)) rate time amount f ic n)
  = Return res ->
  growth_post P extra res.
Proof.
  intros HP HPw Hp Ha. unfold future_value_body.
  destruct Hp as [[->| ->]|(v & -> & Hv & Hw)]; cbn [fbind].
  1,2: simpl; intros H; injection H as <-; apply growth_post_overflow.
  destruct Ha
    as [[->| ->]|([af tc] & -> & Haf & Htc & HT & wa & Hwa & Hwa0 & Hex)];
    cbn [fbind].
  1,2: simpl; intros H; injection H as <-; apply growth_post_overflow.
  cbn [fst snd] in *.
  destruct (py_add_plain w wa v af Hv Haf Hw Hwa ltac:(lra))
    as (s & -> & Hs & Hsum).
  cbn [lift fbind].
  destruct (py_sub_plain s (PyFloat (Fin P)) Hs (plain_float _))
    as (d & -> & Hd).
  cbn [lift fbind].
  destruct (py_sub_plain d tc Hd Htc) as (d' & -> & _).
  cbn [lift fbind].
  destruct (py_eq s (PyFloat PInf)); simpl; intros H; injection H as <-.
  { apply growth_post_overflow. }
  intros a Ea. rewrite Ea in Hsum. apply exact_fin in Hsum. subst a.
  split; [lra|].
  intros Hextra c Ec. rewrite Ec in HT. apply exact_fin in HT. subst c.
  specialize (Hex Hextra). lra.
Qed.

(** [1 + y*x <= (1+x)^y] for a real exponent [y >= 1]. *)
Lemma Bernoulli_Rpower (x y : R) :
  0 <= x -> 1 <= y -> 1 + y * x <= Rpower (1 + x) y.
Proof.
  intros Hx Hy.
  assert (Hu : x / (1 + x) <= ln (1 + x)).
  { pose proof (exp_ineq1_le (- ln (1 + x))) as H.
    rewrite exp_Ropp, exp_ln in H by lra.
    assert (E : x / (1 + x) = 1 - / (1 + x)) by (field; lra). lra. }
  assert (Hu0 : 0 <= x / (1 + x)).
  { apply Rmult_le_pos; [lra|]. left. apply Rinv_0_lt_compat. lra. }
  unfold Rpower.
  replace (y * ln (1 + x)) with (ln (1 + x) + (y - 1) * ln (1 + x)) by ring.
  rewrite exp_plus, exp_ln by lra.
  pose proof (exp_ineq1_le ((y - 1) * ln (1 + x))) as He.
  assert (Hm : (y - 1) * (x / (1 + x)) <= (y - 1) * ln (1 + x))
    by (apply Rmult_le_compat_l; lra).
  assert (Hk : (1 + x) * (1 + (y - 1) * (x / (1 + x))) = 1 + y * x)
    by (field; lra).
  assert (Hz : (1 + x) * (1 + (y - 1) * (x / (1 + x)))
               <= (1 + x) * exp ((y - 1) * ln (1 + x)))
    by (apply Rmult_le_compat_l; lra).
  lra.
Qed.

Lemma res_ok_mul_int (a : R) (x : xfloat) (n : Z) :
  exact_or_inf a x -> 0 < a -> (1 <= n)%Z ->
  res_ok (py_mul (PyFloat x) (PyInt n))
    (fun v => exists e, v = PyFloat e /\ exact_or_inf (a * IZR n) e).
Proof.
  intros Hx Ha Hn. rewrite py_mul_float_int.
  eapply res_ok_bind; [apply res_ok_to_float_int|].
  intros y ->. apply res_ok_return. eexists. split; [reflexivity|].
  assert (1 <= IZR n) by (apply IZR_le; exact Hn).
  apply exact_xmul; [exact Hx|apply exact_refl|lra|lra].
Qed.

(** [rate / n] of a float rate is computed exactly. *)
Lemma res_ok_rate_div (r : R) (n : Z) :
  0 <= r -> r < FLOAT_LIMIT -> (1 <= n)%Z ->
  res_ok (py_div (PyFloat (Fin r)) (PyInt n))
    (fun q => q = Fin (r / IZR n)).
Proof.
  intros Hr HrL Hn. rewrite py_div_float_int.
  eapply res_ok_bind; [apply res_ok_to_float_int|].
  intros y ->. assert (Hn' : 1 <= IZR n) by (apply IZR_le; exact Hn).
  unfold xdiv. destruct (Req_dec_T (IZR n) 0); [lra|].
  apply res_ok_return. unfold fround.
  assert (Hq : 0 <= r / IZR n <= r).
  { split.
    - apply Rmult_le_pos; [lra|]. left. apply Rinv_0_lt_compat. lra.
    - apply (Rmult_le_reg_r (IZR n)); [lra|].
      unfold Rdiv. rewrite Rmult_assoc, Rinv_l by lra. nra. }
  pose proof FLOAT_LIMIT_pos.
  destruct (Rle_dec FLOAT_LIMIT (r / IZR n)); [lra|].
  destruct (Rle_dec (r / IZR n) (- FLOAT_LIMIT)); [lra|reflexivity].
Qed.

(** The test [rt > 700] on the product of two non-negative floats. *)
Lemma rt_check (r t : R) :
  0 <= r -> 0 <= t ->
  py_gt (PyFloat (xmul (Fin r) (Fin t))) (PyInt 700) = true \/
  (py_gt (PyFloat (xmul (Fin r) (Fin t))) (PyInt 700) = false /\
   xmul (Fin r) (Fin t) = Fin (r * t) /\ r * t <= 700).
Proof.
  intros Hr Ht.
  assert (H : exact_or_inf (r * t) (xmul (Fin r) (Fin t))).
  { apply fround_exact. apply Rmult_le_pos; assumption. }
  unfold py_gt. cbn [xv].
  destruct (xlt (Fin 700) (xmul (Fin r) (Fin t))) eqn:E; [left; reflexivity|].
  right. split; [reflexivity|]. eapply exact_not_gt; eassumption.
Qed.

Lemma res_ok_exp (v : R) :
  res_ok (math_exp (PyFloat (Fin v))) (fun ex => ex = Fin (exp v)).
Proof.
  unfold math_exp. cbn [to_float bind].
  destruct (Rle_dec FLOAT_LIMIT (exp v)); [left; reflexivity|].
  apply res_ok_return. reflexivity.
Qed.

Lemma exp_ge_1 (x : R) : 0 <= x -> 1 <= exp x.
Proof. intros H. pose proof (exp_ineq1_le x). lra. Qed.

(** Step 1 on valid float arguments, continuous compounding. *)
Lemma principal_step_continuous (P r t : R) (n : Z) :
  0 <= P -> 0 <= r -> 0 <= t ->
  step_ok overflow3
    (principal_future_value (PyFloat (Fin P)) (PyFloat (Fin r))
       (PyFloat (Fin t)) true n)
    (principal_post (continuous_growth P r t)).
Proof.
  intros HP Hr Ht.
  unfold principal_future_value, principal_post, continuous_growth.
  unfold py_gt at 1. cbn [xv xlt].
  destruct (Rlt_dec 0 P) as [HP0|HP0].
  2:{ apply step_ok_next. split; [apply plain_zero|].
      right. cbn [xv]. f_equal. replace P with 0 by lra. ring. }
  unfold py_eq at 1. cbn [xv xeq].
  destruct (Req_dec_T r 0) as [Hr0|Hr0].
  { apply step_ok_next. split; [apply plain_float|].
    right. cbn [xv]. f_equal. rewrite Hr0, Rmult_0_l, exp_0. ring. }
  rewrite py_mul_float. cbn [lift fbind].
  destruct (rt_check r t Hr Ht) as [->|(-> & -> & Hrt)];
    [apply step_ok_ret|].
  eapply step_ok_bind; [apply step_ok_lift, res_ok_exp|].
  intros ex ->. rewrite py_mul_float. cbn [lift fbind].
  assert (0 <= r * t) by (apply Rmult_le_pos; assumption).
  pose proof (exp_ge_1 (r * t) ltac:(lra)).
  apply step_ok_next. split; [apply plain_float|].
  cbn [xv]. apply exact_xmul; [apply exact_refl|apply exact_refl|lra|lra].
Qed.

Lemma annuity_guard (c t : R) (f : Z) :
  0 <= c -> 0 <= t -> (0 <= f)%Z ->
  (py_gt (PyFloat (Fin c)) (PyInt 0) && (0 <? f)%Z
   && py_gt (PyFloat (Fin t)) (PyInt 0))%bool = true /\
   0 < c /\ (1 <= f)%Z /\ 0 < t
  \/
  (py_gt (PyFloat (Fin c)) (PyInt 0) && (0 <? f)%Z
   && py_gt (PyFloat (Fin t)) (PyInt 0))%bool = false /\
   c * IZR f * t = 0.
Proof.
  intros Hc Ht Hf. unfold py_gt. cbn [xv xlt].
  destruct (Rlt_dec 0 c) as [Hc0|Hc0].
  2:{ right. split; [reflexivity|]. replace c with 0 by lra. ring. }
  destruct (Z.ltb_spec 0 f) as [Hf0|Hf0].
  2:{ right. split; [reflexivity|]. replace f with 0%Z by lia. ring. }
  destruct (Rlt_dec 0 t) as [Ht0|Ht0].
  2:{ right. split; [reflexivity|]. replace t with 0 by lra. ring. }
  left. repeat split; auto. lia.
Qed.

(** The total contributed, [contribution_amount * contribution_frequency
    * time]. *)
Lemma total_contributions_ok (c t : R) (f : Z)
    (k : num -> flow triple (num * num))
    (Q : num * num -> Prop) :
  0 < c -> (1 <= f)%Z -> 0 < t ->
  (forall tc, exact_or_inf (c * IZR f * t) tc ->
     step_ok overflow3 (k (PyFloat tc)) Q) ->
  step_ok overflow3
    (cf <! py_mul (PyFloat (Fin c)) (PyInt f) ;;
     total_contributions <! py_mul cf (PyFloat (Fin t)) ;;
     k total_contributions) Q.
Proof.
  intros Hc Hf Ht Hk.
  assert (1 <= IZR f) by (apply IZR_le; exact Hf).
  eapply step_ok_bind.
  { apply step_ok_lift.
    apply (res_ok_mul_int c (Fin c) f (exact_refl c) Hc Hf). }
  intros cf (e & -> & He). rewrite py_mul_float. cbn [lift fbind].
  apply Hk. apply exact_xmul; [exact He|apply exact_refl|nra|lra].
Qed.

(** Step 2 on valid float arguments, discrete compounding. *)
Lemma annuity_step_discrete (r t c : R) (f n : Z) :
  0 <= r -> r < FLOAT_LIMIT -> 0 <= t -> 0 <= c -> (0 <= f)%Z ->
  (1 <= n)%Z ->
  step_ok overflow3
    (annuity_future_value (PyFloat (Fin r)) (PyFloat (Fin t))
       (PyFloat (Fin c)) f false n)
    (annuity_post (c * IZR f * t)
       ((f <= n)%Z /\ (r = 0 \/ 1 <= IZR n * t))).
Proof.
  intros Hr HrL Ht Hc Hf Hn. unfold annuity_future_value, annuity_post.
  destruct (annuity_guard c t f Hc Ht Hf)
    as [(-> & Hc0 & Hf1 & Ht0)|(-> & E)].
  2:{ apply step_ok_next. cbn [fst snd xv].
      split; [apply plain_zero|]. split; [apply plain_zero|].
      split; [right; f_equal; lra|].
      exists 0. split; [apply exact_refl|]. split; [lra|]. intros _. lra. }
  assert (Hn' : 1 <= IZR n) by (apply IZR_le; exact Hn).
  assert (Hf' : 1 <= IZR f) by (apply IZR_le; exact Hf1).
  assert (Hnt : 0 < IZR n * t) by (apply Rmult_lt_0_compat; lra).
  apply total_contributions_ok; try assumption.
  intros tc Htc.
  eapply step_ok_bind.
  { apply step_ok_lift.
    apply (res_ok_int_mul n t (Fin t) Hn (exact_refl t) Ht). }
  intros ntp (e & -> & He).
  eapply step_ok_bind.
  { apply step_ok_lift. apply (res_ok_rate_div r n Hr HrL Hn). }
  intros q ->.
  unfold py_eq at 1. cbn [xv xeq].
  destruct (Req_dec_T (r / IZR n) 0) as [Hq0|Hq0].
  - (* zero rate *)
    assert (Hr0 : r = 0).
    { apply (Rmult_eq_compat_r (IZR n)) in Hq0.
      unfold Rdiv in Hq0. rewrite Rmult_assoc, Rinv_l in Hq0 by lra. lra. }
    rewrite py_mul_float. cbn [lift fbind].
    apply step_ok_next. cbn [fst snd xv].
    split; [apply plain_float|]. split; [apply plain_float|].
    split; [exact Htc|].
    exists (c * (IZR n * t)). split.
    + apply exact_xmul; [apply exact_refl|exact He|lra|lra].
    + split; [nra|]. intros [Hfn _].
      assert (IZR f <= IZR n) by (apply IZR_le; exact Hfn).
      assert (IZR f * t <= IZR n * t) by (apply Rmult_le_compat_r; lra).
      assert (c * (IZR f * t) <= c * (IZR n * t))
        by (apply Rmult_le_compat_l; lra).
      lra.
  - (* positive rate *)
    assert (Hq : 0 < r / IZR n).
    { assert (0 <= r / IZR n);
        [apply Rmult_le_pos; [lra|left; apply Rinv_0_lt_compat; lra]|lra]. }
    set (q := r / IZR n) in *.
    pose proof (exact_xadd 1 q (Fin 1) (Fin q) (exact_refl 1) (exact_refl q)
                  ltac:(lra)) as Hbase.
    eapply step_ok_bind.
    { apply step_ok_lift. unfold py_pow. cbn [to_float bind].
      apply (res_ok_float_pow _ _ _ _ Hbase He ltac:(lra) ltac:(lra)). }
    intros pw Hpw.
    pose proof (Rpower_gt_1 (1 + q) (IZR n * t) ltac:(lra) Hnt) as Hgt.
    set (X := Rpower (1 + q) (IZR n * t)) in *.
    assert (Hsub : exact_or_inf (X + -1) (xsub pw (Fin 1))).
    { unfold xsub. cbn [xneg].
      apply exact_xadd; [exact Hpw|apply exact_refl|lra]. }
    destruct (exact_xdiv (X + -1) q _ Hsub ltac:(lra) Hq) as (fv & -> & Hfv).
    cbn [lift fbind]. rewrite py_mul_float. cbn [lift fbind].
    assert (Hfv0 : 0 < (X + -1) / q) by (apply Rdiv_lt_0_compat; lra).
    destruct (_ || _)%bool; [apply step_ok_ret|].
    apply step_ok_next. cbn [fst snd xv].
    split; [apply plain_float|]. split; [apply plain_float|].
    split; [exact Htc|].
    exists (c * ((X + -1) / q)). split.
    + apply exact_xmul; [apply exact_refl|exact Hfv|lra|lra].
    + split; [nra|]. intros [Hfn [Hr0|Hone]].
      { exfalso. apply Hq0. unfold q. rewrite Hr0. unfold Rdiv. ring. }
      assert (IZR f <= IZR n) by (apply IZR_le; exact Hfn).
      pose proof (Bernoulli_Rpower q (IZR n * t) ltac:(lra) Hone) as HB.
      fold X in HB.
      assert (Hy : IZR n * t <= (X + -1) / q).
      { apply (Rmult_le_reg_r q); [exact Hq|].
        replace ((X + -1) / q * q) with (X + -1) by (field; lra). lra. }
      assert (IZR f * t <= IZR n * t) by (apply Rmult_le_compat_r; lra).
      assert (c * (IZR f * t) <= c * ((X + -1) / q))
        by (apply Rmult_le_compat_l; lra).
      lra.
Qed.

(** Step 2 on valid float arguments, continuous compounding. *)
Lemma annuity_step_continuous (r t c : R) (f n : Z) :
  0 <= r -> 0 <= t -> 0 <= c -> (0 <= f)%Z ->
  step_ok overflow3
    (annuity_future_value (PyFloat (Fin r)) (PyFloat (Fin t))
       (PyFloat (Fin c)) f true n)
    (annuity_post (c * IZR f * t) True).
Proof.
  intros Hr Ht Hc Hf. unfold annuity_future_value, annuity_post.
  destruct (annuity_guard c t f Hc Ht Hf)
    as [(-> & Hc0 & Hf1 & Ht0)|(-> & E)].
  2:{ apply step_ok_next. cbn [fst snd xv].
      split; [apply plain_zero|]. split; [apply plain_zero|].
      split; [right; f_equal; lra|].
      exists 0. split; [apply exact_refl|]. split; [lra|]. intros _. lra. }
  assert (Hf' : 1 <= IZR f) by (apply IZR_le; exact Hf1).
  assert (Hcf : 0 < c * IZR f) by (apply Rmult_lt_0_compat; lra).
  apply total_contributions_ok; try assumption.
  intros tc Htc.
  eapply step_ok_bind.
  { apply step_ok_lift.
    apply (res_ok_mul_int c (Fin c) f (exact_refl c) Hc0 Hf1). }
  intros annual (e & -> & He).
  unfold py_eq at 1. cbn [xv xeq].
  destruct (Req_dec_T r 0) as [Hr0|Hr0].
  - rewrite py_mul_float. cbn [lift fbind].
    apply step_ok_next. cbn [fst snd xv].
    split; [apply plain_float|]. split; [apply plain_float|].
    split; [exact Htc|].
    exists (c * IZR f * t). split.
    + apply exact_xmul; [exact He|apply exact_refl|lra|lra].
    + split; [|intros _; lra].
      apply Rmult_le_pos; lra.
  - rewrite py_mul_float. cbn [lift fbind].
    destruct (rt_check r t Hr Ht) as [->|(-> & -> & Hrt)];
      [apply step_ok_ret|].
    eapply step_ok_bind; [apply step_ok_lift, res_ok_exp|].
    intros ex ->.
    unfold py_sub, arith. rewrite to_float_one. cbn [to_float bind lift fbind].
    rewrite py_mul_float. cbn [lift fbind].
    assert (Hrt0 : 0 < r * t) by (apply Rmult_lt_0_compat; lra).
    pose proof (exp_ineq1 (r * t) ltac:(lra)) as Hexp.
    set (X := exp (r * t)) in *.
    assert (Hd : exact_or_inf (X + -1) (xsub (Fin X) (Fin 1))).
    { unfold xsub. cbn [xneg].
      apply exact_xadd; [apply exact_refl|apply exact_refl|lra]. }
    pose proof (exact_xmul _ _ _ _ He Hd Hcf ltac:(lra)) as Hm.
    unfold py_div. cbn [to_float bind].
    assert (Hm0 : 0 <= c * IZR f * (X + -1)) by (apply Rmult_le_pos; lra).
    destruct (exact_xdiv _ r _ Hm Hm0 ltac:(lra)) as (av & -> & Hav).
    cbn [lift fbind].
    apply step_ok_next. cbn [fst snd xv].
    split; [apply plain_float|]. split; [apply plain_float|].
    split; [exact Htc|].
    eexists. split; [exact Hav|].
    assert (Hy : c * IZR f * t <= c * IZR f * (X + -1) / r).
    { apply (Rmult_le_reg_r r); [lra|].
      replace (c * IZR f * (X + -1) / r * r) with (c * IZR f * (X + -1))
        by (field; lra).
      assert (c * IZR f * (r * t) <= c * IZR f * (X + -1))
        by (apply Rmult_le_compat_l; lra).
      lra. }
    split; [|intros _; exact Hy].
    assert (0 <= c * IZR f * t) by (apply Rmult_le_pos; lra). lra.
Qed.

(** Step 2 without contributions. *)
Lemma annuity_step_none (rate time : num) (ic : bool) (n : Z) :
  step_ok overflow3 (annuity_future_value rate time (PyInt 0) 0 ic n)
    (annuity_post 0 True).
Proof.
  unfold annuity_future_value, py_gt. cbn [xv xlt].
  destruct (Rlt_dec 0 0); [lra|]. cbn [andb].
  apply step_ok_next. unfold annuity_post. cbn [fst snd xv].
  split; [apply plain_zero|]. split; [apply plain_zero|].
  split; [apply exact_refl|].
  exists 0. split; [apply exact_refl|]. split; [lra|]. intros _. lra.
Qed.

(** The argument checks pass on non-negative float arguments. *)
Lemma future_value_valid (P r t : R) (ct ca : pyval) (amount : num) (f : Z) :
  0 <= P -> 0 <= r -> 0 <= t ->
  as_number ca = Some amount -> py_lt amount (PyInt 0) = false ->
  (0 <= f)%Z ->
  future_value_with_contributions (float P) (float r) (float t) ct ca (VInt f)
  = (mode <- compound_mode ct ;;
     let '(is_continuous, n_compound) := mode in
     future_value_handlers
       (future_value_body (PyFloat (Fin P)) (PyFloat (Fin r))
          (PyFloat (Fin t)) amount f is_continuous n_compound)).
Proof.
  intros HP Hr Ht Ha Hlt Hf.
  unfold future_value_with_contributions, float. cbn [as_number as_int].
  rewrite Ha, Hlt. unfold py_lt. cbn [xv xlt].
  destruct (Rlt_dec P 0); [lra|].
  destruct (Rlt_dec r 0); [lra|].
  destruct (Rlt_dec t 0); [lra|].
  destruct (Z.ltb_spec f 0); [lia|]. reflexivity.
Qed.

Lemma py_lt_float_zero (c : R) :
  0 <= c -> py_lt (PyFloat (Fin c)) (PyInt 0) = false.
Proof.
  intros Hc. unfold py_lt. cbn [xv xlt].
  destruct (Rlt_dec c 0); [lra|reflexivity].
Qed.

Lemma py_lt_zero_zero : py_lt (PyInt 0) (PyInt 0) = false.
Proof.
  unfold py_lt. cbn [xv xlt]. destruct (Rlt_dec 0 0); [lra|reflexivity].
Qed.

Lemma compound_mode_int (n : Z) :
  (1 <= n)%Z -> compound_mode (VInt n) = Return (false, n).
Proof.
  intros Hn. unfold compound_mode. cbn [as_int].
  destruct (Z.leb_spec n 0); [lia|reflexivity].
Qed.

Lemma compound_mode_continuous :
  compound_mode (VStr "continuously") = Return (true, 1%Z).
Proof. reflexivity. Qed.

(** *** The older function *)

Lemma math_log_positive (b : R) (x : xfloat) :
  exact_or_inf b x -> 0 < b ->
  exists lx, math_log (PyFloat x) = Return lx /\ exact_or_inf (ln b) lx.
Proof.
  intros [->| ->] Hb; unfold math_log; cbn [xv].
  - exists PInf. split; [reflexivity|left; reflexivity].
  - destruct (Rlt_dec 0 b); [|lra].
    eexists. split; [reflexivity|right; reflexivity].
Qed.

Lemma py_gt_positive (b : R) (x : xfloat) (k : Z) :
  exact_or_inf b x -> IZR k < b -> py_gt (PyFloat x) (PyInt k) = true.
Proof.
  intros Hx Hb. unfold py_gt. cbn [xv]. eapply exact_gt; eassumption.
Qed.

(** The discrete branch of [compound_interest] up to the product
    [principal * base ** exponent]. *)
Lemma compound_step_discrete (P r t : R) (n : Z) :
  0 <= P -> 0 <= r -> 0 <= t -> (1 <= n)%Z ->
  step_ok overflow2
    (q <! py_div (PyFloat (Fin r)) (PyInt n) ;;
     let base := xadd (Fin 1) q in
     exponent <! py_mul (PyInt n) (PyFloat (Fin t)) ;;
     lb <! math_log (if py_gt (PyFloat base) (PyInt 0)
                     then PyFloat base else PyInt 1) ;;
     est <! py_mul exponent (PyFloat lb) ;;
     if py_gt est (PyInt 700) then Ret overflow2
     else
       pw <! py_pow base exponent ;;
       v <! py_mul (PyFloat (Fin P)) (PyFloat pw) ;;
       Next v)
    (fun v => exists x, v = PyFloat x /\ forall a, x = Fin a -> P <= a).
Proof.
  intros HP Hr Ht Hn.
  assert (Hn' : 1 <= IZR n) by (apply IZR_le; exact Hn).
  assert (Hq0 : 0 <= r / IZR n).
  { apply Rmult_le_pos; [lra|]. left. apply Rinv_0_lt_compat. lra. }
  assert (Hnt : 0 <= IZR n * t) by (apply Rmult_le_pos; lra).
  eapply step_ok_bind.
  { apply step_ok_lift.
    apply (res_ok_div_int r (Fin r) n (exact_refl r) Hr Hn). }
  intros q Hq. cbv zeta.
  pose proof (exact_xadd 1 (r / IZR n) (Fin 1) q (exact_refl 1) Hq
                ltac:(lra)) as Hbase.
  set (base := xadd (Fin 1) q) in *.
  eapply step_ok_bind.
  { apply step_ok_lift.
    apply (res_ok_int_mul n t (Fin t) Hn (exact_refl t) Ht). }
  intros ev (e & -> & He).
  rewrite (py_gt_positive (1 + r / IZR n) base 0 Hbase ltac:(lra)).
  destruct (math_log_positive _ _ Hbase ltac:(lra)) as (lb & -> & _).
  cbn [lift fbind]. rewrite py_mul_float. cbn [lift fbind].
  destruct (py_gt _ (PyInt 700)); [apply step_ok_ret|].
  eapply step_ok_bind.
  { apply step_ok_lift. unfold py_pow. cbn [to_float bind].
    apply (res_ok_float_pow _ _ _ _ Hbase He ltac:(lra) Hnt). }
  intros pw Hpw. rewrite py_mul_float. cbn [lift fbind].
  apply step_ok_next. eexists. split; [reflexivity|].
  intros a Ea.
  pose proof (Rpower_ge_1 (1 + r / IZR n) (IZR n * t) ltac:(lra) Hnt) as Hge.
  destruct Hpw as [->| ->]; cbn [xmul] in Ea.
  - unfold inf_times in Ea.
    destruct (Req_dec_T P 0); [discriminate|].
    destruct (Rlt_dec 0 P); discriminate.
  - apply fround_Fin in Ea. subst a. nra.
Qed.

Lemma fbind_cases {V A B : Type} (s : V) (m : flow V A)
    (k : A -> flow V B) (Q : A -> Prop) (R : flow V B -> Prop) :
  step_ok s m Q -> (forall a, Q a -> R (k a)) ->
  R (Ret s) -> R (Exc OverflowError) -> R (fbind m k).
Proof.
  intros [[->| ->]|(a & -> & Ha)] Hk Hr He; simpl; auto.
Qed.

Lemma compound_interest_discrete_post (P r t : R) (n : Z) (res : pair) :
  0 <= P -> 0 <= r -> 0 <= t -> (1 <= n)%Z ->
  compound_interest (float P) (float r) (float t) (VInt n) (VInt 1)
  = Return res ->
  forall a, xv (fst res) = Fin a -> P <= a.
Proof.
  intros HP Hr Ht Hn.
  unfold compound_interest, float. cbn [as_number].
  unfold py_lt. cbn [xv xlt].
  destruct (Rlt_dec P 0); [lra|].
  destruct (Rlt_dec r 0); [lra|].
  destruct (Rlt_dec t 0); [lra|].
  unfold compound_times. cbn [as_int].
  destruct (Z.leb_spec n 0); [lia|]. cbn [bind].
  unfold compound_interest_body.
  eapply (fbind_cases overflow2) with
    (R := fun m => compound_interest_handlers m = Return res ->
                   forall a, xv (fst res) = Fin a -> P <= a).
  - apply (compound_step_discrete P r t n HP Hr Ht Hn).
  - intros v (x & -> & Hx).
    unfold py_sub, arith. cbn [to_float bind lift fbind].
    simpl. intros Hres. injection Hres as <-. exact Hx.
  - simpl. intros Hres a. injection Hres as <-. discriminate.
  - simpl. intros Hres a. injection Hres as <-. discriminate.
Qed.

(** *** Short circuits *)

Lemma ln_gt_0 (b : R) : 1 < b -> 0 < ln b.
Proof. intros Hb. rewrite <- ln_1. apply ln_increasing; lra. Qed.

Lemma ln_ge_0 (b : R) : 1 <= b -> 0 <= ln b.
Proof.
  intros Hb. destruct (Req_dec_T b 1) as [->|Hne]; [rewrite ln_1; lra|].
  left. apply ln_gt_0. lra.
Qed.

(** The heuristic check returns the sentinel once its guard holds and
    the estimate exceeds 700. *)
Lemma heuristic_check_fires (P b y : R) (base e : xfloat) :
  0 < P -> exact_or_inf b base -> exact_or_inf y e ->
  10000 < y -> 1.00001 < b -> 700 < ln P + y * ln b ->
  heuristic_check (PyFloat (Fin P)) base (PyFloat e) = Ret overflow3.
Proof.
  intros HP Hb Hy Hy1 Hb1 Hest. unfold heuristic_check.
  rewrite (py_gt_positive y e 10000 Hy Hy1).
  assert (Eg : py_gt (PyFloat base) (PyFloat (Fin 1.00001)) = true).
  { unfold py_gt. cbn [xv]. eapply exact_gt; eassumption. }
  rewrite Eg. cbn [andb]. unfold log_estimate.
  rewrite (py_gt_positive P (Fin P) 0 (exact_refl P) HP).
  destruct (math_log_positive P (Fin P) (exact_refl P) HP) as (lp & -> & Hlp).
  cbn [bind].
  rewrite (py_gt_positive b base 1 Hb ltac:(lra)).
  destruct (math_log_positive b base Hb ltac:(lra)) as (lb & -> & Hlb).
  cbn [bind]. rewrite py_mul_float. cbn [bind]. rewrite py_add_float.
  pose proof (ln_gt_0 b ltac:(lra)) as Hln.
  pose proof (exact_xmul _ _ _ _ Hy Hlb ltac:(lra) Hln) as Hm.
  pose proof (exact_xadd _ _ _ _ Hlp Hm ltac:(lra)) as Hs.
  rewrite (py_gt_positive _ _ 700 Hs Hest). reflexivity.
Qed.

Lemma step_ok_False {V A : Type} (s : V) (m : flow V A) :
  step_ok s m (fun _ => False) -> overflowed s m.
Proof. intros [H|(a & _ & [])]. exact H. Qed.

Lemma principal_short_circuit_discrete (P r t : R) (n : Z) :
  0 < P -> 0 <= r -> 0 <= t -> (1 <= n)%Z ->
  10000 < IZR n * t -> 1.00001 < 1 + r / IZR n ->
  700 < estimated_log P r t n ->
  overflowed overflow3
    (principal_future_value (PyFloat (Fin P)) (PyFloat (Fin r))
       (PyFloat (Fin t)) false n).
Proof.
  intros HP Hr Ht Hn Hguard1 Hguard2 Hest. apply step_ok_False.
  unfold principal_future_value.
  rewrite (py_gt_positive P (Fin P) 0 (exact_refl P) HP).
  destruct (Z.leb_spec n 0) as [Hn0|_]; [lia|].
  unfold py_eq at 1. cbn [xv xeq].
  assert (Hn' : 1 <= IZR n) by (apply IZR_le; exact Hn).
  destruct (Req_dec_T r 0) as [Hr0|Hr0].
  { exfalso. rewrite Hr0 in Hguard2. unfold Rdiv in Hguard2. lra. }
  eapply step_ok_bind.
  { apply step_ok_lift.
    apply (res_ok_div_int r (Fin r) n (exact_refl r) Hr Hn). }
  intros q Hq. cbv zeta.
  pose proof (exact_xadd 1 (r / IZR n) (Fin 1) q (exact_refl 1) Hq
                ltac:(lra)) as Hbase.
  eapply step_ok_bind.
  { apply step_ok_lift.
    apply (res_ok_int_mul n t (Fin t) Hn (exact_refl t) Ht). }
  intros ev (e & -> & He).
  rewrite (heuristic_check_fires P _ _ _ e HP Hbase He Hguard1 Hguard2 Hest).
  apply step_ok_ret.
Qed.

Lemma growth_short_circuit_discrete (P r t : R) (n : Z) :
  0 < P -> 0 <= r -> 0 <= t -> (1 <= n)%Z ->
  10000 < IZR n * t -> 1.00001 < 1 + r / IZR n ->
  700 < estimated_log P r t n ->
  computeGrowth (float P) (float r) (float t) (VInt n) = Return overflow3.
Proof.
  intros HP Hr Ht Hn Hguard1 Hguard2 Hest. unfold computeGrowth.
  rewrite (future_value_valid P r t _ _ (PyInt 0) 0) by
    (try lra; try lia; try reflexivity; apply py_lt_zero_zero).
  rewrite compound_mode_int by exact Hn. cbn [bind].
  unfold future_value_body.
  destruct (principal_short_circuit_discrete P r t n HP Hr Ht Hn Hguard1
              Hguard2 Hest) as [->| ->]; reflexivity.
Qed.

Lemma growth_short_circuit_continuous (P r t : R) :
  0 < P -> 0 < r -> 0 <= t -> 700 < r * t ->
  computeGrowth (float P) (float r) (float t) (VStr "continuously")
  = Return overflow3.
Proof.
  intros HP Hr Ht Hrt. unfold computeGrowth.
  rewrite (future_value_valid P r t _ _ (PyInt 0) 0) by
    (try lra; try lia; try reflexivity; apply py_lt_zero_zero).
  rewrite compound_mode_continuous. cbn [bind].
  unfold future_value_body, principal_future_value.
  rewrite (py_gt_positive P (Fin P) 0 (exact_refl P) HP).
  unfold py_eq at 1. cbn [xv xeq].
  destruct (Req_dec_T r 0); [lra|].
  rewrite py_mul_float. cbn [lift fbind].
  destruct (rt_check r t ltac:(lra) Ht) as [->|(_ & _ & Hle)];
    [reflexivity|lra].
Qed.

Lemma old_short_circuit_continuous (P r t : R) :
  0 <= P -> 0 < r -> 0 <= t -> 700 < r * t ->
  compound_interest (float P) (float r) (float t) (VStr "continuously")
    (VInt 1)
  = Return overflow2.
Proof.
  intros HP Hr Ht Hrt.
  unfold compound_interest, float. cbn [as_number].
  unfold py_lt. cbn [xv xlt].
  destruct (Rlt_dec P 0); [lra|].
  destruct (Rlt_dec r 0); [lra|].
  destruct (Rlt_dec t 0); [lra|].
  change (compound_times (VStr "continuously") (VInt 1)) with
    (@Return (option Z) None).
  cbn [bind]. unfold compound_interest_body.
  unfold py_eq at 1. cbn [xv xeq].
  destruct (Req_dec_T r 0); [lra|].
  rewrite py_mul_float. cbn [lift fbind].
  destruct (rt_check r t ltac:(lra) Ht) as [->|(_ & _ & Hle)];
    [reflexivity|lra].
Qed.

Lemma old_short_circuit_discrete (P r t : R) (n : Z) :
  0 <= P -> 0 <= r -> 0 <= t -> (1 <= n)%Z ->
  700 < IZR n * t * ln (1 + r / IZR n) ->
  compound_interest (float P) (float r) (float t) (VInt n) (VInt 1)
  = Return overflow2.
Proof.
  intros HP Hr Ht Hn Hest.
  assert (Hn' : 1 <= IZR n) by (apply IZR_le; exact Hn).
  assert (Hq0 : 0 <= r / IZR n).
  { apply Rmult_le_pos; [lra|]. left. apply Rinv_0_lt_compat. lra. }
  assert (Hnt : 0 <= IZR n * t) by (apply Rmult_le_pos; lra).
  pose proof (ln_ge_0 (1 + r / IZR n) ltac:(lra)) as Hln.
  assert (Hnt' : 0 < IZR n * t).
  { destruct (Req_dec_T (IZR n * t) 0) as [E|E]; [rewrite E in Hest|]; lra. }
  assert (Hln' : 0 < ln (1 + r / IZR n)).
  { destruct (Req_dec_T (ln (1 + r / IZR n)) 0) as [E|E];
      [rewrite E in Hest|]; lra. }
  unfold compound_interest, float. cbn [as_number].
  unfold py_lt. cbn [xv xlt].
  destruct (Rlt_dec P 0); [lra|].
  destruct (Rlt_dec r 0); [lra|].
  destruct (Rlt_dec t 0); [lra|].
  unfold compound_times. cbn [as_int].
  destruct (Z.leb_spec n 0); [lia|]. cbn [bind].
  unfold compound_interest_body.
  eapply (fbind_cases overflow2) with (Q := fun _ => False)
    (R := fun m => compound_interest_handlers m = Return overflow2);
    [|intros _ []|reflexivity|reflexivity].
  eapply step_ok_bind.
  { apply step_ok_lift.
    apply (res_ok_div_int r (Fin r) n (exact_refl r) Hr Hn). }
  intros q Hq. cbv zeta.
  pose proof (exact_xadd 1 (r / IZR n) (Fin 1) q (exact_refl 1) Hq
                ltac:(lra)) as Hbase.
  set (base := xadd (Fin 1) q) in *.
  eapply step_ok_bind.
  { apply step_ok_lift.
    apply (res_ok_int_mul n t (Fin t) Hn (exact_refl t) Ht). }
  intros ev (e & -> & He).
  rewrite (py_gt_positive (1 + r / IZR n) base 0 Hbase ltac:(lra)).
  destruct (math_log_positive _ _ Hbase ltac:(lra)) as (lb & -> & Hlb).
  cbn [lift fbind]. rewrite py_mul_float. cbn [lift fbind].
  pose proof (exact_xmul _ _ _ _ He Hlb Hnt' Hln') as Hm.
  rewrite (py_gt_positive _ _ 700 Hm Hest). apply step_ok_ret.
Qed.

(** *** Amounts beyond the float range *)

Lemma growth_discrete_ge (P r t : R) (n : Z) :
  0 <= P -> 0 <= r -> 0 <= t -> (1 <= n)%Z ->
  P <= discrete_growth P r t n.
Proof.
  intros HP Hr Ht Hn. unfold discrete_growth.
  assert (Hn' : 1 <= IZR n) by (apply IZR_le; exact Hn).
  assert (Hq0 : 0 <= r / IZR n).
  { apply Rmult_le_pos; [lra|]. left. apply Rinv_0_lt_compat. lra. }
  assert (Hnt : 0 <= IZR n * t) by (apply Rmult_le_pos; lra).
  pose proof (Rpower_ge_1 (1 + r / IZR n) (IZR n * t) ltac:(lra) Hnt).
  nra.
Qed.

Lemma growth_continuous_ge (P r t : R) :
  0 <= P -> 0 <= r -> 0 <= t -> P <= continuous_growth P r t.
Proof.
  intros HP Hr Ht. unfold continuous_growth.
  assert (0 <= r * t) by (apply Rmult_le_pos; assumption).
  pose proof (exp_ge_1 (r * t) ltac:(lra)). nra.
Qed.

Lemma annuity_none (rate time : num) (ic : bool) (n : Z) :
  annuity_future_value rate time (PyInt 0) 0 ic n = Next (PyInt 0, PyInt 0).
Proof.
  unfold annuity_future_value, py_gt. cbn [xv xlt].
  destruct (Rlt_dec 0 0); [lra|]. reflexivity.
Qed.

(** Without contributions, a principal term whose exact value is beyond
    the float range ends in the sentinel: by a short circuit, by the
    [OverflowError] handler or by the final test on infinity. *)
Lemma future_value_body_overflow (P w : R) (rate time : num) (ic : bool)
    (n : Z) :
  FLOAT_LIMIT <= w ->
  step_ok overflow3
    (principal_future_value (PyFloat (Fin P)) rate time ic n)
    (principal_post w) ->
  future_value_handlers
    (future_value_body (PyFloat (Fin P)) rate time (PyInt 0) 0 ic n)
  = Return overflow3.
Proof.
  intros Hw Hp. pose proof FLOAT_LIMIT_pos as HL. unfold future_value_body.
  destruct Hp as [[->| ->]|(v & -> & Hv & Hx)]; cbn [fbind];
    [reflexivity|reflexivity|].
  rewrite annuity_none. cbn [fbind].
  assert (Es : py_add v (PyInt 0) = Return (PyFloat PInf)).
  { destruct Hv as [->|[x ->]]; cbn [xv] in Hx.
    - apply exact_fin in Hx. lra.
    - unfold py_add, arith. rewrite to_float_zero. cbn [to_float bind].
      do 2 f_equal.
      destruct Hx as [->| ->]; cbn [xadd]; [reflexivity|].
      unfold fround.
      destruct (Rle_dec FLOAT_LIMIT (w + 0)); [reflexivity|lra]. }
  rewrite Es. cbn [lift fbind].
  destruct (py_sub_plain (PyFloat PInf) (PyFloat (Fin P)) (plain_float _)
              (plain_float _)) as (d & -> & Hd).
  cbn [lift fbind].
  destruct (py_sub_plain d (PyInt 0) Hd plain_zero) as (d' & -> & _).
  cbn [lift fbind]. reflexivity.
Qed.

Lemma growth_overflow_discrete (P r t : R) (n : Z) :
  0 <= P -> 0 <= r -> 0 <= t -> (1 <= n)%Z ->
  FLOAT_LIMIT <= discrete_growth P r t n ->
  computeGrowth (float P) (float r) (float t) (VInt n) = Return overflow3.
Proof.
  intros HP Hr Ht Hn Hw. unfold computeGrowth.
  rewrite (future_value_valid P r t _ _ (PyInt 0) 0) by
    (try assumption; try lia; try reflexivity; apply py_lt_zero_zero).
  rewrite compound_mode_int by exact Hn. cbn [bind].
  apply (future_value_body_overflow P _ _ _ _ _ Hw).
  apply principal_step_discrete; assumption.
Qed.

Lemma growth_overflow_continuous (P r t : R) :
  0 <= P -> 0 <= r -> 0 <= t ->
  FLOAT_LIMIT <= continuous_growth P r t ->
  computeGrowth (float P) (float r) (float t) (VStr "continuously")
  = Return overflow3.
Proof.
  intros HP Hr Ht Hw. unfold computeGrowth.
  rewrite (future_value_valid P r t _ _ (PyInt 0) 0) by
    (try assumption; try lia; try reflexivity; apply py_lt_zero_zero).
  rewrite compound_mode_continuous. cbn [bind].
  apply (future_value_body_overflow P _ _ _ _ _ Hw).
  apply principal_step_continuous; assumption.
Qed.

(** ** The claims about the growth engines *)







(** * Further properties *)

(** ** The schedule *)

Lemma sum_interest_snoc (rows : list row) (r : row) :
  sum_interest (rows ++ [r]) = sum_interest rows + interest_paid r.
Proof.
  unfold sum_interest. rewrite map_app, fold_left_app. reflexivity.
Qed.

Lemma sum_payment_snoc (rows : list row) (r : row) :
  sum_payment (rows ++ [r]) = sum_payment rows + payment r.
Proof.
  unfold sum_payment. rewrite map_app, fold_left_app. reflexivity.
Qed.

Lemma sum_payment_balanced (rows : list row) :
  Forall row_balanced rows ->
  sum_payment rows = sum_principal rows + sum_interest rows.
Proof.
  induction rows as [|r rows IH] using rev_ind; intros H.
  - unfold sum_payment, sum_principal, sum_interest. simpl. lra.
  - apply Forall_app in H. destruct H as [Hrows Hr].
    inversion Hr as [|? ? Hb _]; subst.
    rewrite sum_payment_snoc, sum_principal_snoc, sum_interest_snoc.
    rewrite (IH Hrows). unfold row_balanced in Hb. lra.
Qed.

Section BooksFacts.

Variables (rp extra r cap : R).

Lemma books_init (P : R) : books rp extra r (mkState [] P 0 0 (rp + extra)).
Proof. constructor; simpl; auto. Qed.

Lemma books_exit (st : loop_state) :
  books rp extra r st -> loop_test cap st = false ->
  books_closed rp extra r st.
Proof.
  intros [Hi Hn Hr Hp Hf] _. constructor; auto.
  - apply Forall_removelast. exact Hf.
  - eapply Forall_impl; [|exact Hf]. simpl. intros; lra.
Qed.

Lemma books_step (st : loop_state) :
  books rp extra r st -> loop_test cap st = true ->
  let '(st', stop) := loop_body rp extra r st in
  if stop then books_closed rp extra r st' else books rp extra r st'.
Proof.
  intros [Hi Hn Hr Hp Hf] _.
  rewrite loop_body_eq. cbv zeta.
  set (B := current_balance st) in *.
  set (pp := Rmin B (total_payment st - B * r)).
  assert (Hle : pp + B * r <= rp + extra).
  { pose proof (Rmin_r B (total_payment st - B * r)). fold pp in H. lra. }
  assert (Hnum : map payment_no
                   (schedule st ++
                    [mkRow (S (payment_num st)) B (pp + B * r) pp (B * r)
                       (B - pp)])
                 = seq 1 (S (payment_num st))).
  { rewrite map_app, Hn, seq_S. reflexivity. }
  destruct (Rle_dec (B - pp) 0.01) as [Hstop|Hgo]; constructor;
    cbn [schedule current_balance payment_num total_payment
         total_interest_paid].
  - rewrite sum_interest_snoc, Hi. reflexivity.
  - exact Hnum.
  - apply Forall_snoc; [exact Hr | reflexivity].
  - rewrite removelast_last. exact Hf.
  - apply Forall_snoc; [|exact Hle].
    eapply Forall_impl; [|exact Hf]. simpl. intros; lra.
  - rewrite sum_interest_snoc, Hi. reflexivity.
  - exact Hnum.
  - apply Forall_snoc; [exact Hr | reflexivity].
  - reflexivity.
  - apply Forall_snoc; [exact Hf|]. simpl.
    unfold pp, Rmin in *.
    destruct (Rle_dec B (total_payment st - B * r)); lra.
Qed.

Lemma while_loop_books (P : R) (fuel : nat) (st : loop_state) :
  while_loop rp extra r cap fuel (mkState [] P 0 0 (rp + extra)) = Some st ->
  books_closed rp extra r st.
Proof.
  apply (while_loop_inv rp extra r cap (books rp extra r)
           (books_closed rp extra r)).
  - apply books_exit.
  - apply books_step.
  - apply books_init.
Qed.

End BooksFacts.

(** The books behind every returned schedule of a positive principal. *)
Lemma calculate_amortization_books (P a y p e : R) (rows : list row)
    (rest : list pyobj) :
  0 < P ->
  calculate_amortization P a y p e = Some (Return (DataFrame rows :: rest)) ->
  exists rp st,
    ledger_closed P (y * p * 2) st /\ books_closed rp e (a / p) st /\
    rows = schedule st /\ rows <> [] /\
    rest = [Num rp; Num (sum_payment rows);
            Num (total_interest_paid st); Num (INR (payment_num st))].
Proof.
  intros HP H.
  destruct (calculate_amortization_inv P a y p e rows rest HP H)
    as (rp0 & rp & st & _ & _ & Hrun & Hrows & Hne & Hrest).
  exists rp, st.
  split; [eapply while_loop_ledger; exact Hrun|].
  split; [eapply while_loop_books; exact Hrun|auto].
Qed.

Lemma five_tuple_positive (P a y p e : R) (rows : list row)
    (rp tp ti pc : R) :
  calculate_amortization P a y p e
  = Some (Return [DataFrame rows; Num rp; Num tp; Num ti; Num pc]) ->
  0 < P.
Proof.
  intros H. destruct (Rle_dec P 0) as [HP|HP]; [|lra].
  rewrite calculate_amortization_nonpositive in H by exact HP. discriminate.
Qed.

(** The totals of every returned result. *)
Lemma returned_totals (P a y p e : R) (rows : list row)
    (rp tp ti pc : R) :
  calculate_amortization P a y p e
  = Some (Return [DataFrame rows; Num rp; Num tp; Num ti; Num pc]) ->
  tp = sum_payment rows /\
  ti = sum_interest rows /\
  tp = sum_principal rows + ti /\
  tp = P - final_balance P rows + ti.
Proof.
  intros H. pose proof (five_tuple_positive _ _ _ _ _ _ _ _ _ _ H) as HP.
  destruct (calculate_amortization_books P a y p e _ _ HP H)
    as (rp' & st & L & K & -> & _ & Hrest).
  injection Hrest as _ -> -> _.
  destruct L as [_ Hfin Hbal _ _ _ Hsum _ _].
  destruct K as [Hi _ _ _ _].
  rewrite Hfin, <- Hsum, <- Hi.
  rewrite (sum_payment_balanced _ Hbal), <- Hi. auto.
Qed.





(** What a positive principal with invalid or tiny inputs ends in. *)
Lemma calculate_amortization_raises (P a y p e : R) :
  0 < P ->
  (a < 0 ->
   calculate_amortization P a y p e
   = Some (Raise (ValueError "Annual rate cannot be negative."))) /\
  (0 <= a -> y <= 0 ->
   calculate_amortization P a y p e
   = Some (Raise (ValueError "Loan term must be positive."))) /\
  (0 <= a -> 0 < y -> p <= 0 ->
   calculate_amortization P a y p e
   = Some (Raise (ValueError "Payments per year must be positive."))) /\
  (0 <= a -> 0 < y -> 0 < p -> P <= 0.01 ->
   calculate_amortization P a y p e = Some (Raise (KeyError "Payment"))).
Proof.
  intros HP.
  unfold calculate_amortization, calculate_amortization_fuel,
    calculate_loan_payment.
  destruct (Rle_dec P 0); [lra|].
  repeat split; intros.
  - destruct (Rlt_dec a 0); [reflexivity|lra].
  - destruct (Rlt_dec a 0); [lra|].
    destruct (Rle_dec y 0); [reflexivity|lra].
  - destruct (Rlt_dec a 0); [lra|].
    destruct (Rle_dec y 0); [lra|].
    destruct (Rle_dec p 0); [reflexivity|lra].
  - destruct (Rlt_dec a 0); [lra|].
    destruct (Rle_dec y 0); [lra|].
    destruct (Rle_dec p 0); [lra|].
    assert (Hrun : forall rp fuel,
              while_loop rp e (a / p) (y * p * 2) fuel
                (mkState [] P 0 0 (rp + e))
              = Some (mkState [] P 0 0 (rp + e))).
    { intros rp fuel.
      assert (Ht : loop_test (y * p * 2) (mkState [] P 0 0 (rp + e)) = false).
      { unfold loop_test. simpl. destruct (Rlt_dec 0.01 P); [lra|reflexivity]. }
      destruct fuel; simpl; rewrite Ht; reflexivity. }
    destruct (Req_dec_T a 0); cbv zeta; rewrite Hrun; reflexivity.
Qed.

(** X3: for a positive principal calculate_amortization passes on the
    ValueError of calculate_loan_payment (negative rate, then term not
    positive, then payments per year not positive), whatever the extra
    payment; on valid inputs with a principal of at most 0.01 the loop
    makes no pass and the sum over the missing Payment column raises
    KeyError. *)
Theorem amortization_errors (P a y p e : R) :
  0 < P ->
  (a < 0 ->
   calculate_amortization P a y p e
   = Some (Raise (ValueError "Annual rate cannot be negative."))) /\
  (0 <= a -> y <= 0 ->
   calculate_amortization P a y p e
   = Some (Raise (ValueError "Loan term must be positive."))) /\
  (0 <= a -> 0 < y -> p <= 0 ->
   calculate_amortization P a y p e
   = Some (Raise (ValueError "Payments per year must be positive."))) /\
  (0 <= a -> 0 < y -> 0 < p -> P <= 0.01 ->
   calculate_amortization P a y p e = Some (Raise (KeyError "Payment"))).
Proof. apply calculate_amortization_raises. Qed.

Lemma amortization_errors_witness :
  calculate_amortization 0.005 0.05 1 12 0 = Some (Raise (KeyError "Payment")).
Proof.
  apply (amortization_errors 0.005 0.05 1 12 0); lra.
Defined.

(** ** Payoff within the term *)

Section PayoffTime.

Variables (P rp extra r cap n : R).

Hypothesis HP : 0 < P.
Hypothesis Hr : 0 <= r.
Hypothesis Hextra : 0 <= extra.
Hypothesis Hcovers : P * r < rp.
Hypothesis Hpayoff :
  forall k : nat, n <= INR k -> P * (1 + r) ^ k <= rp * annuity_sum (1 + r) k.

Lemma while_loop_within_term (fuel : nat) (st : loop_state) :
  while_loop rp extra r cap fuel (mkState [] P 0 0 (rp + extra)) = Some st ->
  within_term n st.
Proof.
  apply (while_loop_inv rp extra r cap
           (fun st => sound P rp extra r st /\ within_term n st)
           (within_term n)).
  - tauto.
  - intros st0 [Hs Hw] Ht.
    pose proof (sound_step P rp extra r cap Hr Hextra Hcovers st0 Hs Ht)
      as Hstep.
    pose proof (loop_body_payment_num rp extra r st0) as Hpn.
    apply loop_test_true in Ht. destruct Ht as [HB _].
    assert (Hk : INR (payment_num st0) < n).
    { destruct (Rlt_dec (INR (payment_num st0)) n) as [|Hge]; [assumption|].
      assert (Hn : n <= INR (payment_num st0)) by lra.
      specialize (Hpayoff _ Hn). destruct Hs as [_ Hb _ _]. lra. }
    destruct (loop_body rp extra r st0) as [st1 stop]. simpl in Hpn.
    assert (Hw1 : within_term n st1).
    { right. rewrite Hpn, S_INR. lra. }
    destruct stop; [exact Hw1 | split; assumption].
  - split; [apply sound_init; assumption | left; reflexivity].
Qed.

End PayoffTime.



(** ** Extra payments *)

Section ExtraPayments.

Variables (rp r cap : R).

Hypothesis Hr : 0 <= r.

(** Along a run the balance stays non-negative and the interest total
    does not shrink. *)
Lemma while_loop_interest_grows (extra : R) (fuel : nat)
    (st st' : loop_state) :
  0 <= current_balance st ->
  while_loop rp extra r cap fuel st = Some st' ->
  0 <= current_balance st' /\ total_interest_paid st <= total_interest_paid st'.
Proof.
  intros HB.
  apply (while_loop_inv rp extra r cap
           (fun s => 0 <= current_balance s /\
                     total_interest_paid st <= total_interest_paid s)
           (fun s => 0 <= current_balance s /\
                     total_interest_paid st <= total_interest_paid s)).
  - auto.
  - intros s [HBs Hti] _. rewrite loop_body_eq. cbv zeta.
    assert (Hi : 0 <= current_balance s * r) by (apply Rmult_le_pos; lra).
    pose proof (Rmin_l (current_balance s)
                  (total_payment s - current_balance s * r)) as Hm.
    destruct (Rle_dec _ 0.01); simpl; lra.
  - lra.
Qed.

(** The loop with an extra payment, run beside the loop without: from
    the same payment number, a balance and an interest total that are
    not larger, it ends no later and with no more interest. *)
Lemma while_loop_extra_mono (extra : R) (fuel : nat) :
  0 <= extra ->
  forall s0 se s0' se',
    payment_num se = payment_num s0 ->
    0 <= current_balance se <= current_balance s0 ->
    total_interest_paid se <= total_interest_paid s0 ->
    total_payment s0 = rp + 0 ->
    total_payment se = rp + extra ->
    while_loop rp 0 r cap fuel s0 = Some s0' ->
    while_loop rp extra r cap fuel se = Some se' ->
    (payment_num se' <= payment_num s0')%nat /\
    total_interest_paid se' <= total_interest_paid s0' /\
    0 <= current_balance se' /\ 0 <= current_balance s0'.
Proof.
  intros He.
  assert (Hless : forall s0 se s0' fuel0,
            payment_num se = payment_num s0 ->
            0 <= current_balance se <= current_balance s0 ->
            total_interest_paid se <= total_interest_paid s0 ->
            while_loop rp 0 r cap fuel0 s0 = Some s0' ->
            (payment_num se <= payment_num s0')%nat /\
            total_interest_paid se <= total_interest_paid s0' /\
            0 <= current_balance se /\ 0 <= current_balance s0').
  { intros s0 se s0' fuel0 Hpn HB Hti Hrun.
    destruct (while_loop_count _ _ _ _ _ _ _ Hrun) as [Hc _].
    destruct (while_loop_interest_grows 0 fuel0 s0 s0' ltac:(lra) Hrun)
      as [HB' Hti'].
    repeat split; try lra. lia. }
  induction fuel as [|fuel IH];
    intros s0 se s0' se' Hpn HB Hti Htp0 Htpe Hrun0 Hrune.
  - simpl in Hrune. destruct (loop_test cap se) eqn:Hte; [discriminate|].
    injection Hrune as <-. eapply Hless; eauto.
  - cbn [while_loop] in Hrune.
    destruct (loop_test cap se) eqn:Hte.
    2:{ injection Hrune as <-. eapply Hless; eauto. }
    apply loop_test_true in Hte. destruct Hte as [HBe Hke].
    assert (Ht0 : loop_test cap s0 = true).
    { unfold loop_test. rewrite <- Hpn.
      destruct (Rlt_dec 0.01 (current_balance s0)); [|lra].
      destruct (Rlt_dec (INR (payment_num se)) cap); [reflexivity|lra]. }
    cbn [while_loop] in Hrun0. rewrite Ht0 in Hrun0.
    rewrite loop_body_eq in Hrun0, Hrune. cbv zeta in Hrun0, Hrune.
    rewrite Htp0 in Hrun0. rewrite Htpe in Hrune.
    set (B0 := current_balance s0) in *.
    set (Be := current_balance se) in *.
    assert (Hbr : Be * r <= B0 * r) by (apply Rmult_le_compat_r; lra).
    assert (Hier : 0 <= Be * r) by (apply Rmult_le_pos; lra).
    assert (Hnew : 0 <= Be - Rmin Be (rp + extra - Be * r)
                   <= B0 - Rmin B0 (rp + 0 - B0 * r)).
    { unfold Rmin.
      destruct (Rle_dec Be (rp + extra - Be * r));
        destruct (Rle_dec B0 (rp + 0 - B0 * r)); lra. }
    set (ppe := Rmin Be (rp + extra - Be * r)) in *.
    set (pp0 := Rmin B0 (rp + 0 - B0 * r)) in *.
    destruct (Rle_dec (Be - ppe) 0.01) as [Hstop|Hgo].
    + injection Hrune as <-.
      destruct (Rle_dec (B0 - pp0) 0.01).
      * injection Hrun0 as <-. simpl. repeat split; try lra. lia.
      * eapply Hless; [| | |exact Hrun0]; simpl; try lra. lia.
    + destruct (Rle_dec (B0 - pp0) 0.01); [lra|].
      eapply IH; [| | | | |exact Hrun0|exact Hrune]; simpl; try lra. lia.
Qed.

End ExtraPayments.

(** The run with an extra payment beside the run without. *)
Lemma extra_payment_run (P a y p e : R)
    (rows0 rowse : list row) (rp0 tp0 ti0 pc0 rpe tpe tie pce : R) :
  valid_loan P a y p e ->
  calculate_amortization P a y p 0
  = Some (Return [DataFrame rows0; Num rp0; Num tp0; Num ti0; Num pc0]) ->
  calculate_amortization P a y p e
  = Some (Return [DataFrame rowse; Num rpe; Num tpe; Num tie; Num pce]) ->
  rpe = rp0 /\ pce <= pc0 /\ tie <= ti0 /\ tpe <= tp0 + 0.01.
Proof.
  intros Hv H0 He.
  destruct (returned_totals _ _ _ _ _ _ _ _ _ _ H0) as (_ & _ & _ & Et0).
  destruct (returned_totals _ _ _ _ _ _ _ _ _ _ He) as (_ & _ & _ & Ete).
  assert (Hv0 : valid_loan P a y p 0) by (unfold valid_loan in *; lra).
  destruct (valid_loan_run P a y p 0 _ _ Hv0 H0)
    as (_ & st0' & L0 & S0 & E0 & _ & _).
  destruct (valid_loan_run P a y p e _ _ Hv He)
    as (_ & ste' & Le & Se & Ee & _ & _).
  destruct (regular_payment_valid P a y p e Hv) as (rp & Hrp & Hpos & _).
  destruct Hv as (HP & Ha & Hy & Hp & Hex).
  destruct (calculate_amortization_inv P a y p 0 _ _ HP H0)
    as (r0 & r0' & st0 & Hr0 & Er0 & Hrun0 & Hrows0 & _ & Hrest0).
  destruct (calculate_amortization_inv P a y p e _ _ HP He)
    as (r1 & r1' & ste & Hr1 & Er1 & Hrune & Hrowse & _ & Hreste).
  rewrite Hrp in Hr0, Hr1. injection Hr0 as <-. injection Hr1 as <-.
  destruct (Req_dec_T rp 0); [lra|]. subst r0' r1'.
  injection Hrest0 as -> _ -> ->. injection Hreste as -> _ -> ->.
  assert (Hr : 0 <= a / p).
  { apply Rmult_le_pos; [lra|]. left. apply Rinv_0_lt_compat. lra. }
  destruct (while_loop_extra_mono rp (a / p) (y * p * 2) Hr e
              (loop_fuel (y * p * 2)) Hex
              (mkState [] P 0 0 (rp + 0)) (mkState [] P 0 0 (rp + e))
              st0 ste) as (Hpc & Hti & _ & _);
    simpl; try lra; auto.
  split; [reflexivity|]. split; [apply le_INR; exact Hpc|].
  split; [exact Hti|].
  pose proof (ledc_final _ _ _ L0) as F0. rewrite <- E0 in F0.
  pose proof (ledc_final _ _ _ Le) as Fe. rewrite <- Ee in Fe.
  pose proof (sndc_range _ _ S0) as R0.
  pose proof (sndc_range _ _ Se) as Re.
  lra.
Qed.

(** 1000 at 10% over two years, one payment per year, with an extra
    payment that clears the loan at the first payment. *)
Lemma run_two_years_extra :
  calculate_amortization 1000 0.1 2 1 (11000/21)
  = Some (Return
            [DataFrame [mkRow 1 1000 1100 1000 100 0];
             Num (12100/21); Num 1100; Num 100; Num 1]).
Proof.
  apply (calculate_amortization_fuel_stable 1).
  unfold calculate_amortization_fuel, calculate_loan_payment, npf_pmt.
  rewrite Rpower_two_periods.
  repeat decide_R; cbv zeta; repeat decide_R;
  repeat loop_step;
  cbn [schedule current_balance payment_num total_payment total_interest_paid
       app bind payment_column_sum map fold_left payment INR];
  close_eq.
Qed.



(** ** Interest and principal parts *)

Lemma interest_decreasing_of_chain (r : R) (rows : list row) :
  0 <= r ->
  forall b,
    chained b rows ->
    Forall (fun row => ending_balance row
                       = starting_balance row - principal_paid row) rows ->
    Forall (fun row => row_nonneg row /\ 0 < principal_paid row) rows ->
    Forall (fun row => interest_paid row = starting_balance row * r) rows ->
    interest_decreasing rows.
Proof.
  intros Hr.
  induction rows as [|r1 rows IH]; intros b Hch Hrows Hpos Hint; [exact I|].
  destruct rows as [|r2 rows]; [exact I|].
  destruct Hch as [_ Hch]. inversion Hrows as [|? ? He Hrows']; subst.
  inversion Hpos as [|? ? [_ Hp] Hpos']; subst.
  inversion Hint as [|? ? Hi1 Hint']; subst.
  split; [|eapply IH; eauto].
  destruct Hch as [Hs _].
  inversion Hint' as [|? ? Hi2 _]; subst.
  rewrite Hi1, Hi2. apply Rmult_le_compat_r; lra.
Qed.

Lemma interest_decreasing_removelast (rows : list row) :
  interest_decreasing rows -> interest_decreasing (removelast rows).
Proof.
  induction rows as [|r1 rows IH]; intros H; [exact I|].
  destruct rows as [|r2 rows]; [exact I|].
  destruct H as [H12 H]. specialize (IH H).
  change (removelast (r1 :: r2 :: rows))
    with (r1 :: removelast (r2 :: rows)).
  destruct rows as [|r3 rows]; [exact I|].
  change (removelast (r2 :: r3 :: rows))
    with (r2 :: removelast (r3 :: rows)) in *.
  split; assumption.
Qed.

Lemma principal_increasing_of_interest (T : R) (rows : list row) :
  interest_decreasing rows ->
  Forall (fun row => payment row = T) rows ->
  Forall row_balanced rows ->
  principal_increasing rows.
Proof.
  induction rows as [|r1 rows IH]; intros Hint Hpay Hbal; [exact I|].
  destruct rows as [|r2 rows]; [exact I|].
  destruct Hint as [H12 Hint].
  inversion Hpay as [|? ? Hp1 Hpay']; subst.
  inversion Hbal as [|? ? Hb1 Hbal']; subst.
  split; [|apply IH; assumption].
  inversion Hpay' as [|? ? Hp2 _]; subst.
  inversion Hbal' as [|? ? Hb2 _]; subst.
  unfold row_balanced in *. lra.
Qed.





(** *** The full term *)

Lemma scheduled_balance_S (P rp r : R) (k : nat) :
  scheduled_balance P rp r (S k)
  = scheduled_balance P rp r k * (1 + r) - rp.
Proof. unfold scheduled_balance. simpl. ring. Qed.

(** Before the last payment the scheduled balance is at least the
    principal part of the last payment. *)
Lemma scheduled_balance_lower (P rp r : R) (n : nat) :
  0 <= r -> 0 < rp -> scheduled_balance P rp r n = 0 ->
  forall k : nat, (k < n)%nat -> rp / (1 + r) <= scheduled_balance P rp r k.
Proof.
  intros Hr Hrp Hn k Hk.
  assert (Hx : 0 < / (1 + r)) by (apply Rinv_0_lt_compat; lra).
  assert (Hq : 0 < rp / (1 + r)) by (apply Rmult_lt_0_compat; assumption).
  remember (n - S k)%nat as d eqn:Ed.
  revert k Hk Ed. induction d as [|d IH]; intros k Hk Ed.
  - assert (E : n = S k) by lia. subst n.
    rewrite scheduled_balance_S in Hn.
    replace (scheduled_balance P rp r k) with (rp / (1 + r)); [lra|].
    field_simplify_eq; lra.
  - assert (Hk' : (S k < n)%nat) by lia.
    specialize (IH (S k) Hk' ltac:(lia)).
    rewrite scheduled_balance_S in IH.
    set (B := scheduled_balance P rp r k) in *.
    assert (HB : rp / (1 + r) + rp <= B * (1 + r)) by lra.
    apply (Rmult_le_reg_r (1 + r)); [lra|].
    replace (rp / (1 + r) * (1 + r)) with rp by (field; lra). lra.
Qed.

(** The regular payment clears the loan in exactly [n] payments. *)
Lemma regular_payment_clears (P a y p e rp : R) (n : nat) :
  valid_loan P a y p e -> y * p = INR n ->
  calculate_loan_payment P a y p = Return rp ->
  scheduled_balance P rp (a / p) n = 0.
Proof.
  intros (HP & Ha & Hy & Hp & He) Hn.
  assert (Hyp : 0 < y * p) by (apply Rmult_lt_0_compat; lra).
  unfold calculate_loan_payment, scheduled_balance.
  destruct (Rle_dec P 0); [lra|].
  destruct (Rlt_dec a 0); [lra|].
  destruct (Rle_dec y 0); [lra|].
  destruct (Rle_dec p 0); [lra|].
  destruct (Req_dec_T a 0) as [E|E]; intros H; injection H as <-.
  - subst a. replace (1 + 0 / p) with 1 by (unfold Rdiv; ring).
    rewrite pow1, annuity_sum_one, Hn. field. lra.
  - cbv zeta.
    assert (Hr : 0 < a / p) by (apply Rdiv_lt_0_compat; lra).
    rewrite npf_pmt_value by assumption.
    rewrite Hn, Rpower_pow by lra.
    rewrite annuity_sum_closed by lra.
    assert (HX : 1 < (1 + a / p) ^ n).
    { rewrite <- Rpower_pow by lra. apply Rpower_gt_1; lra. }
    set (X := (1 + a / p) ^ n) in *.
    field. split; lra.
Qed.

Section FullTerm.

Variables (P rp r cap : R) (n : nat).

Hypothesis Hr : 0 <= r.
Hypothesis Hrp : 0 < rp.
Hypothesis Hlast : 0.01 < rp / (1 + r).
Hypothesis Hclear : scheduled_balance P rp r n = 0.
Hypothesis Hn : (0 < n)%nat.
Hypothesis Hcap : INR n <= cap.

Lemma while_loop_full_term (fuel : nat) (st : loop_state) :
  while_loop rp 0 r cap fuel (mkState [] P 0 0 (rp + 0)) = Some st ->
  cleared n st.
Proof.
  apply (while_loop_inv rp 0 r cap (on_schedule P rp r n) (cleared n)).
  - intros s (Hk & HB & _) Ht. exfalso.
    pose proof (scheduled_balance_lower P rp r n Hr Hrp Hclear _ Hk) as Hlow.
    apply loop_test_false in Ht.
    assert (INR (payment_num s) < INR n) by (apply lt_INR; exact Hk).
    destruct Ht; lra.
  - intros s (Hk & HB & Htp) _.
    pose proof (scheduled_balance_lower P rp r n Hr Hrp Hclear _ Hk) as Hlow.
    rewrite loop_body_eq. cbv zeta. rewrite Htp.
    set (B := current_balance s) in *.
    assert (HBx : rp <= B * (1 + r)).
    { rewrite <- HB in Hlow.
      apply (Rmult_le_compat_r (1 + r)) in Hlow; [|lra].
      replace (rp / (1 + r) * (1 + r)) with rp in Hlow by (field; lra).
      exact Hlow. }
    assert (Epp : Rmin B (rp + 0 - B * r) = rp + 0 - B * r).
    { unfold Rmin. destruct (Rle_dec B (rp + 0 - B * r)); lra. }
    rewrite Epp.
    assert (Enew : B - (rp + 0 - B * r)
                   = scheduled_balance P rp r (S (payment_num s))).
    { rewrite scheduled_balance_S, <- HB. ring. }
    destruct (Nat.eq_dec (S (payment_num s)) n) as [En|En].
    + assert (E0 : B - (rp + 0 - B * r) = 0).
      { rewrite Enew, En. exact Hclear. }
      destruct (Rle_dec (B - (rp + 0 - B * r)) 0.01); [|lra].
      split; simpl; [exact En|exact E0].
    + assert (Hk' : (S (payment_num s) < n)%nat) by lia.
      pose proof (scheduled_balance_lower P rp r n Hr Hrp Hclear _ Hk')
        as Hlow'.
      rewrite <- Enew in Hlow'.
      destruct (Rle_dec (B - (rp + 0 - B * r)) 0.01); [lra|].
      split; simpl; [exact Hk'|]. split; [exact Enew|reflexivity].
  - split; simpl; [exact Hn|]. split; [|reflexivity].
    unfold scheduled_balance. simpl. ring.
Qed.

End FullTerm.



(** ** The growth functions *)

Lemma xadd_in_range (x y : xfloat) (v : R) :
  xadd x y = Fin v -> - FLOAT_LIMIT < v < FLOAT_LIMIT.
Proof.
  destruct x, y; simpl; try discriminate.
  unfold fround.
  destruct (Rle_dec FLOAT_LIMIT (x + x0)); [discriminate|].
  destruct (Rle_dec (x + x0) (- FLOAT_LIMIT)); [discriminate|].
  intros H. injection H as <-. lra.
Qed.

Lemma py_add_in_range (x y s : num) (a : R) :
  plain x -> plain y -> py_add x y = Return s -> xv s = Fin a ->
  - FLOAT_LIMIT < a < FLOAT_LIMIT.
Proof.
  pose proof FLOAT_LIMIT_pos as HL.
  intros [->|[x' ->]] [->|[y' ->]];
    unfold py_add, arith; rewrite ?to_float_zero; cbn [to_float bind];
    intros H; injection H as <-; cbn [xv]; intros E.
  - injection E as <-. simpl. lra.
  - apply (xadd_in_range (Fin 0) y'). exact E.
  - apply (xadd_in_range x' (Fin 0)). exact E.
  - apply (xadd_in_range x' y'). exact E.
Qed.

Lemma fround_in_range (x : R) :
  - FLOAT_LIMIT < x < FLOAT_LIMIT -> fround x = Fin x.
Proof.
  intros H. unfold fround.
  destruct (Rle_dec FLOAT_LIMIT x); [lra|].
  destruct (Rle_dec x (- FLOAT_LIMIT)); [lra|reflexivity].
Qed.

(** [x - y] for an [x] of finite value [a] and a [y] of finite value
    [b]. *)
Lemma py_sub_value (x y : num) (a b : R) :
  plain x -> plain y -> xv x = Fin a -> xv y = Fin b ->
  exists d, py_sub x y = Return d /\ plain d /\ xv d = fround (a - b).
Proof.
  pose proof FLOAT_LIMIT_pos as HL.
  intros [->|[x' ->]] [->|[y' ->]] Ea Eb; cbn [xv] in Ea, Eb; subst;
    unfold py_sub, arith; rewrite ?to_float_zero; cbn [to_float bind];
    try (injection Ea as <-); try (injection Eb as <-);
    eexists; (split; [reflexivity|]).
  - split; [apply plain_zero|]. cbn [xv Z.sub].
    rewrite fround_in_range by (split; lra). f_equal. simpl. lra.
  - split; [apply plain_float|]. cbn [xv xsub xneg xadd]. reflexivity.
  - split; [apply plain_float|]. cbn [xv xsub xneg xadd]. reflexivity.
  - split; [apply plain_float|]. cbn [xv xsub xneg xadd]. reflexivity.
Qed.

Lemma growth_exact_overflow (P w T : R) : growth_exact P w T overflow3.
Proof. left. reflexivity. Qed.

Lemma max0_value (d : num) (v : R) :
  xv d = fround v -> v < FLOAT_LIMIT -> xv (max0 d) = Fin (Rmax 0 v).
Proof.
  intros Hd Hv. pose proof FLOAT_LIMIT_pos as HL.
  unfold max0, py_gt. cbn [xv]. rewrite Hd. unfold fround.
  destruct (Rle_dec FLOAT_LIMIT v); [lra|].
  destruct (Rle_dec v (- FLOAT_LIMIT)); cbn [xlt xv].
  - f_equal. unfold Rmax. destruct (Rle_dec 0 v); lra.
  - destruct (Rlt_dec 0 v); cbn [xv];
      [rewrite Hd, fround_in_range by (split; lra)|];
      f_equal; unfold Rmax; destruct (Rle_dec 0 v); lra.
Qed.

(** The body on tracked values: what the two steps computed exactly is
    what a finite result reports. *)
Lemma future_value_body_exact (P w T wa : R)
    (rate time amount : num) (f : Z) (ic : bool) (n : Z) :
  0 <= P -> P <= w -> 0 <= wa -> 0 <= T ->
  step_ok overflow3
    (principal_future_value (PyFloat (Fin P)) rate time ic n)
    (principal_post w) ->
  step_ok overflow3 (annuity_future_value rate time amount f ic n)
    (annuity_exact T wa) ->
  exists res,
    future_value_handlers
      (future_value_body (PyFloat (Fin P)) rate time amount f ic n)
    = Return res /\
    growth_exact P (w + wa) T res.
Proof.
  intros HP HPw Hwa HT Hp Ha. unfold future_value_body.
  destruct Hp as [[->| ->]|(v & -> & Hv & Hw)]; cbn [fbind].
  1,2: eexists; split; [reflexivity|apply growth_exact_overflow].
  destruct Ha
    as [[->| ->]|([af tc] & -> & Haf & Htc & HTc & Hwa')];
    cbn [fbind].
  1,2: eexists; split; [reflexivity|apply growth_exact_overflow].
  cbn [fst snd] in *.
  destruct (py_add_plain w wa v af Hv Haf Hw Hwa' ltac:(lra))
    as (s & Es & Hs & Hsum).
  pose proof (py_add_in_range v af s) as Hrange.
  rewrite Es. cbn [lift fbind].
  destruct (py_sub_plain s (PyFloat (Fin P)) Hs (plain_float _))
    as (d & Ed & Hd).
  rewrite Ed. cbn [lift fbind].
  destruct (py_sub_plain d tc Hd Htc) as (d' & Ed' & _).
  rewrite Ed'. cbn [lift fbind].
  destruct (py_eq s (PyFloat PInf)) eqn:Einf.
  { eexists; split; [reflexivity|apply growth_exact_overflow]. }
  eexists; split; [reflexivity|]. right.
  assert (Ea : xv s = Fin (w + wa)).
  { destruct Hsum as [E|E]; [|exact E].
    unfold py_eq in Einf. rewrite E in Einf. discriminate. }
  specialize (Hrange (w + wa) Hv Haf Es Ea).
  split; [exact Ea|]. split; [lra|]. split; [exact Htc|].
  split; [exact HTc|].
  intros Ec.
  destruct (py_sub_value s (PyFloat (Fin P)) (w + wa) P Hs (plain_float _)
              Ea eq_refl) as (d0 & Ed0 & Hd0 & Hdv).
  rewrite Ed in Ed0. injection Ed0 as <-.
  rewrite fround_in_range in Hdv by (split; lra).
  destruct (py_sub_value d tc (w + wa - P) T Hd Htc Hdv Ec)
    as (d1 & Ed1 & _ & Hdv').
  rewrite Ed' in Ed1. injection Ed1 as <-.
  apply max0_value; [exact Hdv'|lra].
Qed.

Lemma annuity_exact_none (rate time : num) (ic : bool) (n : Z) :
  step_ok overflow3 (annuity_future_value rate time (PyInt 0) 0 ic n)
    (annuity_exact 0 0).
Proof.
  rewrite annuity_none. apply step_ok_next. unfold annuity_exact.
  cbn [fst snd xv].
  split; [apply plain_zero|]. split; [apply plain_zero|].
  split; apply exact_refl.
Qed.

Lemma discrete_annuity_zero (c r t : R) (n : Z) :
  0 <= r -> (1 <= n)%Z -> c * t = 0 -> discrete_annuity c r t n = 0.
Proof.
  intros Hr Hn Hct. unfold discrete_annuity.
  assert (Hn' : 1 <= IZR n) by (apply IZR_le; exact Hn).
  assert (Hq0 : 0 <= r / IZR n).
  { apply Rmult_le_pos; [lra|]. left. apply Rinv_0_lt_compat. lra. }
  destruct (Req_dec_T (r / IZR n) 0) as [Hq|Hq].
  - replace (c * (IZR n * t)) with (IZR n * (c * t)) by ring.
    rewrite Hct. ring.
  - destruct (Rmult_integral _ _ Hct) as [->| ->].
    + ring.
    + rewrite Rmult_0_r, Rpower_O by lra. unfold Rdiv, Rminus.
      rewrite Rplus_opp_r. ring.
Qed.

Lemma discrete_annuity_nonneg (c r t : R) (n : Z) :
  0 <= r -> 0 <= t -> 0 <= c -> (1 <= n)%Z -> 0 <= discrete_annuity c r t n.
Proof.
  intros Hr Ht Hc Hn. unfold discrete_annuity.
  assert (Hn' : 1 <= IZR n) by (apply IZR_le; exact Hn).
  assert (Hq0 : 0 <= r / IZR n).
  { apply Rmult_le_pos; [lra|]. left. apply Rinv_0_lt_compat. lra. }
  assert (Hnt : 0 <= IZR n * t) by (apply Rmult_le_pos; lra).
  destruct (Req_dec_T (r / IZR n) 0) as [Hq|Hq].
  - apply Rmult_le_pos; assumption.
  - apply Rmult_le_pos; [assumption|].
    pose proof (Rpower_ge_1 (1 + r / IZR n) (IZR n * t) ltac:(lra) Hnt).
    apply Rmult_le_pos; [lra|]. left. apply Rinv_0_lt_compat. lra.
Qed.

(** Step 2 on valid float arguments, discrete compounding, with its
    exact values. *)
Lemma annuity_exact_discrete (r t c : R) (f n : Z) :
  0 <= r -> r < FLOAT_LIMIT -> 0 <= t -> 0 <= c -> (1 <= f)%Z ->
  (1 <= n)%Z ->
  step_ok overflow3
    (annuity_future_value (PyFloat (Fin r)) (PyFloat (Fin t))
       (PyFloat (Fin c)) f false n)
    (annuity_exact (c * IZR f * t) (discrete_annuity c r t n)).
Proof.
  intros Hr HrL Ht Hc Hf Hn. unfold annuity_future_value, annuity_exact.
  assert (Hf' : 1 <= IZR f) by (apply IZR_le; exact Hf).
  destruct (annuity_guard c t f Hc Ht ltac:(lia))
    as [(-> & Hc0 & Hf1 & Ht0)|(-> & E)].
  2:{ apply step_ok_next. cbn [fst snd xv].
      split; [apply plain_zero|]. split; [apply plain_zero|].
      split; [right; f_equal; lra|].
      right. f_equal. symmetry. apply discrete_annuity_zero; try assumption.
      replace (c * IZR f * t) with (IZR f * (c * t)) in E by ring.
      destruct (Rmult_integral _ _ E); lra. }
  assert (Hn' : 1 <= IZR n) by (apply IZR_le; exact Hn).
  assert (Hnt : 0 < IZR n * t) by (apply Rmult_lt_0_compat; lra).
  apply total_contributions_ok; try assumption.
  intros tc Htc.
  eapply step_ok_bind.
  { apply step_ok_lift.
    apply (res_ok_int_mul n t (Fin t) Hn (exact_refl t) Ht). }
  intros ntp (e & -> & He).
  eapply step_ok_bind.
  { apply step_ok_lift. apply (res_ok_rate_div r n Hr HrL Hn). }
  intros q ->.
  unfold py_eq at 1. cbn [xv xeq]. unfold discrete_annuity.
  destruct (Req_dec_T (r / IZR n) 0) as [Hq0|Hq0].
  - rewrite py_mul_float. cbn [lift fbind].
    apply step_ok_next. cbn [fst snd xv].
    split; [apply plain_float|]. split; [apply plain_float|].
    split; [exact Htc|].
    apply exact_xmul; [apply exact_refl|exact He|lra|lra].
  - assert (Hq : 0 < r / IZR n).
    { assert (0 <= r / IZR n);
        [apply Rmult_le_pos; [lra|left; apply Rinv_0_lt_compat; lra]|lra]. }
    set (q := r / IZR n) in *.
    pose proof (exact_xadd 1 q (Fin 1) (Fin q) (exact_refl 1) (exact_refl q)
                  ltac:(lra)) as Hbase.
    eapply step_ok_bind.
    { apply step_ok_lift. unfold py_pow. cbn [to_float bind].
      apply (res_ok_float_pow _ _ _ _ Hbase He ltac:(lra) ltac:(lra)). }
    intros pw Hpw.
    pose proof (Rpower_gt_1 (1 + q) (IZR n * t) ltac:(lra) Hnt) as Hgt.
    set (X := Rpower (1 + q) (IZR n * t)) in *.
    assert (Hsub : exact_or_inf (X + -1) (xsub pw (Fin 1))).
    { unfold xsub. cbn [xneg].
      apply exact_xadd; [exact Hpw|apply exact_refl|lra]. }
    destruct (exact_xdiv (X + -1) q _ Hsub ltac:(lra) Hq) as (fv & -> & Hfv).
    cbn [lift fbind]. rewrite py_mul_float. cbn [lift fbind].
    assert (Hfv0 : 0 < (X + -1) / q) by (apply Rdiv_lt_0_compat; lra).
    destruct (_ || _)%bool; [apply step_ok_ret|].
    apply step_ok_next. cbn [fst snd xv].
    split; [apply plain_float|]. split; [apply plain_float|].
    split; [exact Htc|].
    apply exact_xmul; [apply exact_refl|exact Hfv|lra|lra].
Qed.

Lemma continuous_annuity_nonneg (c r t : R) (f : Z) :
  0 <= r -> 0 <= t -> 0 <= c -> (0 <= f)%Z -> 0 <= continuous_annuity c r t f.
Proof.
  intros Hr Ht Hc Hf. unfold continuous_annuity.
  assert (Hf' : 0 <= IZR f) by (apply IZR_le; exact Hf).
  assert (Hcf : 0 <= c * IZR f) by (apply Rmult_le_pos; lra).
  destruct (Req_dec_T r 0) as [Hr0|Hr0].
  - apply Rmult_le_pos; assumption.
  - assert (0 <= r * t) by (apply Rmult_le_pos; lra).
    pose proof (exp_ge_1 (r * t) ltac:(lra)).
    apply Rmult_le_pos; [apply Rmult_le_pos; lra|].
    left. apply Rinv_0_lt_compat. lra.
Qed.

(** Step 2 on valid float arguments, continuous compounding, with its
    exact values. *)
Lemma annuity_exact_continuous (r t c : R) (f n : Z) :
  0 <= r -> 0 <= t -> 0 <= c -> (0 <= f)%Z ->
  step_ok overflow3
    (annuity_future_value (PyFloat (Fin r)) (PyFloat (Fin t))
       (PyFloat (Fin c)) f true n)
    (annuity_exact (c * IZR f * t) (continuous_annuity c r t f)).
Proof.
  intros Hr Ht Hc Hf. unfold annuity_future_value, annuity_exact.
  destruct (annuity_guard c t f Hc Ht Hf)
    as [(-> & Hc0 & Hf1 & Ht0)|(-> & E)].
  2:{ apply step_ok_next. cbn [fst snd xv].
      split; [apply plain_zero|]. split; [apply plain_zero|].
      split; [right; f_equal; lra|].
      right. f_equal. unfold continuous_annuity.
      destruct (Req_dec_T r 0) as [Hr0|Hr0]; [lra|].
      replace (c * IZR f * t) with (c * IZR f * t) in E by ring.
      destruct (Rmult_integral _ _ E) as [E1| ->].
      - rewrite E1. unfold Rdiv. ring.
      - rewrite Rmult_0_r, exp_0. unfold Rdiv. ring. }
  assert (Hf' : 1 <= IZR f) by (apply IZR_le; exact Hf1).
  assert (Hcf : 0 < c * IZR f) by (apply Rmult_lt_0_compat; lra).
  apply total_contributions_ok; try assumption.
  intros tc Htc.
  eapply step_ok_bind.
  { apply step_ok_lift.
    apply (res_ok_mul_int c (Fin c) f (exact_refl c) Hc0 Hf1). }
  intros annual (e & -> & He).
  unfold py_eq at 1. cbn [xv xeq]. unfold continuous_annuity.
  destruct (Req_dec_T r 0) as [Hr0|Hr0].
  - rewrite py_mul_float. cbn [lift fbind].
    apply step_ok_next. cbn [fst snd xv].
    split; [apply plain_float|]. split; [apply plain_float|].
    split; [exact Htc|].
    apply exact_xmul; [exact He|apply exact_refl|lra|lra].
  - rewrite py_mul_float. cbn [lift fbind].
    destruct (rt_check r t Hr Ht) as [->|(-> & -> & Hrt)];
      [apply step_ok_ret|].
    eapply step_ok_bind; [apply step_ok_lift, res_ok_exp|].
    intros ex ->.
    unfold py_sub, arith. rewrite to_float_one. cbn [to_float bind lift fbind].
    rewrite py_mul_float. cbn [lift fbind].
    assert (Hrt0 : 0 < r * t) by (apply Rmult_lt_0_compat; lra).
    pose proof (exp_ineq1 (r * t) ltac:(lra)) as Hexp.
    set (X := exp (r * t)) in *.
    assert (Hd : exact_or_inf (X - 1) (xsub (Fin X) (Fin 1))).
    { unfold xsub. cbn [xneg].
      apply (exact_xadd X (-1)); [apply exact_refl|apply exact_refl|lra]. }
    pose proof (exact_xmul _ _ _ _ He Hd Hcf ltac:(lra)) as Hm.
    unfold py_div. cbn [to_float bind].
    assert (Hm0 : 0 <= c * IZR f * (X - 1)) by (apply Rmult_le_pos; lra).
    destruct (exact_xdiv _ r _ Hm Hm0 ltac:(lra)) as (av & -> & Hav).
    cbn [lift fbind].
    apply step_ok_next. cbn [fst snd xv].
    split; [apply plain_float|]. split; [apply plain_float|].
    split; [exact Htc|exact Hav].
Qed.

(** The function without contributions on valid float arguments. *)
Lemma computeGrowth_exact (P r t : R) :
  0 <= P -> 0 <= r -> 0 <= t ->
  (forall n : Z, (1 <= n)%Z ->
     exists res,
       computeGrowth (float P) (float r) (float t) (VInt n) = Return res /\
       growth_exact P (discrete_growth P r t n) 0 res) /\
  (exists res,
     computeGrowth (float P) (float r) (float t) (VStr "continuously")
     = Return res /\
     growth_exact P (continuous_growth P r t) 0 res).
Proof.
  intros HP Hr Ht. split; [intros n Hn|]; unfold computeGrowth;
    rewrite (future_value_valid P r t _ _ (PyInt 0) 0) by
      (try assumption; try lia; try reflexivity; apply py_lt_zero_zero).
  - rewrite compound_mode_int by exact Hn. cbn [bind].
    destruct (future_value_body_exact P (discrete_growth P r t n) 0 0
                (PyFloat (Fin r)) (PyFloat (Fin t)) (PyInt 0) 0 false n)
      as (res & E & G); try lra.
    + apply growth_discrete_ge; assumption.
    + apply principal_step_discrete; assumption.
    + apply annuity_exact_none.
    + exists res. split; [exact E|]. rewrite Rplus_0_r in G. exact G.
  - rewrite compound_mode_continuous. cbn [bind].
    destruct (future_value_body_exact P (continuous_growth P r t) 0 0
                (PyFloat (Fin r)) (PyFloat (Fin t)) (PyInt 0) 0 true 1)
      as (res & E & G); try lra.
    + apply growth_continuous_ge; assumption.
    + apply principal_step_continuous; assumption.
    + apply annuity_exact_none.
    + exists res. split; [exact E|]. rewrite Rplus_0_r in G. exact G.
Qed.


Lemma annuity_zero_amount (rate time : num) (f : Z) (ic : bool) (n : Z) :
  annuity_future_value rate time (PyInt 0) f ic n = Next (PyInt 0, PyInt 0).
Proof.
  unfold annuity_future_value, py_gt. cbn [xv xlt].
  destruct (Rlt_dec 0 0); [lra|]. reflexivity.
Qed.

(** The function on valid arguments with a contribution that is the
    float [c] or the int 0, discrete compounding. *)
Lemma future_value_discrete_exact (P r t c : R) (ca : pyval) (n f : Z) :
  0 <= P -> 0 <= r -> r < FLOAT_LIMIT -> 0 <= t -> 0 <= c ->
  (1 <= n)%Z -> (1 <= f)%Z ->
  ca = float c \/ (ca = VInt 0 /\ c = 0) ->
  exists res,
    future_value_with_contributions (float P) (float r) (float t)
      (VInt n) ca (VInt f) = Return res /\
    growth_exact P (discrete_growth P r t n + discrete_annuity c r t n)
      (c * IZR f * t) res.
Proof.
  intros HP Hr HrL Ht Hc Hn Hf Hca.
  assert (Hf' : 1 <= IZR f) by (apply IZR_le; exact Hf).
  assert (HT : 0 <= c * IZR f * t).
  { apply Rmult_le_pos; [apply Rmult_le_pos; lra|lra]. }
  destruct Hca as [->|[-> ->]].
  - rewrite (future_value_valid P r t _ _ (PyFloat (Fin c)) f) by
      (try assumption; try lia; try reflexivity;
       apply py_lt_float_zero; assumption).
    rewrite compound_mode_int by exact Hn. cbn [bind].
    apply future_value_body_exact; try lra.
    + apply growth_discrete_ge; assumption.
    + apply discrete_annuity_nonneg; assumption.
    + apply principal_step_discrete; assumption.
    + apply annuity_exact_discrete; assumption.
  - rewrite (future_value_valid P r t _ _ (PyInt 0) f) by
      (try assumption; try lia; try reflexivity; apply py_lt_zero_zero).
    rewrite compound_mode_int by exact Hn. cbn [bind].
    rewrite (discrete_annuity_zero 0 r t n Hr Hn) by ring.
    replace (0 * IZR f * t) with 0 by ring.
    apply future_value_body_exact; try lra.
    + apply growth_discrete_ge; assumption.
    + apply principal_step_discrete; assumption.
    + rewrite annuity_zero_amount. apply step_ok_next.
      unfold annuity_exact. cbn [fst snd xv].
      split; [apply plain_zero|]. split; [apply plain_zero|].
      split; apply exact_refl.
Qed.

(** The same for continuous compounding. *)
Lemma future_value_continuous_exact (P r t c : R) (f : Z) :
  0 <= P -> 0 <= r -> 0 <= t -> 0 <= c -> (1 <= f)%Z ->
  exists res,
    future_value_with_contributions (float P) (float r) (float t)
      (VStr "continuously") (float c) (VInt f) = Return res /\
    growth_exact P (continuous_growth P r t + continuous_annuity c r t f)
      (c * IZR f * t) res.
Proof.
  intros HP Hr Ht Hc Hf.
  assert (Hf' : 1 <= IZR f) by (apply IZR_le; exact Hf).
  assert (HT : 0 <= c * IZR f * t).
  { apply Rmult_le_pos; [apply Rmult_le_pos; lra|lra]. }
  rewrite (future_value_valid P r t _ _ (PyFloat (Fin c)) f) by
    (try assumption; try lia; try reflexivity;
     apply py_lt_float_zero; assumption).
  rewrite compound_mode_continuous. cbn [bind].
  apply future_value_body_exact; try lra.
  - apply growth_continuous_ge; assumption.
  - apply continuous_annuity_nonneg; try assumption. lia.
  - apply principal_step_continuous; assumption.
  - apply annuity_exact_continuous; try assumption. lia.
Qed.




(** ** Which arguments raise *)

Lemma annuity_zero_frequency (rate time amount : num) (ic : bool) (n : Z) :
  annuity_future_value rate time amount 0 ic n = Next (PyInt 0, PyInt 0).
Proof.
  unfold annuity_future_value. cbn [Z.ltb Z.compare].
  destruct (py_gt amount (PyInt 0)); reflexivity.
Qed.

Lemma future_value_returns (P r t c : R) (f : Z) (ic : bool) (n : Z) :
  0 <= P -> 0 <= r -> r < FLOAT_LIMIT -> 0 <= t -> 0 <= c -> (0 <= f)%Z ->
  (ic = false -> (1 <= n)%Z) ->
  exists res,
    future_value_handlers
      (future_value_body (PyFloat (Fin P)) (PyFloat (Fin r))
         (PyFloat (Fin t)) (PyFloat (Fin c)) f ic n)
    = Return res.
Proof.
  intros HP Hr HrL Ht Hc Hf Hn.
  assert (Hp : exists w, P <= w /\
            step_ok overflow3
              (principal_future_value (PyFloat (Fin P)) (PyFloat (Fin r))
                 (PyFloat (Fin t)) ic n) (principal_post w)).
  { destruct ic.
    - exists (continuous_growth P r t).
      split; [apply growth_continuous_ge; assumption|].
      apply principal_step_continuous; assumption.
    - specialize (Hn eq_refl). exists (discrete_growth P r t n).
      split; [apply growth_discrete_ge; assumption|].
      apply principal_step_discrete; assumption. }
  destruct Hp as (w & Hw & Hp).
  assert (Ha : exists T wa, 0 <= T /\ 0 <= wa /\
            step_ok overflow3
              (annuity_future_value (PyFloat (Fin r)) (PyFloat (Fin t))
                 (PyFloat (Fin c)) f ic n) (annuity_exact T wa)).
  { destruct (Z.eq_dec f 0) as [->|Hf0].
    - exists 0, 0. split; [lra|]. split; [lra|].
      rewrite annuity_zero_frequency. apply step_ok_next.
      unfold annuity_exact. cbn [fst snd xv].
      split; [apply plain_zero|]. split; [apply plain_zero|].
      split; apply exact_refl.
    - assert (Hf1 : (1 <= f)%Z) by lia.
      assert (Hf' : 1 <= IZR f) by (apply IZR_le; exact Hf1).
      exists (c * IZR f * t).
      assert (HT : 0 <= c * IZR f * t).
      { apply Rmult_le_pos; [apply Rmult_le_pos; lra|lra]. }
      destruct ic.
      + exists (continuous_annuity c r t f). split; [exact HT|].
        split; [apply continuous_annuity_nonneg; assumption|].
        apply annuity_exact_continuous; assumption.
      + specialize (Hn eq_refl).
        exists (discrete_annuity c r t n). split; [exact HT|].
        split; [apply discrete_annuity_nonneg; assumption|].
        apply annuity_exact_discrete; assumption. }
  destruct Ha as (T & wa & HT & Hwa & Ha).
  destruct (future_value_body_exact P w T wa _ _ _ _ _ _ HP Hw Hwa HT Hp Ha)
    as (res & E & _).
  exists res. exact E.
Qed.

(** X11: on float arguments, with a rate within the float range, and int
    frequencies future_value_with_contributions raises ValueError whenever
    the principal, the rate, the time or the contribution is negative, the
    contribution frequency is negative or the compounding frequency is not
    positive; on all other such arguments it returns a result. *)
Theorem future_value_raises_iff (P r t c : R) (n f : Z) :
  r < FLOAT_LIMIT ->
  (P < 0 \/ r < 0 \/ t < 0 \/ c < 0 \/ (f < 0)%Z \/ (n <= 0)%Z ->
   is_value_error
     (future_value_with_contributions (float P) (float r) (float t)
        (VInt n) (float c) (VInt f))) /\
  (P < 0 \/ r < 0 \/ t < 0 \/ c < 0 \/ (f < 0)%Z ->
   is_value_error
     (future_value_with_contributions (float P) (float r) (float t)
        (VStr "continuously") (float c) (VInt f))) /\
  (0 <= P -> 0 <= r -> 0 <= t -> 0 <= c -> (0 <= f)%Z ->
   ((1 <= n)%Z ->
    exists res,
      future_value_with_contributions (float P) (float r) (float t)
        (VInt n) (float c) (VInt f) = Return res) /\
   exists res,
     future_value_with_contributions (float P) (float r) (float t)
       (VStr "continuously") (float c) (VInt f) = Return res).
Proof.
  intros HrL.
  assert (Hbad : forall ct,
            P < 0 \/ r < 0 \/ t < 0 \/ c < 0 \/ (f < 0)%Z \/
            (exists msg, compound_mode ct = Raise (ValueError msg)) ->
            is_value_error
              (future_value_with_contributions (float P) (float r) (float t)
                 ct (float c) (VInt f))).
  { intros ct Hbad.
    unfold future_value_with_contributions, float. cbn [as_number as_int].
    unfold py_lt. cbn [xv xlt].
    destruct (Rlt_dec P 0); [exact I|].
    destruct (Rlt_dec r 0); [exact I|].
    destruct (Rlt_dec t 0); [exact I|].
    destruct (Rlt_dec c 0); [exact I|].
    destruct (Z.ltb_spec f 0); [exact I|].
    destruct Hbad as [Hx|[Hx|[Hx|[Hx|[Hx|(msg & ->)]]]]];
      try lra; try lia.
    exact I. }
  split; [|split].
  - intros H. apply Hbad.
    destruct H as [H|[H|[H|[H|[H|H]]]]]; auto 6.
    do 5 right. unfold compound_mode. cbn [as_int].
    destruct (Z.leb_spec n 0); [eauto|lia].
  - intros H. apply Hbad.
    destruct H as [H|[H|[H|[H|H]]]]; auto 6.
  - intros HP Hr Ht Hc Hf. split; [intros Hn|].
    + rewrite (future_value_valid P r t _ _ (PyFloat (Fin c)) f) by
        (try assumption; try reflexivity; apply py_lt_float_zero; assumption).
      rewrite compound_mode_int by exact Hn. cbn [bind].
      apply future_value_returns; auto.
    + rewrite (future_value_valid P r t _ _ (PyFloat (Fin c)) f) by
        (try assumption; try reflexivity; apply py_lt_float_zero; assumption).
      rewrite compound_mode_continuous. cbn [bind].
      apply future_value_returns; auto. discriminate.
Qed.

Lemma future_value_raises_iff_witness :
  is_value_error
    (future_value_with_contributions (float 1000) (float 0.05) (float 10)
       (VInt 0) (float 100) (VInt 12)).
Proof.
  pose proof FLOAT_LIMIT_lower as HL.
  apply (proj1 (future_value_raises_iff 1000 0.05 10 100 0%Z 12%Z ltac:(lra))).
  do 5 right. lia.
Defined.

(** ** The sentinel is returned whole *)

Lemma only_sentinel_lift {A : Type} (m : result A) :
  only_sentinel (lift m).
Proof. intros v H. destruct m; discriminate. Qed.

Lemma only_sentinel_next {A : Type} (a : A) : only_sentinel (Next a).
Proof. intros v H. discriminate. Qed.

Lemma only_sentinel_exc {A : Type} (e : exn) :
  only_sentinel (A := A) (Exc e).
Proof. intros v H. discriminate. Qed.

Lemma only_sentinel_ret {A : Type} : only_sentinel (A := A) (Ret overflow3).
Proof. intros v H. injection H as <-. reflexivity. Qed.

Lemma only_sentinel_bind {A B : Type} (m : flow triple A)
    (k : A -> flow triple B) :
  only_sentinel m -> (forall a, only_sentinel (k a)) ->
  only_sentinel (fbind m k).
Proof.
  intros Hm Hk v. destruct m as [a|v'|e]; simpl.
  - apply Hk.
  - intros H. injection H as <-. apply Hm. reflexivity.
  - discriminate.
Qed.

Ltac sentinel_step :=
  first
    [ apply only_sentinel_next
    | apply only_sentinel_ret
    | apply only_sentinel_exc
    | apply only_sentinel_lift
    | apply only_sentinel_bind; [|intros ?]
    | match goal with
      | |- only_sentinel (if ?b then _ else _) => destruct b
      | |- only_sentinel (match ?x with _ => _ end) => destruct x
      end ].

Lemma heuristic_check_sentinel (principal : num) (base : xfloat)
    (exponent : num) :
  only_sentinel (heuristic_check principal base exponent).
Proof. unfold heuristic_check. repeat sentinel_step. Qed.

Lemma principal_future_value_sentinel (principal rate time : num)
    (ic : bool) (n : Z) :
  only_sentinel (principal_future_value principal rate time ic n).
Proof.
  unfold principal_future_value.
  repeat first [apply heuristic_check_sentinel | sentinel_step].
Qed.

Lemma annuity_future_value_sentinel (rate time amount : num) (f : Z)
    (ic : bool) (n : Z) :
  only_sentinel (annuity_future_value rate time amount f ic n).
Proof. unfold annuity_future_value. repeat sentinel_step. Qed.

Lemma whole_or_finite_bind {A : Type} (m : flow triple A)
    (k : A -> flow triple triple) :
  only_sentinel m -> (forall a, whole_or_finite (k a)) ->
  whole_or_finite (fbind m k).
Proof.
  intros Hm Hk. destruct m as [a|v|e]; simpl; [apply Hk| |exact I].
  left. apply Hm. reflexivity.
Qed.

Lemma future_value_body_whole (principal rate time amount : num) (f : Z)
    (ic : bool) (n : Z) :
  whole_or_finite (future_value_body principal rate time amount f ic n).
Proof.
  unfold future_value_body.
  apply whole_or_finite_bind; [apply principal_future_value_sentinel|].
  intros pfv.
  apply whole_or_finite_bind; [apply annuity_future_value_sentinel|].
  intros [afv tc].
  apply whole_or_finite_bind; [apply only_sentinel_lift|]. intros final.
  apply whole_or_finite_bind; [apply only_sentinel_lift|]. intros d.
  apply whole_or_finite_bind; [apply only_sentinel_lift|]. intros d'.
  destruct (py_eq final (PyFloat PInf)) eqn:E; simpl; [left; reflexivity|].
  right. intros Hinf. unfold py_eq in E. rewrite Hinf in E. discriminate.
Qed.

(** X12: for every input, a result of future_value_with_contributions
    whose final amount is plus infinity is the whole sentinel: interest
    and total contributed are infinite as well. *)
Theorem sentinel_is_whole
    (principal rate time compound_type contribution_amount
     contribution_frequency : pyval) (res : triple) :
  future_value_with_contributions principal rate time compound_type
    contribution_amount contribution_frequency = Return res ->
  xv (fst (fst res)) = PInf -> res = overflow3.
Proof.
  unfold future_value_with_contributions.
  destruct (as_number principal) as [p|]; [|discriminate].
  destruct (as_number rate) as [r|]; [|discriminate].
  destruct (as_number time) as [t|]; [|discriminate].
  destruct (as_number contribution_amount) as [c|]; [|discriminate].
  destruct (as_int contribution_frequency) as [f|]; [|discriminate].
  destruct (py_lt p (PyInt 0)); [discriminate|].
  destruct (py_lt r (PyInt 0)); [discriminate|].
  destruct (py_lt t (PyInt 0)); [discriminate|].
  destruct (py_lt c (PyInt 0)); [discriminate|].
  destruct (f <? 0)%Z; [discriminate|].
  destruct (compound_mode compound_type) as [[ic n]|e]; [|discriminate].
  cbn [bind].
  pose proof (future_value_body_whole p r t c f ic n) as Hw.
  destruct (future_value_body p r t c f ic n) as [v|v|e]; simpl.
  - intros H. injection H as <-. intros Hinf.
    destruct Hw as [Hw|Hw]; [exact Hw|contradiction].
  - intros H. injection H as <-. intros Hinf.
    destruct Hw as [Hw|Hw]; [exact Hw|contradiction].
  - destruct e; try discriminate. intros H. injection H as <-. reflexivity.
Qed.

Lemma sentinel_is_whole_witness : overflow3 = overflow3.
Proof.
  exact (sentinel_is_whole (float 1e300) (float 1) (VInt 1000) (VInt 1)
           (VInt 0) (VInt 0) overflow3 run_growth_overflow_scenario eq_refl).
Defined.

(** ** The earlier function [compound_interest] *)

Lemma fround_cases (x : R) :
  0 <= x -> fround x = PInf \/ (fround x = Fin x /\ x < FLOAT_LIMIT).
Proof.
  intros Hx. pose proof FLOAT_LIMIT_pos as HL. unfold fround.
  destruct (Rle_dec FLOAT_LIMIT x); [left; reflexivity|].
  destruct (Rle_dec x (- FLOAT_LIMIT)); [lra|].
  right. split; [reflexivity|lra].
Qed.

Lemma amount_exact_mul (P X : R) (pw : xfloat) :
  0 < P -> 1 <= X -> exact_or_inf X pw ->
  amount_exact P (P * X) (PyFloat (xmul (Fin P) pw)).
Proof.
  intros HP HX Hpw. eexists. split; [reflexivity|].
  destruct Hpw as [->| ->]; cbn [xmul].
  - left. unfold inf_times.
    destruct (Req_dec_T P 0); [lra|].
    destruct (Rlt_dec 0 P); [reflexivity|lra].
  - assert (HPX : P <= P * X) by nra.
    destruct (fround_cases (P * X) ltac:(lra)) as [->|[-> Hlt]];
      [left; reflexivity|].
    right. split; [reflexivity|]. split; lra.
Qed.

(** The discrete branch of [compound_interest] with its exact value. *)
Lemma compound_exact_discrete (P r t : R) (n : Z) :
  0 < P -> 0 <= r -> 0 <= t -> (1 <= n)%Z ->
  step_ok overflow2
    (q <! py_div (PyFloat (Fin r)) (PyInt n) ;;
     let base := xadd (Fin 1) q in
     exponent <! py_mul (PyInt n) (PyFloat (Fin t)) ;;
     lb <! math_log (if py_gt (PyFloat base) (PyInt 0)
                     then PyFloat base else PyInt 1) ;;
     est <! py_mul exponent (PyFloat lb) ;;
     if py_gt est (PyInt 700) then Ret overflow2
     else
       pw <! py_pow base exponent ;;
       v <! py_mul (PyFloat (Fin P)) (PyFloat pw) ;;
       Next v)
    (amount_exact P (discrete_growth P r t n)).
Proof.
  intros HP Hr Ht Hn.
  assert (Hn' : 1 <= IZR n) by (apply IZR_le; exact Hn).
  assert (Hq0 : 0 <= r / IZR n).
  { apply Rmult_le_pos; [lra|]. left. apply Rinv_0_lt_compat. lra. }
  assert (Hnt : 0 <= IZR n * t) by (apply Rmult_le_pos; lra).
  eapply step_ok_bind.
  { apply step_ok_lift.
    apply (res_ok_div_int r (Fin r) n (exact_refl r) Hr Hn). }
  intros q Hq. cbv zeta.
  pose proof (exact_xadd 1 (r / IZR n) (Fin 1) q (exact_refl 1) Hq
                ltac:(lra)) as Hbase.
  set (base := xadd (Fin 1) q) in *.
  eapply step_ok_bind.
  { apply step_ok_lift.
    apply (res_ok_int_mul n t (Fin t) Hn (exact_refl t) Ht). }
  intros ev (e & -> & He).
  rewrite (py_gt_positive (1 + r / IZR n) base 0 Hbase ltac:(lra)).
  destruct (math_log_positive _ _ Hbase ltac:(lra)) as (lb & -> & _).
  cbn [lift fbind]. rewrite py_mul_float. cbn [lift fbind].
  destruct (py_gt _ (PyInt 700)); [apply step_ok_ret|].
  eapply step_ok_bind.
  { apply step_ok_lift. unfold py_pow. cbn [to_float bind].
    apply (res_ok_float_pow _ _ _ _ Hbase He ltac:(lra) Hnt). }
  intros pw Hpw. rewrite py_mul_float. cbn [lift fbind].
  apply step_ok_next. unfold discrete_growth.
  apply amount_exact_mul; [exact HP| |exact Hpw].
  apply Rpower_ge_1; lra.
Qed.

(** The continuous branch of [compound_interest] with its exact value. *)
Lemma compound_exact_continuous (P r t : R) :
  0 < P -> 0 <= r -> 0 <= t ->
  step_ok overflow2
    (if py_eq (PyFloat (Fin r)) (PyInt 0) then Next (PyFloat (Fin P))
     else
       rt <! py_mul (PyFloat (Fin r)) (PyFloat (Fin t)) ;;
       if py_gt rt (PyInt 700) then Ret overflow2
       else
         ex <! math_exp rt ;;
         v <! py_mul (PyFloat (Fin P)) (PyFloat ex) ;;
         Next v)
    (amount_exact P (continuous_growth P r t)).
Proof.
  intros HP Hr Ht. pose proof FLOAT_LIMIT_pos as HL.
  unfold continuous_growth, py_eq. cbn [xv xeq].
  destruct (Req_dec_T r 0) as [Hr0|Hr0].
  { apply step_ok_next. eexists. split; [reflexivity|]. right.
    rewrite Hr0, Rmult_0_l, exp_0, Rmult_1_r.
    split; [reflexivity|]. split; lra. }
  rewrite py_mul_float. cbn [lift fbind].
  destruct (rt_check r t Hr Ht) as [->|(-> & -> & Hrt)];
    [apply step_ok_ret|].
  eapply step_ok_bind; [apply step_ok_lift, res_ok_exp|].
  intros ex ->. rewrite py_mul_float. cbn [lift fbind].
  assert (0 <= r * t) by (apply Rmult_le_pos; assumption).
  apply step_ok_next.
  apply amount_exact_mul; [exact HP| |apply exact_refl].
  apply exp_ge_1. lra.
Qed.

(** From the final amount to the returned pair. *)
Lemma compound_interest_tail (P w : R) (m : flow pair num) :
  0 < P ->
  step_ok overflow2 m (amount_exact P w) ->
  exists res,
    compound_interest_handlers
      (final_amount <~ m ;;
       d <! py_sub final_amount (PyFloat (Fin P)) ;;
       Ret (final_amount, max0 d))
    = Return res /\ pair_exact P w res.
Proof.
  intros HP Hm. pose proof FLOAT_LIMIT_pos as HL.
  destruct Hm as [[->| ->]|(v & -> & x & -> & Hx)]; cbn [fbind].
  1,2: eexists; split; [reflexivity|left; reflexivity].
  unfold py_sub, arith. cbn [to_float bind lift fbind].
  eexists. split; [reflexivity|].
  destruct Hx as [->|(-> & Hle & Hlt)].
  - left. reflexivity.
  - right. cbn [fst snd xv]. split; [reflexivity|].
    replace (Fin (w - P)) with (Fin (Rmax 0 (w - P))).
    2:{ f_equal. unfold Rmax. destruct (Rle_dec 0 (w - P)); lra. }
    apply max0_value; [reflexivity|exact Hlt].
Qed.

(** The earlier function on valid float arguments. *)
Lemma compound_interest_exact (P r t : R) (num_times : pyval) :
  0 < P -> 0 <= r -> 0 <= t ->
  (forall n : Z, (1 <= n)%Z ->
     exists res,
       compound_interest (float P) (float r) (float t) (VInt n) num_times
       = Return res /\
       pair_exact P (discrete_growth P r t n) res) /\
  (exists res,
     compound_interest (float P) (float r) (float t) (VStr "continuously")
       num_times = Return res /\
     pair_exact P (continuous_growth P r t) res).
Proof.
  intros HP Hr Ht.
  split; [intros n Hn|];
    unfold compound_interest, float; cbn [as_number];
    unfold py_lt; cbn [xv xlt];
    (destruct (Rlt_dec P 0); [lra|]);
    (destruct (Rlt_dec r 0); [lra|]);
    (destruct (Rlt_dec t 0); [lra|]);
    unfold compound_times; cbn [as_int String.eqb Ascii.eqb Bool.eqb].
  - destruct (Z.leb_spec n 0); [lia|]. cbn [bind].
    unfold compound_interest_body.
    apply compound_interest_tail; [exact HP|].
    apply compound_exact_discrete; assumption.
  - cbn [bind]. unfold compound_interest_body.
    apply compound_interest_tail; [exact HP|].
    apply compound_exact_continuous; assumption.
Qed.



(** Without contributions the total contributed is the int 0. *)
Lemma growth_no_contributions (principal rate time compounding : pyval)
    (res : triple) :
  computeGrowth principal rate time compounding = Return res ->
  res = overflow3 \/ snd res = PyInt 0.
Proof.
  unfold computeGrowth, future_value_with_contributions.
  destruct (as_number principal) as [p|]; [|discriminate].
  destruct (as_number rate) as [r|]; [|discriminate].
  destruct (as_number time) as [t|]; [|discriminate].
  cbn [as_number as_int].
  destruct (py_lt p (PyInt 0)); [discriminate|].
  destruct (py_lt r (PyInt 0)); [discriminate|].
  destruct (py_lt t (PyInt 0)); [discriminate|].
  rewrite py_lt_zero_zero. cbn [Z.ltb Z.compare].
  destruct (compound_mode compounding) as [[ic n]|e]; [|discriminate].
  cbn [bind]. unfold future_value_body.
  pose proof (principal_future_value_sentinel p r t ic n) as Hs.
  destruct (principal_future_value p r t ic n) as [v|v|e]; cbn [fbind].
  - rewrite annuity_none. cbn [fbind].
    destruct (py_add v (PyInt 0)) as [s|e]; cbn [lift fbind].
    2:{ destruct e; simpl; try discriminate.
        intros H; injection H as <-; left; reflexivity. }
    destruct (py_sub s p) as [d|e]; cbn [lift fbind].
    2:{ destruct e; simpl; try discriminate.
        intros H; injection H as <-; left; reflexivity. }
    destruct (py_sub d (PyInt 0)) as [d'|e]; cbn [lift fbind].
    2:{ destruct e; simpl; try discriminate.
        intros H; injection H as <-; left; reflexivity. }
    destruct (py_eq s (PyFloat PInf)); simpl; intros H; injection H as <-;
      [left|right]; reflexivity.
  - simpl. intros H. injection H as <-. left. apply Hs. reflexivity.
  - destruct e; simpl; try discriminate.
    intros H; injection H as <-; left; reflexivity.
Qed.

(** X14: on a positive principal the earlier compound_interest and
    computeGrowth agree: when neither returns its overflow sentinel they
    return the same final amount and the same interest. *)
Theorem old_and_new_agree (P r t : R) (compounding num_times : pyval)
    (res2 : pair) (res3 : triple) :
  0 < P -> 0 <= r -> 0 <= t ->
  (compounding = VStr "continuously" \/
   exists n : Z, (1 <= n)%Z /\ compounding = VInt n) ->
  compound_interest (float P) (float r) (float t) compounding num_times
  = Return res2 ->
  computeGrowth (float P) (float r) (float t) compounding = Return res3 ->
  res2 <> overflow2 -> res3 <> overflow3 ->
  xv (fst res2) = xv (fst (fst res3)) /\
  xv (snd res2) = xv (snd (fst res3)).
Proof.
  intros HP Hr Ht Hc H2 H3 N2 N3.
  destruct (growth_no_contributions _ _ _ _ _ H3) as [E|Etc];
    [contradiction|].
  assert (Hw : exists w, P <= w /\ pair_exact P w res2 /\
                         growth_exact P w 0 res3).
  { destruct (compound_interest_exact P r t num_times HP Hr Ht)
      as [Hd2 Hc2].
    destruct (computeGrowth_exact P r t ltac:(lra) Hr Ht) as [Hd3 Hc3].
    destruct Hc as [->|(n & Hn & ->)].
    - exists (continuous_growth P r t).
      split; [apply growth_continuous_ge; lra|].
      destruct Hc2 as (r2 & E2 & X2). destruct Hc3 as (r3 & E3 & X3).
      rewrite H2 in E2. injection E2 as <-.
      rewrite H3 in E3. injection E3 as <-. auto.
    - exists (discrete_growth P r t n).
      split; [apply growth_discrete_ge; lra || assumption|].
      destruct (Hd2 n Hn) as (r2 & E2 & X2).
      destruct (Hd3 n Hn) as (r3 & E3 & X3).
      rewrite H2 in E2. injection E2 as <-.
      rewrite H3 in E3. injection E3 as <-. auto. }
  destruct Hw as (w & Hle & [E2|[Ha2 Hi2]] & [E3|X3]); try contradiction.
  destruct res3 as [[fa ti] tc]. cbn [fst snd] in *.
  destruct X3 as (Ha3 & _ & _ & _ & Hi3). subst tc.
  rewrite Ha2, Ha3, Hi2, Hi3 by reflexivity.
  split; [reflexivity|]. f_equal.
  unfold Rmax. destruct (Rle_dec 0 (w - P - 0)); lra.
Qed.

Lemma Rpower_two_years : Rpower (1 + 1 / 1) (1 * 2) = 4.
Proof.
  replace (1 * 2) with (INR 2) by (simpl; lra).
  rewrite Rpower_pow by lra. simpl. lra.
Qed.

(** 1.0 at 100% for two years, compounded yearly. *)
Lemma run_growth_two_years :
  computeGrowth (float 1) (float 1) (float 2) (VInt 1)
  = Return (PyFloat (Fin 4), PyFloat (Fin 3), PyInt 0).
Proof.
  pose proof FLOAT_LIMIT_lower as HL.
  pose proof Rpower_two_years as E.
  geval_with ltac:(rewrite E).
  close_eq.
Qed.

Lemma run_old_two_years :
  compound_interest (float 1) (float 1) (float 2) (VInt 1) (VInt 1)
  = Return (PyFloat (Fin 4), PyFloat (Fin 3)).
Proof.
  pose proof FLOAT_LIMIT_lower as HL.
  pose proof Rpower_two_years as E.
  assert (Hln : 0 < ln (1 + 1 / 1) < 1).
  { replace (1 + 1 / 1) with 2 by lra. pose proof ln_lt_2.
    pose proof (exp_ineq1 (ln 2) ltac:(lra)) as Hx.
    rewrite exp_ln in Hx by lra. lra. }
  geval_with ltac:(rewrite E).
  close_eq.
Qed.

Lemma old_and_new_agree_witness : Fin 4 = Fin 4 /\ Fin 3 = Fin 3.
Proof.
  refine (old_and_new_agree 1 1 2 (VInt 1) (VInt 1) _ _ _ _ _ _
            run_old_two_years run_growth_two_years _ _);
    try lra; try discriminate.
  right. exists 1%Z. split; [lia|reflexivity].
Defined.

(** ** The pages *)

Import Page.

Section Shows.

Context {element : Type}.
Variables (G : element -> Prop) (E : exn -> Prop).

Lemma shows_bind {A B : Type} (Q : A -> Prop) (Q' : B -> Prop)
    (m : script element A) (k : A -> script element B) :
  shows G E Q m -> (forall a, Q a -> shows G E Q' (k a)) ->
  shows G E Q' (sbind m k).
Proof.
  intros (out & r & -> & Hout & Hr) Hk. destruct r as [a|e]; simpl.
  - destruct (Hk a Hr) as (out' & r' & -> & Hout' & Hr').
    exists (out ++ out'), r'. split; [reflexivity|].
    split; [apply Forall_app; split; assumption|exact Hr'].
  - exists out, (Raise e). auto.
Qed.

Lemma shows_show (e : element) : G e -> shows G E (fun _ => True) (show e).
Proof.
  intros He. exists [e], (Return tt). split; [reflexivity|].
  split; [constructor; [exact He|constructor]|exact I].
Qed.

Lemma shows_done {A : Type} (a : A) : shows G E (fun b => b = a) (done a).
Proof.
  exists [], (Return a). split; [reflexivity|].
  split; [constructor|reflexivity].
Qed.

Lemma shows_run {A : Type} (m : result A) :
  (forall e, m = Raise e -> E e) ->
  shows G E (fun a => m = Return a) (run m).
Proof.
  intros He. exists [], m. split; [reflexivity|]. split; [constructor|].
  destruct m; auto.
Qed.

Lemma shows_return {A : Type} (m : result A) (a : A) :
  m = Return a -> shows G E (fun b => b = a) (run m).
Proof.
  intros ->. exists [], (Return a). split; [reflexivity|].
  split; [constructor|reflexivity].
Qed.

Lemma shows_weaken {A : Type} (Q Q' : A -> Prop) (m : script element A) :
  shows G E Q m -> (forall a, Q a -> Q' a) -> shows G E Q' m.
Proof.
  intros (out & r & -> & Hout & Hr) HQ. exists out, r.
  split; [reflexivity|]. split; [exact Hout|]. destruct r; auto.
Qed.

Lemma shows_call (P a y p e : R) :
  (forall err, calculate_amortization P a y p e = Some (Raise err) -> E err) ->
  shows G E (fun t => calculate_amortization P a y p e = Some (Return t))
    (call (calculate_amortization P a y p e)).
Proof.
  intros He. destruct (calculate_amortization_total P a y p e) as [res H].
  rewrite H. exists [], res. split; [reflexivity|]. split; [constructor|].
  destruct res; auto.
Qed.

Lemma shows_catch (E' : exn -> Prop) (Q : unit -> Prop)
    (m : script element unit) (handler : exn -> list element) :
  shows G E' Q m -> (forall e, E' e -> Forall G (handler e)) ->
  shows G E (fun _ => True) (catch m handler).
Proof.
  intros (out & r & -> & Hout & Hr) Hh. destruct r as [[]|e]; simpl.
  - exists out, (Return tt). auto.
  - exists (out ++ handler e), (Return tt). split; [reflexivity|].
    split; [apply Forall_app; split; [exact Hout|apply Hh; exact Hr]|exact I].
Qed.

End Shows.

(** A script that raises nothing ends normally. *)
Lemma shows_ends {element : Type} (G : element -> Prop) (Q : unit -> Prop)
    (m : script element unit) :
  shows G (fun _ => False) Q m ->
  exists els, m = Some (els, Return tt) /\ Forall G els.
Proof.
  intros (out & r & -> & Hout & Hr).
  destruct r as [[]|e]; [eauto|contradiction].
Qed.

(** What a dictionary returns is one of its entries, under a key equal
    to the one asked for. *)
Lemma lookup_entry {V : Type} (s : string) (d : list (string * V)) (v : V) :
  lookup s d = Return v ->
  exists k, In (k, v) d /\ String.eqb k s = true.
Proof.
  induction d as [|[k x] d IH]; simpl; [discriminate|].
  destruct (String.eqb k s) eqn:Ek.
  - intros H. injection H as <-. exists k. auto.
  - intros H. destruct (IH H) as (k' & Hin & Hk'). exists k'. auto.
Qed.

Lemma lookup_In {V : Type} (s : string) (d : list (string * V)) (v : V) :
  lookup s d = Return v -> In v (map snd d).
Proof.
  intros H. destruct (lookup_entry s d v H) as (k & Hin & _).
  apply (in_map snd) in Hin. exact Hin.
Qed.

(** *** The loan page *)

(** The tuples [calculate_amortization] returns. *)
Lemma calculate_amortization_shape (P a y p e : R) (t : list pyobj) :
  calculate_amortization P a y p e = Some (Return t) ->
  t = [DataFrame []; Num 0; Num 0; Num 0; Num 0; Num 0] \/
  exists rows rp tp ti pc,
    t = [DataFrame rows; Num rp; Num tp; Num ti; Num pc] /\ rows <> [].
Proof.
  intros H. destruct (Rle_dec P 0) as [HP|HP].
  - rewrite calculate_amortization_nonpositive in H by exact HP.
    injection H as <-. left. reflexivity.
  - right. revert H.
    unfold calculate_amortization, calculate_amortization_fuel.
    destruct (Rle_dec P 0); [lra|].
    destruct (calculate_loan_payment P a y p) as [rp0|err]; [|discriminate].
    cbv zeta.
    destruct (while_loop _ _ _ _ _ _) as [st|]; [|discriminate].
    unfold payment_column_sum.
    destruct (schedule st) as [|r0 rs]; simpl; [discriminate|].
    intros H. injection H as <-.
    eexists _, _, _, _, _. split; [reflexivity|discriminate].
Qed.

Lemma unpack5_shape (P a y p e : R) (t : list pyobj)
    (rows : list row) (rp tp ti pc : R) :
  calculate_amortization P a y p e = Some (Return t) ->
  LoanPage.unpack5 t = Return (rows, rp, tp, ti, pc) ->
  t = [DataFrame rows; Num rp; Num tp; Num ti; Num pc] /\ rows <> [].
Proof.
  intros H U.
  destruct (calculate_amortization_shape _ _ _ _ _ _ H)
    as [->|(rows' & a' & b' & c' & d' & -> & Hne)].
  - discriminate.
  - simpl in U. injection U as <- <- <- <- <-. auto.
Qed.

Lemma empty_false (rows : list row) :
  rows <> [] -> LoanPage.empty rows = false.
Proof. destruct rows; [contradiction|reflexivity]. Qed.

Ltac shows_steps :=
  repeat (eapply shows_bind;
          [first [apply shows_show; exact I | apply shows_run; intros; exact I]
          |intros ? _]).

(** X15: whatever is entered, the loan page renders and never shows one
    of its three fallback messages ("Could not calculate standard payment
    details", "Could not calculate details with extra payments",
    "Amortization schedule could not be generated"): a schedule that
    calculate_amortization hands to the page is never empty. *)
Theorem loan_page_no_fallback
    (loan_principal loan_rate_percent loan_years : R)
    (selected_freq_text : string) (payments_per_year extra_payment : R) :
  exists els,
    LoanPage.loan_page loan_principal loan_rate_percent loan_years
      selected_freq_text payments_per_year extra_payment
    = Some (els, Return tt) /\
    Forall regular els.
Proof.
  apply (shows_ends regular (fun _ => True)).
  unfold LoanPage.loan_page. cbv zeta.
  eapply shows_catch with (E' := fun _ => True) (Q := fun _ => True).
  2:{ intros e _. destruct e; repeat constructor. }
  eapply shows_bind; [apply shows_call; intros; exact I|].
  intros base Hbase. cbv beta in Hbase.
  eapply shows_bind; [apply shows_run; intros; exact I|].
  intros [[[[rows0 rp0] tp0] ti0] n0] Hb. cbv beta in Hb.
  destruct (unpack5_shape _ _ _ _ _ _ _ _ _ _ _ Hbase Hb) as [_ Hne0].
  rewrite (empty_false _ Hne0). cbn [negb].
  eapply shows_bind; [apply shows_show; exact I|]. intros _ _.
  eapply shows_bind.
  { shows_steps. apply shows_show. exact I. }
  intros _ _.
  eapply shows_bind with (Q := fun chosen => fst chosen <> []).
  { destruct (Rlt_dec 0 extra_payment).
    2:{ eapply shows_weaken; [apply shows_done|].
        intros ? ->. exact Hne0. }
    eapply shows_bind; [apply shows_show; exact I|]. intros _ _.
    eapply shows_bind; [apply shows_show; exact I|]. intros _ _.
    eapply shows_bind; [apply shows_call; intros; exact I|].
    intros extra Hextra. cbv beta in Hextra.
    eapply shows_bind; [apply shows_run; intros; exact I|].
    intros [[[[rowse rpe] tpe] tie] ne] Hx. cbv beta in Hx.
    destruct (unpack5_shape _ _ _ _ _ _ _ _ _ _ _ Hextra Hx) as [_ Hnee].
    rewrite (empty_false _ Hnee). cbn [negb]. cbv zeta.
    shows_steps.
    eapply shows_weaken; [apply shows_done|].
    intros ? ->. exact Hnee. }
  intros [sched title] Hne. cbn [fst] in Hne.
  rewrite (empty_false _ Hne). cbn [negb].
  eapply shows_bind; [apply shows_show; exact I|]. intros _ _.
  apply shows_show. exact I.
Qed.



Lemma valid_loan_tuple (P a y p e : R) :
  valid_loan P a y p e -> 0.01 < P ->
  exists rows rp tp ti pc,
    calculate_amortization P a y p e
    = Some (Return [DataFrame rows; Num rp; Num tp; Num ti; Num pc]) /\
    rows <> [].
Proof.
  intros Hv HP1.
  destruct (valid_loan_returns P a y p e Hv HP1) as (rows & rest & H).
  destruct Hv as (HP & _).
  destruct (calculate_amortization_inv P a y p e rows rest HP H)
    as (rp0 & rp & st & _ & _ & _ & _ & Hne & ->).
  eexists _, _, _, _, _. split; [exact H|exact Hne].
Qed.

(** Every payment frequency of the form is positive. *)
Lemma lookup_payment_freq (s : string) (p : R) :
  lookup s LoanPage.payment_freq_options = Return p -> 0 < p.
Proof.
  intros H. apply lookup_In in H. simpl in H.
  repeat (destruct H as [H|H]; [subst p; lra|]). contradiction.
Qed.



(** *** The interest page *)

Lemma lookup_compound (s : string) (v : pyval) :
  lookup s InterestPage.compound_options = Return v ->
  v = VStr "continuously" \/ exists n, v = VInt n /\ (1 <= n <= 365)%Z.
Proof.
  intros H. apply lookup_In in H. simpl in H.
  repeat (destruct H as [H|H];
          [subst v;
           first [left; reflexivity
                 |right; eexists; split; [reflexivity|lia]]|]).
  contradiction.
Qed.

Lemma lookup_contrib (s : string) (f : Z) :
  lookup s InterestPage.contrib_freq_options = Return (VInt f) ->
  (1 <= f <= 365)%Z.
Proof.
  intros H. apply lookup_In in H. simpl in H.
  repeat (destruct H as [H|H];
          [first [discriminate | injection H as <-; lia]|]).
  contradiction.
Qed.

Lemma lookup_contrib_match (s : string) :
  lookup s InterestPage.contrib_freq_options = Return (VStr "match") ->
  String.eqb s "Matches Compounding" = true.
Proof.
  intros H. destruct (lookup_entry _ _ _ H) as (k & Hin & Hk).
  simpl in Hin.
  destruct Hin as [Hin|Hin];
    [injection Hin as <-; rewrite String.eqb_sym; exact Hk|].
  repeat (destruct Hin as [Hin|Hin]; [discriminate|]). contradiction.
Qed.

Lemma lookup_contrib_cases (s : string) (v : pyval) :
  lookup s InterestPage.contrib_freq_options = Return v ->
  v = VStr "match" \/ exists f, v = VInt f.
Proof.
  intros H. apply lookup_In in H. simpl in H.
  repeat (destruct H as [H|H];
          [subst v; first [left; reflexivity|right; eauto]|]).
  contradiction.
Qed.

Lemma to_float_small (z : Z) :
  (0 <= z <= 365)%Z -> to_float (PyInt z) = Return (Fin (IZR z)).
Proof.
  intros Hz. unfold to_float. pose proof FLOAT_LIMIT_lower as HL.
  assert (0 <= IZR z <= 365).
  { split; apply IZR_le; lia. }
  rewrite Rabs_pos_eq by lra.
  destruct (Rle_dec FLOAT_LIMIT (IZR z)); [lra|reflexivity].
Qed.

(** [x - y] for an [x] of finite value [a] within the float range. *)
Lemma py_sub_fin (x : num) (y : xfloat) (a : R) :
  xv x = Fin a -> - FLOAT_LIMIT < a < FLOAT_LIMIT ->
  py_sub x (PyFloat y) = Return (PyFloat (xsub (Fin a) y)).
Proof.
  intros Ea Ha. destruct x as [z|x']; cbn [xv] in Ea.
  - injection Ea as <-. unfold py_sub, arith, to_float.
    destruct (Rle_dec FLOAT_LIMIT (Rabs (IZR z))) as [Hz|Hz].
    + exfalso. unfold Rabs in Hz. destruct (Rcase_abs (IZR z)); lra.
    + reflexivity.
  - subst x'. reflexivity.
Qed.

Lemma xv_max0_inf (d : num) : xv d = NInf -> max0 d = PyInt 0.
Proof.
  intros H. unfold max0, py_gt. rewrite H. reflexivity.
Qed.

Lemma rate_decimal_exact (rp : R) :
  0 <= rp -> rp < FLOAT_LIMIT ->
  py_div (PyFloat (Fin rp)) (PyFloat (Fin 100)) = Return (Fin (rp / 100)).
Proof.
  intros Hrp HrpL. pose proof FLOAT_LIMIT_pos as HL.
  unfold py_div. cbn [to_float bind xdiv].
  destruct (Req_dec_T 100 0); [lra|]. f_equal.
  apply fround_in_range. lra.
Qed.

Lemma breakdown_shows (G : InterestPage.element -> Prop) (E : exn -> Prop)
    (p tc ti fa : num) :
  (forall l v t, G (InterestPage.Pie_chart l v t)) ->
  shows G E (fun _ => True) (InterestPage.breakdown p tc ti fa).
Proof.
  intros HG. unfold InterestPage.breakdown.
  destruct (_ && _)%bool; [|eapply shows_weaken; [apply shows_done|auto]].
  cbv zeta.
  destruct (filter _ _);
    [eapply shows_weaken; [apply shows_done|auto]|].
  apply shows_show. apply HG.
Qed.

(** The page under discrete compounding. *)
Lemma interest_page_discrete (P rp t c : R) (sel_c sel_f : string) (n f : Z) :
  lookup sel_c InterestPage.compound_options = Return (VInt n) ->
  (String.eqb sel_f "Matches Compounding" = true /\ f = n) \/
  (String.eqb sel_f "Matches Compounding" = false /\
   lookup sel_f InterestPage.contrib_freq_options = Return (VInt f)) ->
  0 <= P -> 0 <= rp -> rp < FLOAT_LIMIT -> 0 <= t -> 0 <= c ->
  c * IZR f < FLOAT_LIMIT ->
  exists els,
    InterestPage.interest_page P rp t c sel_c sel_f
    = Some (els, Return tt) /\
    Forall (sound_view P (c * IZR f * t)
              (discrete_growth P (rp / 100) t n
               + discrete_annuity (c * IZR f / IZR n) (rp / 100) t n)) els.
Proof.
  intros Hsel Hfreq HP Hrp HrpL Ht Hc HcfL.
  pose proof FLOAT_LIMIT_pos as HL.
  destruct (lookup_compound _ _ Hsel) as [?|(n' & En & Hn)]; [discriminate|].
  injection En as <-.
  assert (Hf : (1 <= f <= 365)%Z).
  { destruct Hfreq as [[_ ->]|[_ H]]; [exact Hn|].
    apply lookup_contrib in H. exact H. }
  assert (Hn' : 1 <= IZR n) by (apply IZR_le; lia).
  assert (Hf' : 1 <= IZR f) by (apply IZR_le; lia).
  pose proof (rate_decimal_exact rp Hrp HrpL) as Erate.
  set (r := rp / 100) in *.
  assert (Hr : 0 <= r < FLOAT_LIMIT) by (unfold r; lra).
  assert (Hcf : 0 <= c * IZR f) by (apply Rmult_le_pos; lra).
  set (c' := c * IZR f / IZR n).
  assert (Hc' : 0 <= c' <= c * IZR f).
  { unfold c'. split.
    - apply Rmult_le_pos; [lra|]. left. apply Rinv_0_lt_compat. lra.
    - apply (Rmult_le_reg_r (IZR n)); [lra|].
      unfold Rdiv. rewrite Rmult_assoc, Rinv_l by lra. nra. }
  set (T := c * IZR f * t).
  assert (HT : 0 <= T) by (apply Rmult_le_pos; lra).
  set (a := discrete_growth P r t n + discrete_annuity c' r t n).
  set (G := sound_view P T a).
  apply (shows_ends G (fun _ => True)).
  unfold InterestPage.interest_page. cbv zeta.
  eapply shows_bind; [apply shows_return; exact Hsel|]. intros ? ->.
  eapply shows_bind; [apply shows_return; exact Erate|]. intros ? ->.
  cbn [InterestPage.is_continuously negb andb].
  eapply shows_bind with (Q := fun v => v = VInt f).
  { destruct Hfreq as [[-> ->]|[-> ->]];
      [apply shows_done|apply shows_return; reflexivity]. }
  intros ? ->.
  assert (Ecf : py_mul (PyFloat (Fin c)) (PyInt f)
                = Return (PyFloat (Fin (c * IZR f)))).
  { rewrite py_mul_float_int, to_float_small by lia. cbn [bind xmul].
    rewrite fround_in_range by (split; lra). reflexivity. }
  eapply shows_bind with
    (Q := fun per => per = PyFloat (Fin c') \/ (per = PyInt 0 /\ c = 0)).
  { unfold py_gt at 1. cbn [xv xlt].
    destruct (Rlt_dec 0 c) as [Hc0|Hc0].
    2:{ eapply shows_weaken; [apply shows_done|].
        intros ? ->. right. split; [reflexivity|lra]. }
    eapply shows_bind; [apply shows_return; reflexivity|]. intros ? ->.
    eapply shows_bind; [apply shows_return; exact Ecf|]. intros ? ->.
    eapply shows_bind; [apply shows_return; reflexivity|]. intros ? ->.
    unfold py_gt at 1. cbn [xv xlt].
    destruct (Rlt_dec 0 (IZR n)); [|lra].
    assert (Eper : py_div (PyFloat (Fin (c * IZR f))) (PyInt n)
                   = Return (Fin c')).
    { rewrite py_div_float_int, to_float_small by lia.
      cbn [bind xdiv]. destruct (Req_dec_T (IZR n) 0); [lra|]. f_equal.
      apply fround_in_range. fold c'. lra. }
    eapply shows_bind; [apply shows_return; exact Eper|]. intros ? ->.
    eapply shows_bind with (Q := fun _ => True).
    { destruct (negb _);
        [apply shows_show; exact I
        |eapply shows_weaken; [apply shows_done|auto]]. }
    intros _ _. eapply shows_weaken; [apply shows_done|].
    intros ? ->. left. reflexivity. }
  intros per Hper.
  eapply shows_catch with (E' := fun _ => False) (Q := fun _ => True);
    [|contradiction].
  assert (Hcall : exists res,
            future_value_with_contributions (of_num (PyFloat (Fin P)))
              (VFloat (Fin r)) (of_num (PyFloat (Fin t))) (VInt n)
              (of_num per) (VInt n) = Return res /\
            growth_exact P a (c' * IZR n * t) res).
  { apply (future_value_discrete_exact P r t c' (of_num per) n n);
      try lra; try lia.
    destruct Hper as [->|[-> Hc0]]; [left; reflexivity|].
    right. split; [reflexivity|]. unfold c'. rewrite Hc0.
    unfold Rdiv. ring. }
  destruct Hcall as (res & Ecall & Hres).
  replace (c' * IZR n * t) with T in Hres
    by (unfold c', T; field; lra).
  assert (Ha : P <= a).
  { unfold a.
    pose proof (growth_discrete_ge P r t n HP ltac:(lra) Ht ltac:(lia)).
    pose proof (discrete_annuity_nonneg c' r t n ltac:(lra) Ht ltac:(lra)
                  ltac:(lia)).
    lra. }
  eapply shows_bind with
    (Q := fun results =>
            let '(fa, ti, tc) := results in
            fa = PyFloat PInf \/
            (xv fa = Fin a /\ plain tc /\ exact_or_inf T (xv tc) /\
             xv ti = Fin (Rmax 0 (a - P - T)))).
  { eapply shows_bind; [apply shows_return; exact Ecall|]. intros ? ->.
    destruct res as [[fa ti0] tc].
    eapply shows_bind; [apply shows_return; reflexivity|]. intros ? ->.
    eapply shows_bind; [apply shows_return; exact Ecf|]. intros ? ->.
    eapply shows_bind; [apply shows_return; apply py_mul_float|].
    intros ? ->. cbn [xmul]. fold T.
    destruct Hres as [Hov|(Hfa & HaL & Hptc & Htc & _)].
    - injection Hov as -> -> ->.
      eapply shows_bind; [apply shows_return; reflexivity|]. intros ? ->.
      eapply shows_bind; [apply shows_return; reflexivity|]. intros ? ->.
      eapply shows_weaken; [apply shows_done|]. intros ? ->.
      left. reflexivity.
    - eapply shows_bind;
        [apply shows_return; apply (py_sub_fin fa (Fin P) a Hfa); lra|].
      intros ? ->. cbn [xsub xneg xadd].
      rewrite (fround_in_range (a + - P)) by (split; lra).
      eapply shows_bind; [apply shows_return; reflexivity|]. intros ? ->.
      eapply shows_weaken; [apply shows_done|]. intros ? ->.
      right. split; [exact Hfa|]. split; [exact Hptc|]. split; [exact Htc|].
      destruct (fround_cases T HT) as [ET|[ET HTL]]; rewrite ET.
      + cbn [xsub xneg xadd]. rewrite xv_max0_inf by reflexivity.
        cbn [xv]. f_equal. unfold Rmax.
        assert (FLOAT_LIMIT <= T).
        { revert ET. unfold fround.
          destruct (Rle_dec FLOAT_LIMIT T); [lra|].
          destruct (Rle_dec T (- FLOAT_LIMIT)); discriminate. }
        destruct (Rle_dec 0 (a - P - T)); lra.
      + apply max0_value; [reflexivity|lra]. }
  intros [[fa ti] tc] Hres'.
  eapply shows_bind; [apply shows_show; exact I|]. intros _ _.
  destruct Hres' as [->|(Hfa & Hptc & Htc & Hti)].
  { apply shows_show. exact I. }
  unfold py_eq at 1. rewrite Hfa. cbn [xv xeq].
  destruct (py_add_plain P T (PyFloat (Fin P)) tc (plain_float _) Hptc
              (exact_refl P) Htc ltac:(lra)) as (s & Es & _ & Hs).
  eapply shows_bind; [apply shows_return; exact Es|]. intros ? ->.
  eapply shows_bind.
  { apply shows_show. simpl. split; [auto|]. split; discriminate. }
  intros _ _.
  eapply shows_bind.
  { apply shows_show. simpl.
    split; [discriminate|]. split; [auto|discriminate]. }
  intros _ _.
  eapply shows_bind.
  { apply shows_show. simpl.
    split; [discriminate|]. split; [discriminate|auto]. }
  intros _ _.
  eapply shows_bind; [apply shows_show; exact I|]. intros _ _.
  apply breakdown_shows. intros; exact I.
Qed.

Lemma sound_view_no_error (P T a : R) (e : InterestPage.element) :
  sound_view P T a e -> no_error e.
Proof. destruct e; simpl; auto. Qed.

(** The page under continuous compounding. *)
Lemma interest_page_continuous (P rp t c : R) (sel_c sel_f : string) (f : Z) :
  lookup sel_c InterestPage.compound_options
  = Return (VStr "continuously") ->
  (String.eqb sel_f "Matches Compounding" = true /\ f = 12%Z) \/
  (String.eqb sel_f "Matches Compounding" = false /\
   lookup sel_f InterestPage.contrib_freq_options = Return (VInt f)) ->
  0 <= P -> 0 <= rp -> rp < FLOAT_LIMIT -> 0 <= t -> 0 <= c ->
  exists els,
    InterestPage.interest_page P rp t c sel_c sel_f
    = Some (els, Return tt) /\
    Forall no_error els.
Proof.
  intros Hsel Hfreq HP Hrp HrpL Ht Hc.
  pose proof FLOAT_LIMIT_pos as HL.
  assert (Hf : (1 <= f <= 365)%Z).
  { destruct Hfreq as [[_ ->]|[_ H]]; [lia|].
    apply lookup_contrib in H. exact H. }
  pose proof (rate_decimal_exact rp Hrp HrpL) as Erate.
  set (r := rp / 100) in *.
  assert (Hr : 0 <= r < FLOAT_LIMIT) by (unfold r; lra).
  apply (shows_ends no_error (fun _ => True)).
  unfold InterestPage.interest_page. cbv zeta.
  eapply shows_bind; [apply shows_return; exact Hsel|]. intros ? ->.
  eapply shows_bind; [apply shows_return; exact Erate|]. intros ? ->.
  cbn [InterestPage.is_continuously String.eqb Ascii.eqb Bool.eqb negb andb].
  eapply shows_bind with (Q := fun v => v = VInt f).
  { destruct Hfreq as [[-> ->]|[-> ->]].
    - eapply shows_bind; [apply shows_show; exact I|]. intros _ _.
      apply shows_done.
    - apply shows_return. reflexivity. }
  intros ? ->.
  eapply shows_bind; [apply shows_done|]. intros ? ->.
  eapply shows_catch with (E' := fun _ => False) (Q := fun _ => True);
    [|contradiction].
  destruct (future_value_continuous_exact P r t c f HP ltac:(lra) Ht Hc
              ltac:(lia)) as (res & Ecall & Hres).
  assert (HT : 0 <= c * IZR f * t).
  { assert (1 <= IZR f) by (apply IZR_le; lia).
    apply Rmult_le_pos; [apply Rmult_le_pos; lra|lra]. }
  eapply shows_bind; [apply shows_return; exact Ecall|]. intros ? ->.
  destruct res as [[fa ti] tc].
  eapply shows_bind; [apply shows_show; exact I|]. intros _ _.
  destruct Hres as [Hov|(Hfa & HaL & Hptc & Htc & _)].
  { injection Hov as -> -> ->. apply shows_show. exact I. }
  unfold py_eq at 1. rewrite Hfa. cbn [xv xeq].
  destruct (py_add_plain P _ (PyFloat (Fin P)) tc (plain_float _) Hptc
              (exact_refl P) Htc ltac:(lra)) as (s & Es & _ & Hs).
  eapply shows_bind; [apply shows_return; exact Es|]. intros ? ->.
  do 4 (eapply shows_bind; [apply shows_show; exact I|]; intros _ _).
  apply breakdown_shows. intros; exact I.
Qed.

(** X18: on the inputs its form accepts (non-negative amounts within
    the float range, options of its two menus) the interest page runs to
    its end and shows no error message, neither of its two handlers nor
    that of a compounding frequency that is not positive. *)
Theorem interest_page_no_error (P rp t c : R) (sel_c sel_f : string)
    (compound_input frequency : pyval) :
  lookup sel_c InterestPage.compound_options = Return compound_input ->
  lookup sel_f InterestPage.contrib_freq_options = Return frequency ->
  0 <= P -> 0 <= rp -> rp < FLOAT_LIMIT -> 0 <= t -> 0 <= c ->
  c * 365 < FLOAT_LIMIT ->
  exists els,
    InterestPage.interest_page P rp t c sel_c sel_f
    = Some (els, Return tt) /\
    Forall no_error els.
Proof.
  intros Hsel Hfreq HP Hrp HrpL Ht Hc HcL.
  assert (Hcf : forall f : Z, (1 <= f <= 365)%Z -> c * IZR f < FLOAT_LIMIT).
  { intros f Hf. assert (IZR f <= 365) by (apply IZR_le; lia).
    assert (c * IZR f <= c * 365) by (apply Rmult_le_compat_l; lra). lra. }
  destruct (lookup_compound _ _ Hsel) as [->|(n & -> & Hn)].
  - destruct (String.eqb sel_f "Matches Compounding") eqn:Em.
    + apply (interest_page_continuous P rp t c sel_c sel_f 12); auto.
    + destruct (lookup_contrib_cases _ _ Hfreq) as [->|[f ->]].
      * apply lookup_contrib_match in Hfreq. congruence.
      * apply (interest_page_continuous P rp t c sel_c sel_f f); auto.
  - assert (Hd : exists f : Z,
              (1 <= f <= 365)%Z /\
              ((String.eqb sel_f "Matches Compounding" = true /\ f = n) \/
               (String.eqb sel_f "Matches Compounding" = false /\
                lookup sel_f InterestPage.contrib_freq_options
                = Return (VInt f)))).
    { destruct (String.eqb sel_f "Matches Compounding") eqn:Em.
      - exists n. auto.
      - destruct (lookup_contrib_cases _ _ Hfreq) as [->|[f ->]].
        + apply lookup_contrib_match in Hfreq. congruence.
        + exists f. split; [eapply lookup_contrib; exact Hfreq|auto]. }
    destruct Hd as (f & Hf & Hd).
    destruct (interest_page_discrete P rp t c sel_c sel_f n f Hsel Hd
                HP Hrp HrpL Ht Hc (Hcf f Hf)) as (els & E & Hels).
    exists els. split; [exact E|].
    eapply Forall_impl; [|exact Hels]. apply sound_view_no_error.
Qed.

Lemma interest_page_no_error_witness :
  exists els,
    InterestPage.interest_page 1000 5 10 100 "Monthly (12/year)"
      "Matches Compounding"
    = Some (els, Return tt) /\
    Forall no_error els.
Proof.
  pose proof FLOAT_LIMIT_lower as HL.
  apply (interest_page_no_error 1000 5 10 100 "Monthly (12/year)"
           "Matches Compounding" (VInt 12) (VStr "match"));
    try reflexivity; lra.
Defined.



(** *** The earlier interest page *)

Lemma old_lookup_compound (s : string) (v : pyval) :
  lookup s OldInterestPage.compound_options = Return v ->
  v = VStr "continuously" \/ exists n, v = VInt n /\ (1 <= n <= 365)%Z.
Proof.
  intros H. apply lookup_In in H. simpl in H.
  repeat (destruct H as [H|H];
          [subst v;
           first [left; reflexivity
                 |right; eexists; split; [reflexivity|lia]]|]).
  contradiction.
Qed.


